(** * Pediatric-Expert-Database: crawl planner, snapshot store, author
      resolver and keyword reconciliation

    A shallow embedding of the algorithmic core of the bibliometric
    pipeline, with the properties its specification states about it.

    - [2-pubmed_literature_crawler_with_journal.py]: [get_mid_date],
      [crawl_time_interval], [process_time_interval],
      [remove_duplicate_pmids], [merge_new_articles], the merge step of
      [main];
    - [4-text_normalization_utils.py]: [UnionFind], [are_authors_same],
      [process_author_group];
    - [5-author_data_enrichment.py]: [extract_affiliation_info];
    - [6-llm_keyword_extractor_with_resume.py]: [extract_keywords];
    - [8-keywords_mesh_terms_combiner.py]: [clean_keyword],
      [is_similar_to_excluded], [process_paper].

    Conventions.  A Python [dict] with string keys and values is a
    [gmap string string]; a [dict] whose insertion order is observed is
    an association list.  A raised exception is the [Raise] branch of
    [result].  Recursion that the source leaves unbounded takes a [fuel]
    argument and answers [OutOfFuel] when the fuel runs out.  The network is
    a function from the number of the request to the reply it gets. *)

From Stdlib Require Import ZArith QArith Lia Ascii String List.
From stdpp Require Import gmap strings list fin_maps sorting.

Local Open Scope string_scope.
Local Open Scope list_scope.
Local Open Scope Z_scope.

(* ===================================================================== *)
(** * Exceptions *)
(* ===================================================================== *)

Inductive exn : Type :=
  | KeyError (key : string)
  | ZeroDivisionError
  | IndexError
  | RuntimeError.

(** The outcome of a call: it returns [a], it raises [e], or its
    recursion is still running when the fuel is used up. *)
Inductive result (A : Type) : Type :=
  | Ok (a : A)
  | Raise (e : exn)
  | OutOfFuel.
Arguments Ok {A} a.
Arguments Raise {A} e.
Arguments OutOfFuel {A}.

#[global] Instance result_ret : MRet result := fun A a => Ok a.
#[global] Instance result_bind : MBind result := fun A B f m =>
  match m with
  | Ok a => f a
  | Raise e => Raise e
  | OutOfFuel => OutOfFuel
  end.

(* ===================================================================== *)
(** * Records of the crawl *)
(* ===================================================================== *)

(** The dict [parse_page] builds for every search hit: exactly these
    five keys. *)
Record Article : Type := mkArticle {
  Title : string;
  Authors : string;
  PMID : string;
  Journal : string;
  Date : string
}.

(** Python truthiness of a [str]. *)
Definition truthy (s : string) : bool :=
  match s with
  | EmptyString => false
  | String _ _ => true
  end.

(** A row of the snapshot CSV, or an article seen as a dict. *)
Abbreviation row := (gmap string string).

Definition article_row (a : Article) : row :=
  <["Title" := Title a]> (<["Authors" := Authors a]> (<["PMID" := PMID a]>
    (<["Journal" := Journal a]> (<["Date" := Date a]> ∅)))).

(** [d[key]]: a missing key raises. *)
Definition getitem (d : row) (key : string) : result string :=
  match d !! key with
  | Some v => Ok v
  | None => Raise (KeyError key)
  end.

(* ===================================================================== *)
(** * Interval crawl planner *)
(* ===================================================================== *)

Module Planner.

(** Dates are day ordinals ([datetime.toordinal]); a [datetime] is a
    number of microseconds since the ordinal 0, a [timedelta] a number
    of microseconds.  [strptime] of a ["%Y/%m/%d"] string gives midnight
    of the day, [format_date] keeps the day and drops the time of day. *)
Definition us_per_day : Z := 86400000000.

Definition strptime (day : Z) : Z := day * us_per_day.

Definition format_date (date_obj : Z) : Z := date_obj / us_per_day.

(** [timedelta / 2], which rounds to the nearest microsecond, half to
    even. *)
Definition timedelta_half (delta : Z) : Z :=
  let q := delta / 2 in
  if (delta mod 2 =? 0) then q else if Z.even q then q else q + 1.

Definition get_mid_date (start_date end_date : Z) : Z :=
  let start := strptime start_date in
  let end_ := strptime end_date in
  let delta := timedelta_half (end_ - start) in
  let mid_date := start + delta in
  format_date mid_date.

(** The day after [mid_date], as line 340 computes it. *)
Definition next_day (mid_date : Z) : Z :=
  format_date (strptime mid_date + 1 * us_per_day).

(** The two sub-ranges [process_time_interval] recurses on. *)
Definition split_interval (start_date end_date : Z) : (Z * Z) * (Z * Z) :=
  let mid_date := get_mid_date start_date end_date in
  ((start_date, mid_date), (next_day mid_date, end_date)).

(** A day lies in an inclusive range. *)
Definition in_range (r : Z * Z) (day : Z) : Prop := r.1 ≤ day ≤ r.2.

(** What the run prints, as far as control flow shows in it. *)
Inductive event : Type :=
  | Processing (start_date end_date : Z) (depth : nat)
  | NoResults
  | Crawled (n : nat)
  | Splitting (total : Z)
  | Failed (e : exn)
  | Sleep.

Record state : Type := mkState {
  all_articles : list Article;
  log : list event
}.

Definition emit (ev : event) (st : state) : state :=
  {| all_articles := all_articles st; log := log st ++ [ev] |}.

Definition extend (articles : list Article) (st : state) : state :=
  {| all_articles := all_articles st ++ articles; log := log st |}.

(** One of the three closing statistics lines: [count / len(articles)]
    is evaluated while the line is formatted. *)
Definition statistics_line (count total : nat) : result unit :=
  if (total =? 0)%nat then Raise ZeroDivisionError else Ok tt.

Definition count_truthy (field : Article → string) (articles : list Article) : nat :=
  length (filter (λ a, truthy (field a) = true) articles).

Section Crawl.
(** [parse_page] for the pages of one search URL: the articles of a
    page, [[]] when the page could not be fetched. *)
Variable parse_page : Z → list Article.
Variable existing_pmids : gset string.

Definition page_step (articles : list Article) (page : Z) : list Article :=
  let page_articles := parse_page page in
  match page_articles with
  | [] => articles
  | _ :: _ =>
      let new_articles :=
        filter (λ article, PMID article ∉ existing_pmids) page_articles in
      match new_articles with
      | [] => articles
      | _ :: _ => articles ++ new_articles
      end
  end.

(** [articles] when the loop over the pages is over;
    [math.ceil(total_results / 200)] is [(total_results + 199) / 200]. *)
Definition collect_pages (total_results : Z) : list Article :=
  let total_pages := (total_results + 199) / 200 in
  let actual_pages := Z.min total_pages 50 in
  foldl page_step [] (seqZ 1 actual_pages).

Definition crawl_time_interval (total_results : Z) : result (list Article) :=
  let articles := collect_pages total_results in
  _ ← statistics_line (count_truthy PMID articles) (length articles);
  _ ← statistics_line (count_truthy Date articles) (length articles);
  _ ← statistics_line (count_truthy Journal articles) (length articles);
  Ok articles.
End Crawl.

Section ProcessTimeInterval.
(** [get_total_results] for a date filter; it raises after three
    failed attempts. *)
Variable get_total_results : Z → Z → result Z.
(** [parse_page] for a date filter and a page number. *)
Variable parse_page : Z → Z → Z → list Article.
Variable existing_pmids : gset string.

Fixpoint process_time_interval (fuel : nat) (start_date end_date : Z)
    (st : state) (depth : nat) : result state :=
  match fuel with
  | O => OutOfFuel
  | S fuel' =>
    let st := emit (Processing start_date end_date depth) st in
    match get_total_results start_date end_date with
    | OutOfFuel => OutOfFuel
    | Raise e => Ok (emit Sleep (emit (Failed e) st))
    | Ok total_results =>
      if total_results =? 0 then Ok (emit NoResults st)
      else if total_results <=? 10000 then
        match crawl_time_interval (parse_page start_date end_date)
                existing_pmids total_results with
        | OutOfFuel => OutOfFuel
        | Raise e => Ok (emit Sleep (emit (Failed e) st))
        | Ok [] => Ok st
        | Ok articles => Ok (emit (Crawled (length articles)) (extend articles st))
        end
      else
        let st := emit (Splitting total_results) st in
        let mid_date := get_mid_date start_date end_date in
        match process_time_interval fuel' start_date mid_date st (S depth) with
        | OutOfFuel => OutOfFuel
        | Raise e => Ok (emit Sleep (emit (Failed e) st))
        | Ok st =>
          match process_time_interval fuel' (next_day mid_date) end_date st (S depth) with
          | OutOfFuel => OutOfFuel
          | Raise e => Ok (emit Sleep (emit (Failed e) st))
          | Ok st => Ok (emit Sleep st)
          end
        end
    end
  end.
End ProcessTimeInterval.

(** [st'] is [st] with some articles of unknown identifier appended and
    some lines logged. *)
Definition grows (existing_pmids : gset string) (st st' : state) : Prop :=
  ∃ added events,
    all_articles st' = all_articles st ++ added ∧
    log st' = log st ++ events ∧
    Forall (λ a, PMID a ∉ existing_pmids) added.

(** ** Sample inputs *)

(** A search that reports 10,001 hits for every date filter. *)
Definition busy_search (start_date end_date : Z) : result Z := Ok 10001.

(** A search that reports three hits, and a result page that holds one
    article, whose identifier is known already. *)
Definition small_search (start_date end_date : Z) : result Z := Ok 3.

Definition known_article : Article :=
  {| Title := "Inguinal hernia repair in infants";
     Authors := "Doe J, Roe R.";
     PMID := "123";
     Journal := "J Pediatr Surg";
     Date := "2020 Jan" |}.

Definition known_page (start_date end_date page : Z) : list Article :=
  [known_article].

Definition state0 : state := {| all_articles := []; log := [] |}.

End Planner.

(* ===================================================================== *)
(** * Snapshot store *)
(* ===================================================================== *)

Module Snapshot.

(** [pmid_to_article]: a dict from PMID to row whose insertion order is
    the order of [list(pmid_to_article.values())]. *)
Definition odict : Type := list (string * row).

Fixpoint od_get (m : odict) (k : string) : option row :=
  match m with
  | [] => None
  | (k', v) :: m' => if decide (k' = k) then Some v else od_get m' k
  end.

(** [m[k] = v]: an existing key keeps its place, a new key goes last. *)
Fixpoint od_set (m : odict) (k : string) (v : row) : odict :=
  match m with
  | [] => [(k, v)]
  | (k', v') :: m' =>
      if decide (k' = k) then (k, v) :: m' else (k', v') :: od_set m' k v
  end.

Definition od_values (m : odict) : list row := m.*2.

(** [d.update(other)]: every key of [other] is written into [d]. *)
Definition update (d other : row) : row := other ∪ d.

(** [{article['PMID']: article for article in existing_articles}] *)
Fixpoint index_by_pmid (articles : list row) (m : odict) : result odict :=
  match articles with
  | [] => Ok m
  | article :: rest =>
      pmid ← getitem article "PMID";
      index_by_pmid rest (od_set m pmid article)
  end.

(** Lines 401-403: [existing] after the journal of [new_article] has
    been written into it, if there is one, and after [update]. *)
Definition merge_fields (existing new_article : row) : row :=
  let existing :=
    match new_article !! "Journal" with
    | Some journal =>
        if truthy journal then <["Journal" := journal]> existing else existing
    | None => existing
    end in
  update existing new_article.

(** The body of the loop over [new_articles]. *)
Definition merge_one (m : odict) (new_article : row) : result odict :=
  pmid ← getitem new_article "PMID";
  match od_get m pmid with
  | Some existing => Ok (od_set m pmid (merge_fields existing new_article))
  | None => Ok (od_set m pmid new_article)
  end.

Fixpoint merge_loop (new_articles : list row) (m : odict) : result odict :=
  match new_articles with
  | [] => Ok m
  | new_article :: rest => m ← merge_one m new_article; merge_loop rest m
  end.

Definition merge_new_articles (existing_articles new_articles : list row)
    : result (list row) :=
  pmid_to_article ← index_by_pmid existing_articles [];
  pmid_to_article ← merge_loop new_articles pmid_to_article;
  Ok (od_values pmid_to_article).

(** Lines 495-509 of [main]: what becomes [all_articles] once the crawl
    has returned [new_articles]. *)
Definition main_merge (existing_articles new_articles : list row)
    : result (list row) :=
  match new_articles with
  | [] => Ok existing_articles
  | _ :: _ => merge_new_articles existing_articles new_articles
  end.

(** ** The merge as the specification words it

    The merged record takes the fields of the new record that are not
    empty and keeps the old record's value for every other field. *)
Definition prefers_non_empty (old new_article merged : row) : Prop :=
  ∀ field,
    match new_article !! field with
    | Some v =>
        if truthy v then merged !! field = Some v
        else merged !! field = old !! field
    | None => merged !! field = old !! field
    end.

(** ** De-duplication of the written snapshot *)

Record dedup_state : Type := mkDedup {
  unique_articles : list row;
  seen_pmids : gset string;
  duplicate_count : nat
}.

(** The body of the loop over the rows of the file.  A removed row is
    reported with its title, so its ['Title'] is read. *)
Definition dedup_step (st : dedup_state) (r : row) : result dedup_state :=
  pmid ← getitem r "PMID";
  if negb (truthy pmid) || bool_decide (pmid ∈ seen_pmids st) then
    _ ← getitem r "Title";
    Ok {| unique_articles := unique_articles st;
          seen_pmids := seen_pmids st;
          duplicate_count := S (duplicate_count st) |}
  else
    Ok {| unique_articles := unique_articles st ++ [r];
          seen_pmids := {[pmid]} ∪ seen_pmids st;
          duplicate_count := duplicate_count st |}.

Fixpoint dedup_loop (rows : list row) (st : dedup_state) : result dedup_state :=
  match rows with
  | [] => Ok st
  | r :: rest => st ← dedup_step st r; dedup_loop rest st
  end.

Definition dedup_init : dedup_state :=
  {| unique_articles := []; seen_pmids := ∅; duplicate_count := 0 |}.

(** The rows of the file once [remove_duplicate_pmids] has returned,
    with the number of entries it reported: the file is rewritten only
    when an entry was removed. *)
Definition remove_duplicate_pmids (rows : list row) : result (list row * nat) :=
  st ← dedup_loop rows dedup_init;
  if (duplicate_count st =? 0)%nat then Ok (rows, 0%nat)
  else Ok (unique_articles st, duplicate_count st).

(** ** The de-duplication as the specification words it *)

Definition pmid_of (r : row) : string := default "" (r !! "PMID").

(** Entry [i] is removed: its identifier is empty, or an earlier entry
    has the same identifier. *)
Definition removed_entry (rows : list row) (i : nat) : bool :=
  match rows !! i with
  | None => false
  | Some r =>
      negb (truthy (pmid_of r))
      || bool_decide (pmid_of r ∈ pmid_of <$> take i rows)
  end.

Definition removed_count (rows : list row) : nat :=
  length (filter (λ i, removed_entry rows i = true) (seq 0 (length rows))).

Definition kept_entries (rows : list row) : list row :=
  omap (λ i, rows !! i)
    (filter (λ i, removed_entry rows i = false) (seq 0 (length rows))).

(** ** Well-formed inputs and invariants *)

(** A row has an identifier column; a row of the written snapshot has a
    title column too. *)
Definition has_pmid (r : row) : Prop := is_Some (r !! "PMID").

Definition readable (r : row) : Prop :=
  is_Some (r !! "PMID") ∧ is_Some (r !! "Title").

(** Every row of the dict is filed under its own identifier. *)
Definition keyed (m : odict) : Prop :=
  NoDup m.*1 ∧ ∀ k v, (k, v) ∈ m → v !! "PMID" = Some k.

(** The row filed under [k] once [new_article] has been merged in. *)
Definition merge_value (k : string) (cur : option row) (new_article : row)
    : option row :=
  if decide (pmid_of new_article = k) then
    Some (match cur with
          | Some existing => merge_fields existing new_article
          | None => new_article
          end)
  else cur.

(** The row filed under [k] once [r] has been indexed. *)
Definition index_value (k : string) (cur : option row) (r : row) : option row :=
  if decide (pmid_of r = k) then Some r else cur.

(** [r] is the last record of [l] with the identifier [p]. *)
Definition last_with (p : string) (l : list row) (r : row) : Prop :=
  ∃ pre post, l = pre ++ r :: post ∧ pmid_of r = p ∧ p ∉ pmid_of <$> post.

(** ** Sample inputs *)

Definition mk_row (title authors pmid journal date : string) : row :=
  article_row {| Title := title; Authors := authors; PMID := pmid;
                 Journal := journal; Date := date |}.

(** A snapshot with an empty identifier and a repeated one. *)
Definition rows_with_duplicates : list row := [
  mk_row "Hernia repair in infants" "Doe J." "123" "J Pediatr Surg" "2020 Jan";
  mk_row "An entry without identifier" "Roe R." "" "" "2020 Feb";
  mk_row "Hernia repair in infants, revisited" "Doe J." "123" "Pediatr Surg Int" "2021 May";
  mk_row "Appendectomy in children" "Poe E." "456" "J Pediatr Surg" "2022 Mar"
].

(** A snapshot row and the same article as a later result page shows
    it, without its citation line. *)
Definition old_row : row :=
  mk_row "Hernia repair in infants" "Doe J." "123" "J Pediatr Surg" "2020 Jan".

Definition other_row : row :=
  mk_row "Appendectomy in children" "Poe E." "456" "J Pediatr Surg" "2022 Mar".

Definition new_row : row :=
  mk_row "Hernia repair in infants" "Doe J, Roe R." "123" "" "".

End Snapshot.

(* ===================================================================== *)
(** * Text helpers *)
(* ===================================================================== *)

(** Strings are sequences of bytes; the helpers below are Python's on
    ASCII text, which is what [normalize_text] leaves of an affiliation
    and what the model replies are split into. *)
Module Text.

(** [str.isspace] on an ASCII character. *)
Definition is_space (c : ascii) : bool :=
  let n := nat_of_ascii c in
  ((9 <=? n) && (n <=? 13) || (28 <=? n) && (n <=? 32))%nat.

Definition is_upper (c : ascii) : bool :=
  let n := nat_of_ascii c in ((65 <=? n) && (n <=? 90))%nat.

Definition is_lower (c : ascii) : bool :=
  let n := nat_of_ascii c in ((97 <=? n) && (n <=? 122))%nat.

Definition is_digit (c : ascii) : bool :=
  let n := nat_of_ascii c in ((48 <=? n) && (n <=? 57))%nat.

Definition lower_char (c : ascii) : ascii :=
  if is_upper c then ascii_of_nat (nat_of_ascii c + 32) else c.

(** [s.lower()] *)
Fixpoint lower (s : string) : string :=
  match s with
  | EmptyString => EmptyString
  | String c s' => String (lower_char c) (lower s')
  end.

Fixpoint lstrip (s : string) : string :=
  match s with
  | EmptyString => EmptyString
  | String c s' => if is_space c then lstrip s' else s
  end.

Fixpoint rstrip (s : string) : string :=
  match s with
  | EmptyString => EmptyString
  | String c s' =>
      match rstrip s' with
      | EmptyString => if is_space c then EmptyString else String c EmptyString
      | r => String c r
      end
  end.

(** [s.strip()] *)
Definition strip (s : string) : string := rstrip (lstrip s).

(** [needle in hay] *)
Fixpoint contains (needle hay : string) : bool :=
  String.prefix needle hay ||
  match hay with
  | EmptyString => false
  | String _ hay' => contains needle hay'
  end.

(** [s.split(sep)] for a one-character separator. *)
Fixpoint split (sep : ascii) (s : string) : list string :=
  match s with
  | EmptyString => [EmptyString]
  | String c s' =>
      match split sep s' with
      | [] => [EmptyString]
      | first :: rest =>
          if Ascii.eqb c sep then EmptyString :: first :: rest
          else String c first :: rest
      end
  end.

Definition newline : ascii := ascii_of_nat 10.

(** [l[-k]] for [1 <= k <= len(l)]. *)
Definition from_end {A} (l : list A) (k : nat) : option A :=
  if (k =? 0)%nat then None else l !! (length l - k)%nat.

(** [l[-k:]] *)
Definition last_n {A} (k : nat) (l : list A) : list A :=
  drop (length l - k)%nat l.

End Text.

(* ===================================================================== *)
(** * The model service and the calls made to it *)
(* ===================================================================== *)

Module Oracle.

(** What [requests.post] gives back.  The body is the decoded JSON
    object as far as the callers read it: its ["response"] member. *)
Inductive json_body : Type :=
  | NotJson
  | Json (response : option string).

Inductive http_reply : Type :=
  | RequestException
  | Response (status_code : Z) (body : json_body).

(** The service: the reply to the request number [k] of the run. *)
Definition network : Type := nat → http_reply.

(** What a run has done to the outside: requests issued and the
    [time.sleep] calls made, in seconds, oldest first. *)
Record world : Type := mkWorld {
  requests : nat;
  slept : list Z
}.

Definition world0 : world := {| requests := 0; slept := [] |}.

Definition post (net : network) (w : world) : http_reply * world :=
  (net (requests w), {| requests := S (requests w); slept := slept w |}).

Definition sleep (seconds : Z) (w : world) : world :=
  {| requests := requests w; slept := slept w ++ [seconds] |}.

(** ** [are_authors_same] *)

Definition verdict_same : string := "判断结果：是".
Definition verdict_different : string := "判断结果：否".

(** The second component of the answer: the text kept for the audit. *)
Inductive rationale : Type :=
  | EmptyAffiliation
  | Thoughts (full_response : string)
  | BadStatus (status_code : Z)
  | CallError.

Definition are_authors_same (net : network)
    (affiliation1 affiliation2 : string) (w : world)
    : (bool * rationale) * world :=
  if negb (truthy affiliation1) || negb (truthy affiliation2) then
    ((false, EmptyAffiliation), w)
  else
    let '(reply, w) := post net w in
    match reply with
    | RequestException => ((false, CallError), w)
    | Response status_code body =>
        if status_code =? 200 then
          match body with
          | NotJson => ((false, CallError), w)
          | Json None => ((false, CallError), w)
          | Json (Some response) =>
              let full_response := Text.strip response in
              if Text.contains verdict_same full_response then
                ((true, Thoughts full_response), w)
              else if Text.contains verdict_different full_response then
                ((false, Thoughts full_response), w)
              else ((false, Thoughts full_response), w)
          end
        else ((false, BadStatus status_code), w)
    end.

(** ** [extract_affiliation_info] *)

Definition unknown : string := "未知".
Definition fence : string := "```".

(** The stripped, non-empty lines of the output that hold no fence. *)
Definition output_lines (output : string) : list string :=
  filter (λ stripped_line,
            truthy stripped_line = true ∧ Text.contains fence stripped_line = false)
         (Text.strip <$> Text.split Text.newline output).

Definition parse_affiliation (output : string) : string * string * string :=
  let lines := output_lines output in
  let line_count := length lines in
  let organization :=
    if (3 <=? line_count)%nat
    then Text.strip (default "" (Text.from_end lines 3)) else unknown in
  let city :=
    if (2 <=? line_count)%nat
    then Text.strip (default "" (Text.from_end lines 2)) else unknown in
  let country :=
    if (1 <=? line_count)%nat
    then Text.strip (default "" (Text.from_end lines 1)) else unknown in
  (organization, city, country).

(** The [while retry_count < max_retries] loop, by the number of
    attempts that are left. *)
Fixpoint affiliation_attempts (net : network) (remaining : nat) (w : world)
    : (string * string * string) * world :=
  match remaining with
  | O => ((unknown, unknown, unknown), w)
  | S remaining' =>
      let '(reply, w) := post net w in
      match reply with
      | Response status_code body =>
          if status_code =? 200 then
            match body with
            | NotJson => affiliation_attempts net remaining' (sleep 2 w)
            | Json response =>
                (parse_affiliation (Text.strip (default "" response)), w)
            end
          else affiliation_attempts net remaining' (sleep 2 w)
      | RequestException => affiliation_attempts net remaining' (sleep 2 w)
      end
  end.

Definition extract_affiliation_info (net : network) (max_retries : nat)
    (w : world) : (string * string * string) * world :=
  affiliation_attempts net max_retries w.

(** ** [extract_keywords] *)

Definition no_keywords : list string := [""; ""; ""; ""; ""].

(** [keywords] padded with empty strings up to five entries. *)
Definition pad5 (keywords : list string) : list string :=
  keywords ++ replicate (5 - length keywords)%nat "".

Definition parse_keywords (output : string) : list string :=
  let lines := output_lines output in
  let keywords :=
    match Text.from_end lines 1 with
    | Some last =>
        if String.eqb last fence
        then Text.last_n 5 (take (length lines - 1)%nat lines)
        else Text.last_n 5 lines
    | None => Text.last_n 5 lines
    end in
  take 5 (pad5 keywords).

Definition extract_keywords (net : network) (w : world)
    : list string * world :=
  let '(reply, w) := post net w in
  match reply with
  | Response status_code body =>
      if status_code =? 200 then
        match body with
        | Json (Some response) => (parse_keywords (Text.strip response), w)
        | _ => (no_keywords, w)
        end
      else (no_keywords, w)
  | RequestException => (no_keywords, w)
  end.

(** ** Failed calls, as the specification lists them *)

(** A judgment call fails: an exception, a bad status, or a body that
    does not hold one of the two verdict markers. *)
Definition judgment_failed (reply : http_reply) : bool :=
  match reply with
  | RequestException => true
  | Response status_code body =>
      negb (status_code =? 200) ||
      match body with
      | Json (Some response) =>
          negb (Text.contains verdict_same (Text.strip response))
          && negb (Text.contains verdict_different (Text.strip response))
      | _ => true
      end
  end.

(** An affiliation call fails: an exception, a bad status, or a body
    that is not JSON. *)
Definition affiliation_failed (reply : http_reply) : bool :=
  match reply with
  | RequestException => true
  | Response status_code body =>
      negb (status_code =? 200) ||
      match body with
      | NotJson => true
      | Json _ => false
      end
  end.

(** A keyword call fails: an exception, a bad status, or a body that is
    not a JSON object with a ["response"] member. *)
Definition keywords_failed (reply : http_reply) : bool :=
  match reply with
  | RequestException => true
  | Response status_code body =>
      negb (status_code =? 200) ||
      match body with
      | Json (Some _) => false
      | _ => true
      end
  end.

(** ** Sample services *)

(** A service that answers the first request with a server error and
    every later one with the verdict "same". *)
Definition flaky_service : network := λ k,
  match k with
  | O => Response 500 NotJson
  | S _ => Response 200 (Json (Some "Same hospital. 判断结果：是"))
  end.

(** A service that cannot be reached. *)
Definition dead_service : network := λ _, RequestException.

End Oracle.

(* ===================================================================== *)
(** * Author identity resolver *)
(* ===================================================================== *)

Module Resolver.
Import Oracle.

(** [l[i]] and [l[i] = v] on a Python list: out of range raises. *)
Definition getidx (l : list nat) (i : nat) : result nat :=
  match l !! i with
  | Some v => Ok v
  | None => Raise IndexError
  end.

Definition setidx (l : list nat) (i v : nat) : result (list nat) :=
  if decide (i < length l)%nat then Ok (<[i := v]> l) else Raise IndexError.

Record UnionFind : Type := mkUnionFind {
  parent : list nat;
  rank : list nat
}.

(** [UnionFind(n)] *)
Definition init (n : nat) : UnionFind :=
  {| parent := seq 0 n; rank := replicate n 0%nat |}.

(** [uf.find(x)], with path compression.  [fuel] bounds the depth of
    the recursion. *)
Fixpoint find (fuel : nat) (uf : UnionFind) (x : nat) : result (nat * UnionFind) :=
  match fuel with
  | O => OutOfFuel
  | S fuel' =>
      px ← getidx (parent uf) x;
      if decide (px ≠ x) then
        '(root, uf) ← find fuel' uf px;
        p ← setidx (parent uf) x root;
        let uf := {| parent := p; rank := rank uf |} in
        r ← getidx (parent uf) x;
        Ok (r, uf)
      else
        r ← getidx (parent uf) x;
        Ok (r, uf)
  end.

(** [uf.union(x, y)], by rank. *)
Definition union (fuel : nat) (uf : UnionFind) (x y : nat) : result UnionFind :=
  '(root_x, uf) ← find fuel uf x;
  '(root_y, uf) ← find fuel uf y;
  if decide (root_x = root_y) then Ok uf
  else
    rank_x ← getidx (rank uf) root_x;
    rank_y ← getidx (rank uf) root_y;
    if (rank_x <? rank_y)%nat then
      p ← setidx (parent uf) root_x root_y;
      Ok {| parent := p; rank := rank uf |}
    else if (rank_y <? rank_x)%nat then
      p ← setidx (parent uf) root_y root_x;
      Ok {| parent := p; rank := rank uf |}
    else
      p ← setidx (parent uf) root_y root_x;
      rank_x' ← getidx (rank uf) root_x;
      r ← setidx (rank uf) root_x (rank_x' + 1)%nat;
      Ok {| parent := p; rank := r |}.

(** The pairs [(i, j)] with [i < j < n], in the order of the nested
    loops [for i in range(n): for j in range(i + 1, n)]. *)
Definition pairs (n : nat) : list (nat * nat) :=
  i ← seq 0 n; (λ j, (i, j)) <$> seq (S i) (n - S i).

(** [author_df.iloc[i]["Affiliation"]] *)
Definition iloc (affiliations : list string) (i : nat) : result string :=
  match affiliations !! i with
  | Some a => Ok a
  | None => Raise IndexError
  end.

Record pass_state : Type := mkPass {
  uf : UnionFind;
  checked_pairs : gset (nat * nat);
  outside : world
}.

Section Group.
Variable net : network.
Variable fuel : nat.
Variable affiliations : list string.

(** Pass 1: the body of the loops that merge identical affiliations. *)
Definition exact_step (st : pass_state) (ij : nat * nat) : result pass_state :=
  let '(i, j) := ij in
  aff_i ← iloc affiliations i;
  aff_j ← iloc affiliations j;
  if truthy aff_i && truthy aff_j
     && String.eqb (Text.lower aff_i) (Text.lower aff_j) then
    u ← union fuel (uf st) i j;
    Ok {| uf := u;
          checked_pairs := {[ (i, j) ]} ∪ checked_pairs st;
          outside := outside st |}
  else Ok st.

(** Pass 2: the body of the loops that ask the model. *)
Definition judge_step (st : pass_state) (ij : nat * nat) : result pass_state :=
  let '(i, j) := ij in
  if bool_decide ((i, j) ∈ checked_pairs st) then Ok st
  else
    '(root_i, u) ← find fuel (uf st) i;
    '(root_j, u) ← find fuel u j;
    if decide (root_i = root_j) then
      Ok {| uf := u; checked_pairs := checked_pairs st; outside := outside st |}
    else
      aff_i ← iloc affiliations i;
      aff_j ← iloc affiliations j;
      let '((is_same, _), w) := are_authors_same net aff_i aff_j (outside st) in
      u ← (if is_same then union fuel u i j else Ok u);
      Ok {| uf := u; checked_pairs := checked_pairs st; outside := sleep 1 w |}.

Fixpoint run_pass (step : pass_state → nat * nat → result pass_state)
    (todo : list (nat * nat)) (st : pass_state) : result pass_state :=
  match todo with
  | [] => Ok st
  | ij :: rest => st ← step st ij; run_pass step rest st
  end.

(** Step 3, first loop: number the roots as they are met. *)
Record numbering : Type := mkNumbering {
  num_uf : UnionFind;
  group_ids : gmap nat nat;
  next_id : nat
}.

Definition number_step (st : numbering) (i : nat) : result numbering :=
  '(root, u) ← find fuel (num_uf st) i;
  match group_ids st !! root with
  | None =>
      _ ← iloc affiliations i;
      Ok {| num_uf := u;
            group_ids := <[root := next_id st]> (group_ids st);
            next_id := (next_id st + 1)%nat |}
  | Some _ =>
      Ok {| num_uf := u; group_ids := group_ids st; next_id := next_id st |}
  end.

Fixpoint number_groups (todo : list nat) (st : numbering) : result numbering :=
  match todo with
  | [] => Ok st
  | i :: rest => st ← number_step st i; number_groups rest st
  end.

(** Step 3, second loop: [author_ids.append(group_ids[uf.find(i)])]. *)
Fixpoint collect_ids (ids : gmap nat nat) (todo : list nat) (u : UnionFind)
    (author_ids : list nat) : result (list nat * UnionFind) :=
  match todo with
  | [] => Ok (author_ids, u)
  | i :: rest =>
      '(root, u) ← find fuel u i;
      match ids !! root with
      | None => Raise (KeyError "group_ids")
      | Some id => collect_ids ids rest u (author_ids ++ [id])
      end
  end.

(** Steps 1 and 2: the clustering. *)
Definition cluster (w : world) : result pass_state :=
  let n := length affiliations in
  let st := {| uf := init n; checked_pairs := ∅; outside := w |} in
  st ← run_pass exact_step (pairs n) st;
  run_pass judge_step (pairs n) st.

(** Step 3: the [AuthorID] of every entry. *)
Definition assign_ids (u : UnionFind) : result (list nat) :=
  let n := length affiliations in
  let num := {| num_uf := u; group_ids := ∅; next_id := 0 |} in
  num ← number_groups (seq 0 n) num;
  '(author_ids, _) ← collect_ids (group_ids num) (seq 0 n) (num_uf num) [];
  Ok author_ids.

(** The [AuthorID] column of the returned frame, and what was done to
    the outside. *)
Definition process_author_group (w : world) : result (list nat * world) :=
  let n := length affiliations in
  if (n =? 1)%nat then Ok ([0%nat], w)
  else
    st ← cluster w;
    author_ids ← assign_ids (uf st);
    Ok (author_ids, outside st).
End Group.

(** ** Identities in first-seen order *)

(** [first_seen next ids next']: scanning [ids] with [next] identities
    given out so far, every entry is an identity given out earlier or the
    next unused integer, and [next'] identities are out at the end. *)
Inductive first_seen : nat → list nat → nat → Prop :=
  | first_seen_nil next : first_seen next [] next
  | first_seen_old next id ids next' :
      (id < next)%nat → first_seen next ids next' →
      first_seen next (id :: ids) next'
  | first_seen_new next ids next' :
      first_seen (S next) ids next' →
      first_seen next (next :: ids) next'.

(** The same, as a check that runs. *)
Fixpoint first_seen_check (next : nat) (ids : list nat) : option nat :=
  match ids with
  | [] => Some next
  | id :: rest =>
      if (id <? next)%nat then first_seen_check next rest
      else if (id =? next)%nat then first_seen_check (S next) rest
      else None
  end.

(** Following [parent] pointers from [x] ends in the root [r]. *)
Inductive reaches (p : list nat) : nat → nat → Prop :=
  | reaches_root x : p !! x = Some x → reaches p x x
  | reaches_step x px r :
      p !! x = Some px → px ≠ x → reaches p px r → reaches p x r.

(** ** The invariant of the union-find structure *)

(** [rank[x]] *)
Definition rk (u : UnionFind) (x : nat) : nat := default 0%nat (rank u !! x).

(** The number of entries of [p], read as the parents of the nodes
    [k], [k + 1], ..., that are not their own parent. *)
Fixpoint nonroots_from (k : nat) (p : list nat) : nat :=
  match p with
  | [] => 0
  | px :: p' => ((if decide (px = k) then 0 else 1) + nonroots_from (S k) p')%nat
  end.

Definition nonroots (p : list nat) : nat := nonroots_from 0 p.

(** Parents are nodes, ranks grow strictly towards the root, and no
    rank exceeds the number of nodes that have been linked under
    another. *)
Record wf (u : UnionFind) : Prop := mkWf {
  wf_length : length (rank u) = length (parent u);
  wf_range : ∀ x px, parent u !! x = Some px → (px < length (parent u))%nat;
  wf_rank : ∀ x px, parent u !! x = Some px → px ≠ x → (rk u x < rk u px)%nat;
  wf_bound : ∀ x, (rk u x ≤ nonroots (parent u))%nat
}.

(** Two parent arrays give every node the same root. *)
Definition same_roots (p p' : list nat) : Prop :=
  ∀ x r, reaches p' x r ↔ reaches p x r.

(** Entry [i] has the identity [id]: its root, in [p], is numbered [id]
    in [ids]. *)
Definition assigned (p : list nat) (ids : gmap nat nat) (i id : nat) : Prop :=
  ∃ r, reaches p i r ∧ ids !! r = Some id.

(** The invariant of the two passes over the pairs of [n] entries. *)
Definition pass_ok (n : nat) (st : pass_state) : Prop :=
  wf (uf st) ∧ length (parent (uf st)) = n.

(** The invariant of the numbering loop: [done] are the entries
    numbered so far, [ids] their identities, [p0] the parent array the
    loop started from. *)
Definition num_ok (p0 : list nat) (st : numbering) (done ids : list nat) : Prop :=
  wf (num_uf st) ∧
  length (parent (num_uf st)) = length p0 ∧
  same_roots p0 (parent (num_uf st)) ∧
  (∀ r a, group_ids st !! r = Some a → (a < next_id st)%nat) ∧
  (∀ r r' a, group_ids st !! r = Some a → group_ids st !! r' = Some a → r = r') ∧
  Forall2 (assigned p0 (group_ids st)) done ids ∧
  first_seen 0 ids (next_id st).

(** ** Sample input *)

(** The entries of the specification's example: two entries of one
    hospital and one of another, which the model tells apart. *)
Definition smith_affiliations : list string :=
  ["Hosp X"; "Hosp X"; "Hosp Y"].

Definition says_different : network := λ _,
  Response 200 (Json (Some "Different hospitals. 判断结果：否")).

End Resolver.

(* ===================================================================== *)
(** * Keyword reconciliation *)
(* ===================================================================== *)

Module Keywords.

Definition EXCLUDE_KEYWORDS : list string := [
  "Pediatric Patients";
  "Child";
  "Male";
  "Female";
  "Humans";
  "Childs";
  "postoperative complications";
  "Retrospective Studies";
  "Treatment Outcome";
  "Child, Preschool";
  "Infant, Newborn";
  "Prospective Studies";
  "Follow-Up Studies";
  "Specialties, Surgical";
  "Surveys and Questionnaires";
  "Surgical Procedures, Operative";
  "Adolescent";
  "Infant";
  "Length of stay";
  "Risk Factors";
  "United States";
  "Quality of Life"
].

(** [0.6].  A ratio [2.0 * matches / length] is a quotient of two small
    integers, and its rounding to a double is on the same side of the
    double [0.6] as the quotient is of 3/5, so the comparison is made on
    rationals. *)
Definition SIMILARITY_THRESHOLD : Q := (6 # 10)%Q.
Definition MAX_KEYWORDS : nat := 5.

(** The characters [re.sub(r'[^\w\s]', '', kw)] keeps. *)
Definition is_word_or_space (c : ascii) : bool :=
  Text.is_upper c || Text.is_lower c || Text.is_digit c
  || Ascii.eqb c "_"%char || Text.is_space c.

Fixpoint remove_punctuation (s : string) : string :=
  match s with
  | EmptyString => EmptyString
  | String c s' =>
      if is_word_or_space c then String c (remove_punctuation s')
      else remove_punctuation s'
  end.

Definition clean_keyword (kw : string) : string :=
  Text.strip (Text.lower (remove_punctuation kw)).

(** ** [difflib.SequenceMatcher(None, a, b).ratio()]

    No element is junk ([isjunk] is [None]) and [b] is shorter than the
    200 characters from which the popularity heuristic applies. *)
Section SequenceMatcher.
Variables a b : list ascii.

(** [b2j[a[i]]] between [blo] and [bhi]: the places of [a[i]] in [b],
    ascending. *)
Definition places (i blo bhi : nat) : list nat :=
  filter (λ j, b !! j = a !! i ∧ is_Some (a !! i)) (seq blo (bhi - blo)).

(** [j2len.get(j - 1, 0)] *)
Definition j2len_get (j2len : gmap nat nat) (j : nat) : nat :=
  match j with
  | O => 0
  | S j' => default 0%nat (j2len !! j')
  end.

Definition longest_inner (j2len : gmap nat nat) (i : nat)
    (acc : gmap nat nat * (nat * nat * nat)) (j : nat)
    : gmap nat nat * (nat * nat * nat) :=
  let '(newj2len, (besti, bestj, bestsize)) := acc in
  let k := (j2len_get j2len j + 1)%nat in
  (<[j := k]> newj2len,
   if (bestsize <? k)%nat then ((i + 1 - k)%nat, (j + 1 - k)%nat, k)
   else (besti, bestj, bestsize)).

Definition longest_outer (blo bhi : nat)
    (acc : gmap nat nat * (nat * nat * nat)) (i : nat)
    : gmap nat nat * (nat * nat * nat) :=
  let '(j2len, best) := acc in
  foldl (longest_inner j2len i) (∅, best) (places i blo bhi).

(** The two loops that grow the block over equal neighbours. *)
Fixpoint extend_left (steps alo blo besti bestj bestsize : nat)
    : nat * nat * nat :=
  match steps with
  | O => (besti, bestj, bestsize)
  | S steps' =>
      if (alo <? besti)%nat && (blo <? bestj)%nat
         && bool_decide (a !! (besti - 1)%nat = b !! (bestj - 1)%nat) then
        extend_left steps' alo blo (besti - 1)%nat (bestj - 1)%nat (bestsize + 1)%nat
      else (besti, bestj, bestsize)
  end.

Fixpoint extend_right (steps ahi bhi besti bestj bestsize : nat)
    : nat * nat * nat :=
  match steps with
  | O => (besti, bestj, bestsize)
  | S steps' =>
      if (besti + bestsize <? ahi)%nat && (bestj + bestsize <? bhi)%nat
         && bool_decide (a !! (besti + bestsize)%nat = b !! (bestj + bestsize)%nat) then
        extend_right steps' ahi bhi besti bestj (bestsize + 1)%nat
      else (besti, bestj, bestsize)
  end.

Definition find_longest_match (alo ahi blo bhi : nat) : nat * nat * nat :=
  let '(_, (besti, bestj, bestsize)) :=
    foldl (longest_outer blo bhi) (∅, (alo, blo, 0%nat)) (seq alo (ahi - alo)) in
  let '(besti, bestj, bestsize) :=
    extend_left besti alo blo besti bestj bestsize in
  extend_right (ahi - besti) ahi bhi besti bestj bestsize.

(** The queue loop of [get_matching_blocks]; the queue is popped at
    its end. *)
Fixpoint matching_loop (fuel : nat) (queue : list (nat * nat * nat * nat))
    (matching_blocks : list (nat * nat * nat)) : result (list (nat * nat * nat)) :=
  match fuel with
  | O => OutOfFuel
  | S fuel' =>
      match reverse queue with
      | [] => Ok matching_blocks
      | (alo, ahi, blo, bhi) :: rest =>
          let queue := reverse rest in
          let '(i, j, k) := find_longest_match alo ahi blo bhi in
          if (k =? 0)%nat then matching_loop fuel' queue matching_blocks
          else
            let matching_blocks := matching_blocks ++ [(i, j, k)] in
            let queue :=
              if (alo <? i)%nat && (blo <? j)%nat
              then queue ++ [(alo, i, blo, j)] else queue in
            let queue :=
              if (i + k <? ahi)%nat && (j + k <? bhi)%nat
              then queue ++ [((i + k)%nat, ahi, (j + k)%nat, bhi)] else queue in
            matching_loop fuel' queue matching_blocks
      end
  end.

(** The blocks before they are sorted and joined, which does not
    change the sum of their sizes. *)
Definition get_matching_blocks : result (list (nat * nat * nat)) :=
  matching_loop (2 * length a + 2) [(0%nat, length a, 0%nat, length b)] [].

Definition calculate_ratio (matches length : nat) : Q :=
  if (length =? 0)%nat then 1%Q
  else (2 * Z.of_nat matches # Pos.of_nat length)%Q.

Definition ratio : result Q :=
  blocks ← get_matching_blocks;
  let matches := sum_list ((λ triple, triple.2) <$> blocks) in
  Ok (calculate_ratio matches (length a + length b)).
End SequenceMatcher.

Definition similarity (s t : string) : result Q :=
  ratio (list_ascii_of_string s) (list_ascii_of_string t).

Fixpoint is_similar_to_excluded (clean_term : string) (exclude_list : list string)
    : result bool :=
  match exclude_list with
  | [] => Ok false
  | excl :: rest =>
      let clean_excl := clean_keyword excl in
      sim ← similarity clean_term clean_excl;
      if Qle_bool SIMILARITY_THRESHOLD sim then Ok true
      else is_similar_to_excluded clean_term rest
  end.

(** [clean in [clean_keyword(excl) ...] or is_similar_to_excluded(clean, ...)] *)
Definition excluded (clean : string) : result bool :=
  if bool_decide (clean ∈ clean_keyword <$> EXCLUDE_KEYWORDS) then Ok true
  else is_similar_to_excluded clean EXCLUDE_KEYWORDS.

(** [[term for term in terms if clean(term) not excluded]] *)
Fixpoint valid_terms (terms : list string) : result (list string) :=
  match terms with
  | [] => Ok []
  | term :: rest =>
      ex ← excluded (clean_keyword term);
      valid ← valid_terms rest;
      Ok (if (ex : bool) then valid else term :: valid)
  end.

(** [l.sort(key=len, reverse=True)]: stable. *)
Fixpoint insert_by_length (x : string) (l : list string) : list string :=
  match l with
  | [] => [x]
  | y :: l' =>
      if (String.length x <? String.length y)%nat
      then y :: insert_by_length x l' else x :: l
  end.

Definition sort_by_length_desc (l : list string) : list string :=
  foldr insert_by_length [] l.

(** The loop over the MeSH terms for one keyword: the first MeSH term
    that is not excluded and similar enough, if there is one. *)
Fixpoint first_match (clean_kw : string) (mesh_terms : list string)
    : result (option string) :=
  match mesh_terms with
  | [] => Ok None
  | mesh :: rest =>
      let clean_mesh_term := clean_keyword mesh in
      ex ← excluded clean_mesh_term;
      if (ex : bool) then first_match clean_kw rest
      else
        sim ← similarity clean_kw clean_mesh_term;
        if Qle_bool SIMILARITY_THRESHOLD sim then Ok (Some clean_mesh_term)
        else first_match clean_kw rest
  end.

(** The loop over the keywords, with [matched_keywords] and
    [matched_clean]. *)
Fixpoint match_keywords (keywords mesh_terms : list string)
    (matched_keywords : list string) (matched_clean : gset string)
    : result (list string * gset string) :=
  match keywords with
  | [] => Ok (matched_keywords, matched_clean)
  | kw :: rest =>
      let clean_kw := clean_keyword kw in
      ex ← excluded clean_kw;
      if (ex : bool) then match_keywords rest mesh_terms matched_keywords matched_clean
      else
        found ← first_match clean_kw mesh_terms;
        match found with
        | Some clean_mesh_term =>
            match_keywords rest mesh_terms (matched_keywords ++ [kw])
              ({[clean_mesh_term]} ∪ matched_clean)
        | None =>
            match_keywords rest mesh_terms matched_keywords matched_clean
        end
  end.

(** A cell of the frame after [ast.literal_eval]: [None] when the cell
    is empty or does not parse, which both give [[]]. *)
Definition parse_cell (cell : option (list string)) : list string :=
  default [] cell.

Definition process_paper (Keywords_cell MeSH_API_cell : option (list string))
    : result (list string) :=
  let keywords := parse_cell Keywords_cell in
  let mesh_terms := parse_cell MeSH_API_cell in
  match keywords, mesh_terms with
  | [], [] => Ok []
  | [], _ :: _ =>
      valid_mesh ← valid_terms mesh_terms;
      Ok (take MAX_KEYWORDS (sort_by_length_desc valid_mesh))
  | _ :: _, [] =>
      valid_keywords ← valid_terms keywords;
      Ok (take MAX_KEYWORDS valid_keywords)
  | _ :: _, _ :: _ =>
      '(matched_keywords, _) ← match_keywords keywords mesh_terms [] ∅;
      Ok (take MAX_KEYWORDS matched_keywords)
  end.

(** ** The reconciliation as the specification words it

    A vocabulary term that has matched a keyword is consumed: the scan
    for a later keyword passes over it. *)
Fixpoint first_match_unconsumed (clean_kw : string) (mesh_terms : list string)
    (consumed : gset string) : result (option string) :=
  match mesh_terms with
  | [] => Ok None
  | mesh :: rest =>
      let clean_mesh_term := clean_keyword mesh in
      ex ← excluded clean_mesh_term;
      if (ex : bool) || bool_decide (clean_mesh_term ∈ consumed)
      then first_match_unconsumed clean_kw rest consumed
      else
        sim ← similarity clean_kw clean_mesh_term;
        if Qle_bool SIMILARITY_THRESHOLD sim then Ok (Some clean_mesh_term)
        else first_match_unconsumed clean_kw rest consumed
  end.

Fixpoint match_keywords_consuming (keywords mesh_terms : list string)
    (matched_keywords : list string) (consumed : gset string)
    : result (list string) :=
  match keywords with
  | [] => Ok matched_keywords
  | kw :: rest =>
      let clean_kw := clean_keyword kw in
      ex ← excluded clean_kw;
      if (ex : bool) then match_keywords_consuming rest mesh_terms matched_keywords consumed
      else
        found ← first_match_unconsumed clean_kw mesh_terms consumed;
        match found with
        | Some clean_mesh_term =>
            match_keywords_consuming rest mesh_terms (matched_keywords ++ [kw])
              ({[clean_mesh_term]} ∪ consumed)
        | None =>
            match_keywords_consuming rest mesh_terms matched_keywords consumed
        end
  end.

Definition reconcile_both_spec (keywords mesh_terms : list string)
    : result (list string) :=
  matched ← match_keywords_consuming keywords mesh_terms [] ∅;
  Ok (take MAX_KEYWORDS matched).

End Keywords.

(* ===================================================================== *)
(** * The store step of the crawler's [main] *)
(* ===================================================================== *)

Module Store.
Import Snapshot.

(** [load_existing_data]: the file is [None] when it does not exist. *)
Definition load_step (acc : gset string * list row) (r : row)
    : gset string * list row :=
  let '(existing_pmids, existing_articles) := acc in
  match r !! "PMID" with
  | Some pmid =>
      if truthy pmid
      then ({[pmid]} ∪ existing_pmids, existing_articles ++ [r])
      else acc
  | None => acc
  end.

(** A row with a non-empty identifier. *)
Definition identified (r : row) : Prop := truthy (pmid_of r) = true.

#[global] Instance identified_dec (r : row) : Decision (identified r).
Proof. unfold identified. apply _. Defined.

Definition load_existing_data (file : option (list row))
    : gset string * list row :=
  match file with
  | None => (∅, [])
  | Some rows => foldl load_step (∅, []) rows
  end.

Definition base_fields : list string :=
  ["Title"; "Authors"; "PMID"; "Journal"; "Date"].

(** The columns of the written file: the base fields and every key of
    every article. *)
Definition fieldnames (all_articles : list row) : gset string :=
  list_to_set base_fields ∪ ⋃ (dom <$> all_articles).

(** [writer.writerows(all_articles)] and the rows a reader gets back: a
    column an article lacks is written empty. *)
Definition written_rows (all_articles : list row) : list row :=
  (λ article, article ∪ gset_to_gmap "" (fieldnames all_articles))
    <$> all_articles.

(** Lines 500-536 of [main], from the loaded snapshot and the articles
    the crawl returned to the rows of the new snapshot file; [None]
    when there is nothing to save. *)
Definition main_store (latest_file : option (list row))
    (new_articles : list Article) : result (option (list row)) :=
  let '(existing_pmids, existing_articles) := load_existing_data latest_file in
  all_articles ← main_merge existing_articles (article_row <$> new_articles);
  match all_articles with
  | [] => Ok None
  | _ :: _ =>
      '(rows, _) ← remove_duplicate_pmids (written_rows all_articles);
      Ok (Some rows)
  end.

End Store.

(* ===================================================================== *)
(** * Fetching from the search site *)
(* ===================================================================== *)

Module Fetch.

(** What one [requests.get] of the crawler comes to: the request or
    [raise_for_status] raised, the text holds ["CAPTCHA"], or a page was
    received and parsed; [content] is what the caller reads in it. *)
Inductive reply (A : Type) : Type :=
  | HttpError
  | Captcha
  | Html (content : A).
Arguments HttpError {A}.
Arguments Captcha {A}.
Arguments Html {A} content.

(** The requests made so far and the pauses taken between attempts;
    their lengths are drawn at random and are not recorded. *)
Record world : Type := mkWorld {
  fetched : nat;
  pauses : nat
}.

Definition fetch {A} (web : nat → reply A) (w : world) : reply A * world :=
  (web (fetched w), {| fetched := S (fetched w); pauses := pauses w |}).

Definition pause (w : world) : world :=
  {| fetched := fetched w; pauses := S (pauses w) |}.

(** [s.replace(',', '')] *)
Fixpoint remove_commas (s : string) : string :=
  match s with
  | EmptyString => EmptyString
  | String c s' =>
      if Ascii.eqb c ","%char then remove_commas s' else String c (remove_commas s')
  end.

Fixpoint all_digits (s : string) : bool :=
  match s with
  | EmptyString => true
  | String c s' => Text.is_digit c && all_digits s'
  end.

(** [s.isdigit()] *)
Definition isdigit (s : string) : bool := truthy s && all_digits s.

Fixpoint int_from (acc : Z) (s : string) : Z :=
  match s with
  | EmptyString => acc
  | String c s' => int_from (10 * acc + (Z.of_nat (nat_of_ascii c) - 48)) s'
  end.

(** [int(s)] for a string of digits. *)
Definition int (s : string) : Z := int_from 0 s.

(** ** [get_total_results]

    The content of the page is the text of the result-count element,
    [None] when neither of the two elements is found. *)
Definition total_of_reply (r : reply (option string)) : result Z :=
  match r with
  | Html (Some text) =>
      let total_text := remove_commas (Text.strip text) in
      if isdigit total_text then Ok (int total_text) else Raise RuntimeError
  | _ => Raise RuntimeError
  end.

(** The loop [for attempt in range(max_retries)], and the [raise] after
    it. *)
Fixpoint total_attempts (web : nat → reply (option string))
    (max_retries attempt remaining : nat) (w : world) : result Z * world :=
  match remaining with
  | O => (Raise RuntimeError, w)
  | S remaining' =>
      let '(r, w) := fetch web w in
      match total_of_reply r with
      | Ok total => (Ok total, w)
      | _ =>
          let w := if (attempt <? max_retries - 1)%nat then pause w else w in
          total_attempts web max_retries (S attempt) remaining' w
      end
  end.

Definition get_total_results (web : nat → reply (option string)) (w : world)
    : result Z * world :=
  total_attempts web 3 0 3 w.

(** ** [parse_page]

    The content of the page is the list of its entries; an entry whose
    parsing raised is [None]. *)
Definition articles_of_reply (r : reply (list (option Article)))
    : option (list Article) :=
  match r with
  | Html entries => Some (omap id entries)
  | _ => None
  end.

Fixpoint page_attempts (web : nat → reply (list (option Article)))
    (max_retries attempt remaining : nat) (w : world) : list Article * world :=
  match remaining with
  | O => ([], w)
  | S remaining' =>
      let '(r, w) := fetch web w in
      match articles_of_reply r with
      | Some articles => (articles, w)
      | None =>
          let w := if (attempt <? max_retries - 1)%nat then pause w else w in
          page_attempts web max_retries (S attempt) remaining' w
      end
  end.

Definition parse_page (web : nat → reply (list (option Article))) (w : world)
    : list Article * world :=
  page_attempts web 2 0 2 w.

(** ** Sample sites *)

(** A site that fails twice and then reports 10,001 hits. *)
Definition slow_site : nat → reply (option string) := λ k,
  match k with
  | 0%nat => HttpError
  | 1%nat => Captcha
  | _ => Html (Some " 10,001 ")
  end.

End Fetch.

(* ===================================================================== *)
(** * Predicates on text *)
(* ===================================================================== *)

Module Chars.

(** Every character of [s] passes the test [P]. *)
Fixpoint all_chars (P : ascii → bool) (s : string) : bool :=
  match s with
  | EmptyString => true
  | String c s' => P c && all_chars P s'
  end.

End Chars.

(* ===================================================================== *)
(** * Enrichment of the author records *)
(* ===================================================================== *)

(** The selection of the records that still need the model, from [main]
    of the enrichment script.  A cell of the frame is a string or is
    missing ([NaN], here [None]). *)
Module Enrichment.
Import Oracle.


(** A kept line is non-empty, holds no fence and is stripped. *)
Definition clean_line (line : string) : Prop :=
  line ≠ "" ∧ Text.contains fence line = false ∧ Text.strip line = line.

End Enrichment.

(* ===================================================================== *)
(** * Keyword extraction with resume *)
(* ===================================================================== *)

(** [process_pubmed_data], from the frame it has loaded on.  A frame is
    the list of its rows; a cell is a string or is missing ([NaN], here
    [None]).  The result is the frame the function has saved when it
    returns, [None] when it returns without saving. *)
Module Extractor.
Import Oracle.

Abbreviation cell := (option string).
Abbreviation frame_row := (gmap string cell).

(** [row[key]] *)
Definition column (row : frame_row) (key : string) : result cell :=
  match row !! key with
  | Some v => Ok v
  | None => Raise (KeyError key)
  end.

Definition is_abstract_valid (abstract : cell) : bool :=
  match abstract with
  | None => false
  | Some abstract => negb (String.eqb (Text.strip abstract) "")
  end.

Definition is_keywords_empty (keywords : cell) : bool :=
  match keywords with
  | None => true
  | Some keywords =>
      String.eqb (Text.strip keywords) ""
      || String.eqb (Text.strip keywords) "[]"
  end.

(** The record has an abstract and no keywords: it is one that the
    second loop sends to the model. *)
Definition pending (row : frame_row) : bool :=
  match row !! "Abstract", row !! "Keywords" with
  | Some abstract, Some keywords =>
      is_abstract_valid abstract && is_keywords_empty keywords
  | _, _ => false
  end.

(** Every row holds the two columns that the loops read. *)
Definition has_columns (df : list frame_row) : Prop :=
  Forall (λ row, is_Some (row !! "Abstract") ∧ is_Some (row !! "Keywords")) df.

(** [if 'Keywords' not in df.columns: df['Keywords'] = ""]: the columns
    of a frame are those of its rows. *)
Definition has_column (df : list frame_row) (key : string) : bool :=
  bool_decide (Exists (λ row, is_Some (row !! key)) df).

Definition with_keywords_column (df : list frame_row) : list frame_row :=
  if has_column df "Keywords" then df
  else (λ row, <["Keywords" := Some ""]> row) <$> df.

(** The counters [processed], [no_abstract] and [to_process] of the
    first loop. *)
Fixpoint count_status (df : list frame_row) (processed no_abstract to_process : nat)
    : result (nat * nat * nat) :=
  match df with
  | [] => Ok (processed, no_abstract, to_process)
  | row :: rest =>
      abstract ← column row "Abstract";
      keywords ← column row "Keywords";
      let has_abstract := is_abstract_valid abstract in
      let has_keywords := negb (is_keywords_empty keywords) in
      if has_abstract && has_keywords then
        count_status rest (processed + 1)%nat no_abstract to_process
      else if negb has_abstract then
        count_status rest processed (no_abstract + 1)%nat to_process
      else
        count_status rest processed no_abstract (to_process + 1)%nat
  end.

Section Str.
(** [repr] of a string, as [str] of a list writes its elements. *)
Variable repr : string → string.

(** [str(keywords)] *)
Definition py_str (keywords : list string) : string :=
  "[" ++ String.concat ", " (repr <$> keywords) ++ "]".

Variable net : network.

(** The second loop, over the rows in order. *)
Fixpoint extract_loop (df : list frame_row) (w : world)
    : result (list frame_row * world) :=
  match df with
  | [] => Ok ([], w)
  | row :: rest =>
      abstract ← column row "Abstract";
      keywords ← column row "Keywords";
      let has_abstract := is_abstract_valid abstract in
      let has_no_keywords := is_keywords_empty keywords in
      if has_abstract && has_no_keywords then
        let '(keywords, w) := extract_keywords net w in
        '(rest, w) ← extract_loop rest w;
        Ok (<["Keywords" := Some (py_str keywords)]> row :: rest, w)
      else
        '(rest, w) ← extract_loop rest w;
        Ok (row :: rest, w)
  end.

Definition process_pubmed_data (df : list frame_row) (w : world)
    : result (option (list frame_row) * world) :=
  let df := with_keywords_column df in
  '(_, _, to_process) ← count_status df 0 0 0;
  if (to_process =? 0)%nat then Ok (None, w)
  else
    '(df, w) ← extract_loop df w;
    Ok (Some df, w).
End Str.

(** What the second loop does to one row: [row'] is [row] when the row
    is not pending, and [row] with the string of five keywords put into
    its [Keywords] cell when it is. *)
Definition row_done (repr : string → string) (row row' : frame_row) : Prop :=
  if pending row
  then ∃ keywords, length keywords = 5%nat ∧
                   row' = <["Keywords" := Some (py_str repr keywords)]> row
  else row' = row.

(** Python's [repr] on a string without quotes, backslashes or control
    characters. *)
Definition plain_repr (s : string) : string := "'" ++ s ++ "'".

(** A frame of three records: one with keywords, one without an
    abstract, one that waits for its keywords. *)
Definition sample_frame : list frame_row :=
  [ {[ "Abstract" := Some "Hernia repair in infants."; "Keywords" := Some "['Hernia']" ]};
    {[ "Abstract" := None; "Keywords" := None ]};
    {[ "Abstract" := Some "Appendicitis in children."; "Keywords" := None ]} ].

(** The sample frame as the function saves it when the service is out
    of reach. *)
Definition sample_saved : list frame_row :=
  [ {[ "Abstract" := Some "Hernia repair in infants."; "Keywords" := Some "['Hernia']" ]};
    {[ "Abstract" := None; "Keywords" := None ]};
    {[ "Abstract" := Some "Appendicitis in children.";
       "Keywords" := Some "['', '', '', '', '']" ]} ].

End Extractor.

Module OracleSamples.
Import Oracle.



End OracleSamples.

(* ===================================================================== *)
(** * Groups of entries *)
(* ===================================================================== *)

Module ResolverSpec.
Import Oracle Resolver.

(** Two entries are in one group: they have the same root. *)
Definition joined (p : list nat) (a b : nat) : Prop :=
  ∃ r, reaches p a r ∧ reaches p b r.

(** The test of the first pass: both affiliations are non-empty and
    equal up to the case of their letters. *)
Definition exact_match (affiliations : list string) (i j : nat) : Prop :=
  ∃ aff_i aff_j,
    affiliations !! i = Some aff_i ∧ affiliations !! j = Some aff_j ∧
    aff_i ≠ "" ∧ aff_j ≠ "" ∧ Text.lower aff_i = Text.lower aff_j.

(** No answer of the service holds the marker of the verdict "same". *)
Definition never_same (net : network) : Prop :=
  ∀ k response, net k = Response 200 (Json (Some response)) →
    Text.contains verdict_same (Text.strip response) = false.

(** The groups of [p] join matching entries only. *)
Definition grouped_by_match (affiliations : list string) (p : list nat) : Prop :=
  ∀ a b, joined p a b → a = b ∨ exact_match affiliations a b.

(** What a pass has done to the outside after [k] judgments at most:
    a pause of one second for each, and no more requests than pauses. *)
Definition judged (k : nat) (w w' : world) : Prop :=
  ∃ m, (m ≤ k)%nat ∧ slept w' = slept w ++ replicate m 1 ∧
       (requests w ≤ requests w' ≤ requests w + m)%nat.

(** Three entries, the first and the last of the same hospital. *)
Definition mixed_case_affiliations : list string :=
  ["Hosp X"; "Hosp Y"; "hosp x"].

End ResolverSpec.

(* ===================================================================== *)
(** * Bounds of the matcher *)
(* ===================================================================== *)

Module MatcherSpec.

(** The block [(besti, bestj, bestsize)] lies within [alo, ahi) of the
    first sequence and within [blo, bhi) of the second. *)
Definition block_ok (alo ahi blo bhi : nat) (best : nat * nat * nat) : Prop :=
  let '(besti, bestj, bestsize) := best in
  (alo ≤ besti ∧ besti + bestsize ≤ ahi ∧
   blo ≤ bestj ∧ bestj + bestsize ≤ bhi)%nat.

(** No run recorded in [j2len] is longer than [m], and the run that
    ends at [j] does not start before [blo]. *)
Definition lengths_ok (m blo : nat) (j2len : gmap nat nat) : Prop :=
  ∀ j v, j2len !! j = Some v → (v ≤ m ∧ v ≤ j + 1 - blo)%nat.

(** What an entry of the queue can still cost: a step for itself and
    two for each element of its stretch of the first sequence. *)
Definition queue_weight (q : nat * nat * nat * nat) : nat :=
  let '(alo, ahi, _, _) := q in (2 * (ahi - alo) + 1)%nat.

Definition queue_ok (q : nat * nat * nat * nat) : Prop :=
  let '(alo, ahi, blo, bhi) := q in (alo ≤ ahi ∧ blo ≤ bhi)%nat.

(** The elements of the first and of the second sequence that an entry
    of the queue still covers. *)
Definition a_span (q : nat * nat * nat * nat) : nat :=
  let '(alo, ahi, _, _) := q in (ahi - alo)%nat.

Definition b_span (q : nat * nat * nat * nat) : nat :=
  let '(_, _, blo, bhi) := q in (bhi - blo)%nat.

(** [sum(triple[-1] for triple in blocks)] *)
Definition matched (blocks : list (nat * nat * nat)) : nat :=
  sum_list ((λ triple, triple.2) <$> blocks).

End MatcherSpec.

(* ===================================================================== *)
(** * Properties *)
(* ===================================================================== *)

Lemma truthy_true (s : string) : truthy s = true ↔ s ≠ "".
Proof. destruct s; simpl; split; congruence. Qed.

Lemma truthy_false (s : string) : truthy s = false ↔ s = "".
Proof. destruct s; simpl; split; congruence. Qed.

Lemma filter_none {A} (P : A → Prop) `{!∀ x, Decision (P x)} (l : list A) :
  Forall (λ x, ¬ P x) l → filter P l = [].
Proof.
  induction 1 as [|x l Hx _ IH]; [reflexivity|].
  by rewrite filter_cons_False.
Qed.

Lemma getitem_Ok (d : row) (key v : string) :
  getitem d key = Ok v ↔ d !! key = Some v.
Proof. unfold getitem. destruct (d !! key); split; congruence. Qed.

(* --------------------------------------------------------------------- *)
(** ** Interval crawl planner *)
(* --------------------------------------------------------------------- *)

Module PlannerFacts.
Import Planner.

Lemma us_per_day_half : us_per_day / 2 = 43200000000.
Proof. reflexivity. Qed.

Lemma us_per_day_value : us_per_day = 86400000000.
Proof. reflexivity. Qed.

Lemma timedelta_half_days (days : Z) :
  timedelta_half (days * us_per_day) = days * (us_per_day / 2).
Proof.
  unfold timedelta_half. rewrite us_per_day_half, us_per_day_value.
  replace (days * 86400000000) with (days * 43200000000 * 2) by lia.
  rewrite Z.mod_mul by lia. rewrite Z.div_mul by lia. reflexivity.
Qed.

(** The midpoint is the start plus half the number of days between the
    two dates, rounded down. *)
Lemma get_mid_date_days (start_date end_date : Z) :
  get_mid_date start_date end_date = start_date + (end_date - start_date) / 2.
Proof.
  unfold get_mid_date, strptime, format_date.
  replace (end_date * us_per_day - start_date * us_per_day)
    with ((end_date - start_date) * us_per_day) by lia.
  rewrite timedelta_half_days, us_per_day_half, us_per_day_value.
  set (d := end_date - start_date).
  assert (Hd : d = 2 * (d / 2) + d mod 2) by (apply Z.div_mod; lia).
  assert (Hm : 0 ≤ d mod 2 < 2) by (apply Z.mod_pos_bound; lia).
  symmetry. apply Z.div_unique with (r := (d mod 2) * 43200000000).
  - left. lia.
  - lia.
Qed.

Lemma next_day_succ (mid_date : Z) : next_day mid_date = mid_date + 1.
Proof.
  unfold next_day, strptime, format_date.
  replace (mid_date * us_per_day + 1 * us_per_day)
    with ((mid_date + 1) * us_per_day) by lia.
  apply Z.div_mul. rewrite us_per_day_value. lia.
Qed.

Lemma get_mid_date_single_day (day : Z) : get_mid_date day day = day.
Proof. rewrite get_mid_date_days, Z.sub_diag. change (0 / 2) with 0. lia. Qed.

Lemma get_mid_date_between (start_date end_date : Z) :
  start_date ≤ end_date →
  start_date ≤ get_mid_date start_date end_date ≤ end_date.
Proof.
  intros H. rewrite get_mid_date_days.
  assert (0 ≤ (end_date - start_date) / 2) by (apply Z.div_pos; lia).
  assert ((end_date - start_date) / 2 ≤ end_date - start_date)
    by (apply Z.div_le_upper_bound; lia).
  lia.
Qed.

(** When the count is over the threshold, the two recursive calls are on
    the two ranges of [split_interval]. *)
Lemma process_time_interval_split get_total_results parse_page existing_pmids
    fuel start_date end_date st depth total_results :
  get_total_results start_date end_date = Ok total_results →
  10000 < total_results →
  let '(child_a, child_b) := split_interval start_date end_date in
  process_time_interval get_total_results parse_page existing_pmids
    (S fuel) start_date end_date st depth =
  match process_time_interval get_total_results parse_page existing_pmids
          fuel child_a.1 child_a.2
          (emit (Splitting total_results)
             (emit (Processing start_date end_date depth) st)) (S depth) with
  | OutOfFuel => OutOfFuel
  | Raise e =>
      Ok (emit Sleep (emit (Failed e)
            (emit (Splitting total_results)
               (emit (Processing start_date end_date depth) st))))
  | Ok st1 =>
      match process_time_interval get_total_results parse_page existing_pmids
              fuel child_b.1 child_b.2 st1 (S depth) with
      | OutOfFuel => OutOfFuel
      | Raise e => Ok (emit Sleep (emit (Failed e) st1))
      | Ok st2 => Ok (emit Sleep st2)
      end
  end.
Proof.
  intros Hcount Hover. simpl. rewrite Hcount.
  destruct (Z.eqb_spec total_results 0) as [->|_]; [lia|].
  destruct (Z.leb_spec total_results 10000) as [?|_]; [lia|].
  reflexivity.
Qed.

(** C6.  A range with [start <= end] that the planner splits is cut into
    two ranges that abut -- the second starts the day after the first
    ends -- that share no day, and whose days are exactly the days of
    the range. *)
Theorem split_interval_partitions (start_date end_date : Z) :
  start_date ≤ end_date →
  let '(child_a, child_b) := split_interval start_date end_date in
  child_a.1 = start_date ∧ child_b.2 = end_date ∧
  child_b.1 = child_a.2 + 1 ∧
  (∀ day, in_range (start_date, end_date) day ↔
          in_range child_a day ∨ in_range child_b day) ∧
  (∀ day, ¬ (in_range child_a day ∧ in_range child_b day)).
Proof.
  intros Hle. unfold split_interval, in_range. simpl.
  rewrite next_day_succ.
  pose proof (get_mid_date_between start_date end_date Hle) as Hmid.
  repeat split; lia.
Qed.

Lemma split_interval_partitions_witness :
  let '(child_a, child_b) := split_interval 735599 739124 in
  child_a.1 = 735599 ∧ child_b.2 = 739124 ∧
  child_b.1 = child_a.2 + 1 ∧
  (∀ day, in_range (735599, 739124) day ↔
          in_range child_a day ∨ in_range child_b day) ∧
  (∀ day, ¬ (in_range child_a day ∧ in_range child_b day)).
Proof. apply (split_interval_partitions 735599 739124). lia. Defined.

(** A range whose count stays over the threshold and whose midpoint is
    its own end is handed to the first recursive call unchanged, so the
    recursion never comes back. *)
Lemma process_time_interval_unsplittable get_total_results parse_page
    existing_pmids start_date end_date total_results :
  get_total_results start_date end_date = Ok total_results →
  10000 < total_results →
  get_mid_date start_date end_date = end_date →
  ∀ fuel st depth,
    process_time_interval get_total_results parse_page existing_pmids
      fuel start_date end_date st depth = OutOfFuel.
Proof.
  intros Hcount Hover Hmid fuel.
  induction fuel as [|fuel IH]; intros st depth; [reflexivity|].
  simpl. rewrite Hcount.
  destruct (Z.eqb_spec total_results 0) as [->|_]; [lia|].
  destruct (Z.leb_spec total_results 10000) as [?|_]; [lia|].
  rewrite Hmid, IH. reflexivity.
Qed.

(** C3.  On the single day 2020/01/01 (ordinal 737425), with 10,001
    hits reported for it, [process_time_interval] splits the day into
    itself and an empty range and recurses on the day again: whatever
    the depth allowed, the call has not returned. *)
Theorem process_time_interval_single_day_diverges
    (parse_page : Z → Z → Z → list Article) (existing_pmids : gset string)
    (fuel : nat) (st : state) (depth : nat) :
  split_interval 737425 737425 = ((737425, 737425), (737426, 737425)) ∧
  process_time_interval busy_search parse_page existing_pmids
    fuel 737425 737425 st depth = OutOfFuel.
Proof.
  split.
  - unfold split_interval. rewrite get_mid_date_single_day, next_day_succ.
    reflexivity.
  - apply process_time_interval_unsplittable with (total_results := 10001).
    + reflexivity.
    + lia.
    + apply get_mid_date_single_day.
Qed.

(** Ranges of two days or more do get shorter when they are split. *)
Lemma split_interval_shrinks (start_date end_date : Z) :
  start_date < end_date →
  let '(child_a, child_b) := split_interval start_date end_date in
  child_a.2 - child_a.1 < end_date - start_date ∧
  child_b.2 - child_b.1 < end_date - start_date ∧
  child_a.1 ≤ child_a.2 ∧ child_b.1 ≤ child_b.2.
Proof.
  intros Hlt. unfold split_interval. simpl.
  rewrite next_day_succ, get_mid_date_days.
  assert (0 ≤ (end_date - start_date) / 2) by (apply Z.div_pos; lia).
  assert ((end_date - start_date) / 2 < end_date - start_date)
    by (apply Z.div_lt_upper_bound; lia).
  lia.
Qed.

(** *** [crawl_time_interval] *)

Lemma statistics_line_Ok (count total : nat) :
  total ≠ 0%nat → statistics_line count total = Ok tt.
Proof. unfold statistics_line. destruct (Nat.eqb_spec total 0); congruence. Qed.

Lemma crawl_time_interval_cases parse_page existing_pmids total_results :
  crawl_time_interval parse_page existing_pmids total_results =
  match collect_pages parse_page existing_pmids total_results with
  | [] => Raise ZeroDivisionError
  | articles => Ok articles
  end.
Proof.
  unfold crawl_time_interval.
  destruct (collect_pages parse_page existing_pmids total_results) as [|a l].
  - reflexivity.
  - rewrite !statistics_line_Ok by (simpl; lia). reflexivity.
Qed.

Lemma page_step_nothing_new parse_page existing_pmids page :
  Forall (λ a, PMID a ∈ existing_pmids) (parse_page page) →
  page_step parse_page existing_pmids [] page = [].
Proof.
  intros Hall. unfold page_step.
  destruct (parse_page page) as [|a l] eqn:Hpage; [reflexivity|].
  rewrite filter_none; [reflexivity|].
  eapply Forall_impl; [exact Hall|]. simpl. tauto.
Qed.

Lemma collect_pages_nothing_new parse_page existing_pmids total_results :
  (∀ page, Forall (λ a, PMID a ∈ existing_pmids) (parse_page page)) →
  collect_pages parse_page existing_pmids total_results = [].
Proof.
  intros Hall. unfold collect_pages.
  induction (seqZ 1 (Z.min ((total_results + 199) / 200) 50)) as [|page l IH];
    [reflexivity|].
  simpl. rewrite page_step_nothing_new by apply Hall. exact IH.
Qed.

(** X9. Where every single day stays within the threshold, the recursion does
    end: a range of [d + 1] days is done at depth [d + 1] at the latest. *)
Lemma process_time_interval_terminates get_total_results parse_page
    existing_pmids :
  (∀ start_date end_date, get_total_results start_date end_date ≠ OutOfFuel) →
  (∀ day total_results,
     get_total_results day day = Ok total_results → total_results ≤ 10000) →
  ∀ fuel start_date end_date st depth,
    start_date ≤ end_date →
    (Z.to_nat (end_date - start_date) < fuel)%nat →
    ∃ st', process_time_interval get_total_results parse_page existing_pmids
             fuel start_date end_date st depth = Ok st'.
Proof.
  intros Hanswers Hday fuel.
  induction fuel as [|fuel IH]; intros start_date end_date st depth Hle Hfuel;
    [lia|].
  simpl.
  destruct (get_total_results start_date end_date) as [total_results|e|] eqn:Hcount.
  3:{ by apply Hanswers in Hcount. }
  2:{ eauto. }
  destruct (Z.eqb_spec total_results 0) as [_|_]; [eauto|].
  destruct (Z.leb_spec total_results 10000) as [_|Hover].
  { rewrite crawl_time_interval_cases.
    destruct (collect_pages _ _ _); eauto. }
  assert (Hlt : start_date < end_date).
  { destruct (decide (start_date = end_date)) as [->|]; [|lia].
    apply Hday in Hcount. lia. }
  pose proof (split_interval_shrinks start_date end_date Hlt) as Hshrink.
  unfold split_interval in Hshrink. simpl in Hshrink.
  destruct Hshrink as (Ha & Hb & Hale & Hble).
  destruct (IH start_date (get_mid_date start_date end_date)
              (emit (Splitting total_results)
                 (emit (Processing start_date end_date depth) st)) (S depth))
    as [st1 ->]; [lia|lia|].
  destruct (IH (next_day (get_mid_date start_date end_date)) end_date
              st1 (S depth)) as [st2 ->]; [lia|lia|].
  eauto.
Qed.

(** C10.  [crawl_time_interval] returns its list exactly when the list
    holds a record.  When the pages gave nothing new -- every parsed
    identifier is known already, or every fetch failed and [parse_page]
    gave [[]] -- the list is empty and the statistics raise
    [ZeroDivisionError]; the caller's handler takes it: the interval is
    logged as failed and [all_articles] is left as it was. *)
Theorem crawl_time_interval_raises_on_nothing_new
    (get_total_results : Z → Z → result Z)
    (parse_page : Z → Z → Z → list Article) (existing_pmids : gset string)
    (start_date end_date total_results : Z) :
  let articles :=
    collect_pages (parse_page start_date end_date) existing_pmids total_results in
  let crawl :=
    crawl_time_interval (parse_page start_date end_date) existing_pmids
      total_results in
  (∀ l, crawl = Ok l → l = articles ∧ l ≠ []) ∧
  (articles ≠ [] → crawl = Ok articles) ∧
  (articles = [] → crawl = Raise ZeroDivisionError) ∧
  ((∀ page, Forall (λ a, PMID a ∈ existing_pmids)
              (parse_page start_date end_date page)) →
   crawl = Raise ZeroDivisionError) ∧
  (get_total_results start_date end_date = Ok total_results →
   0 < total_results ≤ 10000 →
   articles = [] →
   ∀ fuel st depth,
     process_time_interval get_total_results parse_page existing_pmids
       (S fuel) start_date end_date st depth =
     Ok (emit Sleep (emit (Failed ZeroDivisionError)
           (emit (Processing start_date end_date depth) st)))).
Proof.
  intros articles crawl. subst crawl.
  rewrite crawl_time_interval_cases. fold articles.
  split; [|split; [|split; [|split]]].
  - intros l Hl. destruct articles; [discriminate|]. by inversion Hl.
  - intros Hne. by destruct articles.
  - by intros ->.
  - intros Hall. subst articles.
    by rewrite collect_pages_nothing_new.
  - intros Hcount [Hpos Hle] Hnil fuel st depth. simpl. rewrite Hcount.
    destruct (Z.eqb_spec total_results 0) as [->|_]; [lia|].
    destruct (Z.leb_spec total_results 10000) as [_|?]; [|lia].
    rewrite crawl_time_interval_cases. fold articles. by rewrite Hnil.
Qed.

Lemma crawl_time_interval_raises_on_nothing_new_witness :
  crawl_time_interval (known_page 737425 737425) {["123"]} 3
    = Raise ZeroDivisionError ∧
  process_time_interval small_search known_page {["123"]}
    1 737425 737425 state0 0
    = Ok (emit Sleep (emit (Failed ZeroDivisionError)
            (emit (Processing 737425 737425 0) state0))).
Proof.
  destruct (crawl_time_interval_raises_on_nothing_new
              small_search known_page {["123"]} 737425 737425 3)
    as (_ & _ & _ & Hknown & Hcaller).
  assert (Hall : ∀ page, Forall (λ a, PMID a ∈ ({["123"]} : gset string))
                           (known_page 737425 737425 page)).
  { intros page. repeat constructor. }
  split.
  - apply Hknown, Hall.
  - apply Hcaller.
    + reflexivity.
    + lia.
    + apply collect_pages_nothing_new, Hall.
Defined.

End PlannerFacts.

(* --------------------------------------------------------------------- *)
(** ** Snapshot store *)
(* --------------------------------------------------------------------- *)

Module SnapshotFacts.
Import Snapshot.

Lemma getitem_pmid_of (r : row) : has_pmid r → getitem r "PMID" = Ok (pmid_of r).
Proof.
  intros [v Hv]. unfold getitem, pmid_of. rewrite Hv. reflexivity.
Qed.

Lemma pmid_of_lookup (r : row) (pmid : string) :
  r !! "PMID" = Some pmid → pmid_of r = pmid.
Proof. intros H. unfold pmid_of. by rewrite H. Qed.

(** *** The ordered dict *)

Lemma od_get_None (m : odict) (k : string) : od_get m k = None ↔ k ∉ m.*1.
Proof.
  induction m as [|[k' v] m IH]; simpl.
  - split; [intros _; apply not_elem_of_nil | done].
  - destruct (decide (k' = k)) as [->|Hne].
    + split; [done|]. intros []. left.
    + rewrite IH, not_elem_of_cons.
      split; [intros ?; split; [congruence | done] | by intros [_ ?]].
Qed.

Lemma od_get_Some_elem (m : odict) (k : string) (v : row) :
  od_get m k = Some v → (k, v) ∈ m.
Proof.
  induction m as [|[k' v'] m IH]; simpl; [done|].
  destruct (decide (k' = k)) as [->|Hne].
  - intros [= ->]. left.
  - intros H. right. auto.
Qed.

Lemma od_get_elem (m : odict) (k : string) (v : row) :
  NoDup m.*1 → (k, v) ∈ m → od_get m k = Some v.
Proof.
  induction m as [|[k' v'] m IH]; simpl; intros Hnd Hin.
  - by apply elem_of_nil in Hin.
  - apply NoDup_cons in Hnd as [Hk' Hnd].
    apply elem_of_cons in Hin as [[= -> ->]|Hin].
    + by rewrite decide_True.
    + destruct (decide (k' = k)) as [->|Hne]; [|auto].
      exfalso. apply Hk'. apply list_elem_of_fmap. by exists (k, v).
Qed.

Lemma od_get_set_eq (m : odict) (k : string) (v : row) :
  od_get (od_set m k v) k = Some v.
Proof.
  induction m as [|[k' v'] m IH]; simpl.
  - by rewrite decide_True.
  - destruct (decide (k' = k)) as [->|Hne]; simpl.
    + by rewrite decide_True.
    + by rewrite decide_False.
Qed.

Lemma od_get_set_ne (m : odict) (k k' : string) (v : row) :
  k ≠ k' → od_get (od_set m k v) k' = od_get m k'.
Proof.
  intros Hne. induction m as [|[k0 v0] m IH]; simpl.
  - by rewrite decide_False.
  - destruct (decide (k0 = k)) as [->|Hne0]; simpl.
    + by rewrite !decide_False.
    + by rewrite IH.
Qed.

Lemma od_set_fresh (m : odict) (k : string) (v : row) :
  k ∉ m.*1 → od_set m k v = m ++ [(k, v)].
Proof.
  induction m as [|[k' v'] m IH]; simpl; [done|].
  rewrite not_elem_of_cons. intros [Hne Hnin].
  rewrite decide_False by done. by rewrite IH.
Qed.

Lemma od_set_keys (m : odict) (k : string) (v : row) :
  (od_set m k v).*1 = if decide (k ∈ m.*1) then m.*1 else m.*1 ++ [k].
Proof.
  induction m as [|[k' v'] m IH].
  - rewrite decide_False; [done|apply not_elem_of_nil].
  - cbn [od_set]. rewrite fmap_cons. cbn [fst].
    destruct (decide (k' = k)) as [->|Hne].
    + rewrite decide_True; [done|left].
    + rewrite fmap_cons, IH. cbn [fst].
      destruct (decide (k ∈ m.*1)) as [Hin|Hnin].
      * rewrite decide_True; [done|by right].
      * rewrite decide_False; [done|]. rewrite not_elem_of_cons. done.
Qed.

Lemma od_set_NoDup (m : odict) (k : string) (v : row) :
  NoDup m.*1 → NoDup (od_set m k v).*1.
Proof.
  intros Hnd. rewrite od_set_keys. case_decide; [done|].
  apply NoDup_app. split_and!; [done| |apply NoDup_singleton].
  intros x Hx Hk. apply list_elem_of_singleton in Hk. by subst.
Qed.

(** *** An empty update *)

Lemma index_by_pmid_distinct (articles : list row) (m : odict) :
  Forall has_pmid articles →
  NoDup (m.*1 ++ (pmid_of <$> articles)) →
  index_by_pmid articles m = Ok (m ++ ((λ r, (pmid_of r, r)) <$> articles)).
Proof.
  revert m. induction articles as [|r articles IH]; intros m Hall Hnd; simpl.
  - by rewrite app_nil_r.
  - apply Forall_cons in Hall as [Hr Hall].
    rewrite getitem_pmid_of by done. simpl.
    assert (Hfresh : pmid_of r ∉ m.*1).
    { apply NoDup_app in Hnd as (_ & Hdisj & _).
      intros Hin. apply (Hdisj _ Hin). left. }
    rewrite od_set_fresh by done.
    rewrite IH; [by rewrite <- app_assoc|done|].
    rewrite fmap_app. simpl. by rewrite <- app_assoc.
Qed.

(** C9.  Merging no new record into a snapshot whose identifiers are
    pairwise distinct gives the snapshot back, row for row and field
    for field, both through [merge_new_articles] and through the branch
    of [main] that is taken when the crawl found nothing. *)
Theorem merge_nothing_is_identity (existing_articles : list row) :
  Forall has_pmid existing_articles →
  NoDup (pmid_of <$> existing_articles) →
  merge_new_articles existing_articles [] = Ok existing_articles ∧
  main_merge existing_articles [] = Ok existing_articles.
Proof.
  intros Hall Hnd. split; [|reflexivity].
  unfold merge_new_articles.
  rewrite index_by_pmid_distinct by done. simpl.
  unfold od_values. rewrite <- list_fmap_compose.
  f_equal. apply list_fmap_id.
Qed.

(** *** De-duplication *)

Lemma filter_ext_in {A} (P Q : A → Prop) `{!∀ x, Decision (P x)}
    `{!∀ x, Decision (Q x)} (l : list A) :
  (∀ x, x ∈ l → (P x ↔ Q x)) → filter P l = filter Q l.
Proof.
  induction l as [|x l IH]; intros Hext; [reflexivity|].
  assert (Hx : P x ↔ Q x) by (apply Hext; left).
  assert (Hl : filter P l = filter Q l) by (apply IH; intros y Hy; apply Hext; by right).
  destruct (decide (P x)) as [HP|HP].
  - rewrite !filter_cons_True by tauto. by rewrite Hl.
  - rewrite !filter_cons_False by tauto. done.
Qed.

Lemma omap_ext_in {A B} (f g : A → option B) (l : list A) :
  (∀ x, x ∈ l → f x = g x) → omap f l = omap g l.
Proof.
  induction l as [|x l IH]; intros Hext; [reflexivity|].
  change (omap f (x :: l)) with (from_option (λ y, y :: omap f l) (omap f l) (f x)).
  change (omap g (x :: l)) with (from_option (λ y, y :: omap g l) (omap g l) (g x)).
  rewrite (Hext x) by left. rewrite IH; [done|].
  intros y Hy. apply Hext. by right.
Qed.

Lemma dedup_loop_app (rows1 rows2 : list row) (st : dedup_state) :
  dedup_loop (rows1 ++ rows2) st = dedup_loop rows1 st ≫= dedup_loop rows2.
Proof.
  revert st. induction rows1 as [|r rows1 IH]; intros st; simpl; [done|].
  destruct (dedup_step st r) as [st'| |]; simpl; [apply IH|done|done].
Qed.

Lemma removed_entry_app_l (pre suf : list row) (i : nat) :
  (i < length pre)%nat → removed_entry (pre ++ suf) i = removed_entry pre i.
Proof.
  intros Hi. unfold removed_entry.
  rewrite lookup_app_l by done. rewrite take_app_le by lia. done.
Qed.

Lemma removed_entry_last (pre : list row) (r : row) :
  removed_entry (pre ++ [r]) (length pre) =
  negb (truthy (pmid_of r)) || bool_decide (pmid_of r ∈ pmid_of <$> pre).
Proof.
  unfold removed_entry. rewrite list_lookup_middle by done.
  by rewrite take_app_length.
Qed.

Lemma kept_entries_snoc (pre : list row) (r : row) :
  kept_entries (pre ++ [r]) =
  kept_entries pre ++
    (if removed_entry (pre ++ [r]) (length pre) then [] else [r]).
Proof.
  unfold kept_entries. rewrite last_length, seq_S, filter_app, omap_app.
  f_equal.
  - rewrite (filter_ext_in _ (λ i, removed_entry pre i = false)).
    + apply omap_ext_in. intros i Hi.
      apply list_elem_of_filter in Hi as [_ Hi]. apply elem_of_seq in Hi.
      apply lookup_app_l. lia.
    + intros i Hi. apply elem_of_seq in Hi.
      rewrite removed_entry_app_l by lia. done.
  - simpl. destruct (removed_entry (pre ++ [r]) (length pre)) eqn:Hrem.
    + by rewrite filter_cons_False, filter_nil by (rewrite Hrem; done).
    + rewrite filter_cons_True, filter_nil by done. simpl.
      by rewrite list_lookup_middle.
Qed.

Lemma removed_count_snoc (pre : list row) (r : row) :
  removed_count (pre ++ [r]) =
  (removed_count pre +
     (if removed_entry (pre ++ [r]) (length pre) then 1 else 0))%nat.
Proof.
  unfold removed_count. rewrite last_length, seq_S, filter_app, length_app.
  f_equal.
  - f_equal. apply filter_ext_in. intros i Hi. apply elem_of_seq in Hi.
    rewrite removed_entry_app_l by lia. done.
  - simpl. destruct (removed_entry (pre ++ [r]) (length pre)) eqn:Hrem.
    + by rewrite filter_cons_True, filter_nil by done.
    + by rewrite filter_cons_False, filter_nil by (rewrite Hrem; done).
Qed.

Lemma dedup_loop_spec (rows : list row) :
  Forall readable rows →
  ∃ st, dedup_loop rows dedup_init = Ok st ∧
        unique_articles st = kept_entries rows ∧
        duplicate_count st = removed_count rows ∧
        (∀ p, p ∈ seen_pmids st ↔ p ≠ "" ∧ p ∈ pmid_of <$> rows).
Proof.
  induction rows as [|r pre IH] using rev_ind; intros Hall.
  - exists dedup_init. split_and!; try done.
    intros p. split; [set_solver|]. intros [_ Hp]. by apply elem_of_nil in Hp.
  - apply Forall_app in Hall as [Hpre Hr]. rewrite Forall_singleton in Hr.
    destruct (IH Hpre) as (st & Hloop & Huniq & Hcount & Hseen).
    destruct Hr as [[pmid Hpmid] [title Htitle]].
    rewrite dedup_loop_app, Hloop. simpl.
    unfold dedup_step, getitem. rewrite Hpmid. simpl.
    rewrite kept_entries_snoc, removed_count_snoc, removed_entry_last.
    rewrite (pmid_of_lookup r pmid Hpmid).
    assert (Hdup : bool_decide (pmid ∈ seen_pmids st) = true ↔
                   truthy pmid = true ∧ pmid ∈ pmid_of <$> pre).
    { rewrite bool_decide_eq_true, Hseen, truthy_true. done. }
    destruct (truthy pmid) eqn:Htruthy; simpl.
    + destruct (bool_decide (pmid ∈ seen_pmids st)) eqn:Hseen_b.
      * assert (Hin : pmid ∈ pmid_of <$> pre) by (apply Hdup; done).
        rewrite bool_decide_eq_true_2 by done. rewrite Htitle. simpl.
        eexists. split; [reflexivity|]. simpl. split_and!.
        -- by rewrite app_nil_r.
        -- lia.
        -- intros p. rewrite Hseen, fmap_app, elem_of_app. simpl.
           rewrite (pmid_of_lookup r pmid Hpmid), list_elem_of_singleton.
           split; [tauto|]. intros [Hne [Hp| ->]]; done.
      * assert (Hnin : pmid ∉ pmid_of <$> pre).
        { intros Hin. assert (true = true ∧ pmid ∈ pmid_of <$> pre) as H by done.
          apply Hdup in H. congruence. }
        rewrite bool_decide_eq_false_2 by done.
        eexists. split; [reflexivity|]. simpl. split_and!.
        -- by rewrite Huniq.
        -- lia.
        -- intros p. rewrite elem_of_union, elem_of_singleton, Hseen.
           rewrite fmap_app, elem_of_app. simpl.
           rewrite (pmid_of_lookup r pmid Hpmid), list_elem_of_singleton.
           apply truthy_true in Htruthy.
           split; [intros [->|[? ?]]; tauto | intros [? [?|?]]; tauto].
    + rewrite Htitle. simpl.
      eexists. split; [reflexivity|]. simpl. split_and!.
      * by rewrite app_nil_r.
      * lia.
      * intros p. rewrite Hseen, fmap_app, elem_of_app. simpl.
        rewrite (pmid_of_lookup r pmid Hpmid), list_elem_of_singleton.
        apply truthy_false in Htruthy. subst pmid.
        split; [tauto|]. intros [Hne [Hp| ->]]; done.
Qed.

Lemma removed_entry_last_false (pre : list row) (r : row) :
  removed_entry (pre ++ [r]) (length pre) = false ↔
  pmid_of r ≠ "" ∧ pmid_of r ∉ pmid_of <$> pre.
Proof.
  rewrite removed_entry_last, orb_false_iff, negb_false_iff.
  by rewrite truthy_true, bool_decide_eq_false.
Qed.

Lemma kept_entries_sublist (rows : list row) : kept_entries rows `sublist_of` rows.
Proof.
  induction rows as [|r pre IH] using rev_ind; [constructor|].
  rewrite kept_entries_snoc.
  destruct (removed_entry (pre ++ [r]) (length pre)).
  - rewrite app_nil_r. by apply sublist_inserts_r.
  - by apply sublist_app.
Qed.

Lemma kept_entries_length (rows : list row) :
  (length (kept_entries rows) + removed_count rows)%nat = length rows.
Proof.
  induction rows as [|r pre IH] using rev_ind; [reflexivity|].
  rewrite kept_entries_snoc, removed_count_snoc, !length_app.
  destruct (removed_entry (pre ++ [r]) (length pre)); simpl; lia.
Qed.

Lemma kept_entries_pmids (rows : list row) (p : string) :
  p ∈ pmid_of <$> kept_entries rows ↔ p ≠ "" ∧ p ∈ pmid_of <$> rows.
Proof.
  induction rows as [|r pre IH] using rev_ind.
  - split; [intros H; by apply elem_of_nil in H|].
    intros [_ H]. by apply elem_of_nil in H.
  - rewrite kept_entries_snoc, !fmap_app, !elem_of_app, IH.
    destruct (removed_entry (pre ++ [r]) (length pre)) eqn:Hrem; simpl.
    + rewrite list_elem_of_singleton.
      rewrite removed_entry_last, orb_true_iff, negb_true_iff in Hrem.
      rewrite truthy_false, bool_decide_eq_true in Hrem.
      split.
      * intros [[? ?]|H]; [tauto|]. by apply elem_of_nil in H.
      * intros [Hne [?| ->]]; [tauto|]. destruct Hrem; [done|tauto].
    + apply removed_entry_last_false in Hrem as [Hne Hnin].
      rewrite list_elem_of_singleton.
      split; [intros [[? ?]| ->]; tauto | intros [? [?|?]]; tauto].
Qed.

Lemma kept_entries_NoDup (rows : list row) : NoDup (pmid_of <$> kept_entries rows).
Proof.
  induction rows as [|r pre IH] using rev_ind; [constructor|].
  rewrite kept_entries_snoc.
  destruct (removed_entry (pre ++ [r]) (length pre)) eqn:Hrem.
  - by rewrite app_nil_r.
  - apply removed_entry_last_false in Hrem as [Hne Hnin].
    rewrite fmap_app. apply NoDup_app. split_and!; [done| |apply NoDup_singleton].
    intros p Hp Hr. apply list_elem_of_singleton in Hr. subst p.
    apply kept_entries_pmids in Hp. tauto.
Qed.

Lemma sublist_same_length {A} (l k : list A) :
  l `sublist_of` k → length l = length k → l = k.
Proof.
  induction 1 as [|x l k Hsub IH|x l k Hsub IH]; simpl; intros Hlen.
  - reflexivity.
  - f_equal. apply IH. lia.
  - apply sublist_length in Hsub. lia.
Qed.

(** C8.  The de-duplication pass removes exactly the entries whose
    identifier is empty or is the identifier of an earlier entry: what
    is left is the list of the other entries in their original order,
    its length is the length of the input minus the number of removed
    entries, and every non-empty identifier of the input is in it once. *)
Theorem remove_duplicate_pmids_keeps_first (rows : list row) :
  Forall readable rows →
  ∃ out,
    remove_duplicate_pmids rows = Ok (out, removed_count rows) ∧
    out = kept_entries rows ∧
    length out = (length rows - removed_count rows)%nat ∧
    out `sublist_of` rows ∧
    NoDup (pmid_of <$> out) ∧
    (∀ p, p ∈ pmid_of <$> out ↔ p ≠ "" ∧ p ∈ pmid_of <$> rows).
Proof.
  intros Hall.
  destruct (dedup_loop_spec rows Hall) as (st & Hloop & Huniq & Hcount & _).
  pose proof (kept_entries_length rows) as Hlen.
  exists (kept_entries rows). split_and!.
  - unfold remove_duplicate_pmids. rewrite Hloop. simpl.
    rewrite Hcount, Huniq.
    destruct (Nat.eqb_spec (removed_count rows) 0) as [Hzero|_]; [|done].
    rewrite Hzero. do 2 f_equal. symmetry.
    apply sublist_same_length; [apply kept_entries_sublist|lia].
  - reflexivity.
  - lia.
  - apply kept_entries_sublist.
  - apply kept_entries_NoDup.
  - apply kept_entries_pmids.
Qed.

Lemma readable_mk_row title authors pmid journal date :
  readable (mk_row title authors pmid journal date).
Proof. split; eexists; reflexivity. Qed.

Lemma remove_duplicate_pmids_keeps_first_witness :
  ∃ out,
    remove_duplicate_pmids rows_with_duplicates
      = Ok (out, removed_count rows_with_duplicates) ∧
    out = kept_entries rows_with_duplicates ∧
    length out = (length rows_with_duplicates
                  - removed_count rows_with_duplicates)%nat ∧
    out `sublist_of` rows_with_duplicates ∧
    NoDup (pmid_of <$> out) ∧
    (∀ p, p ∈ pmid_of <$> out ↔
          p ≠ "" ∧ p ∈ pmid_of <$> rows_with_duplicates).
Proof.
  apply (remove_duplicate_pmids_keeps_first rows_with_duplicates).
  repeat constructor; eexists; reflexivity.
Defined.

Lemma merge_nothing_is_identity_witness :
  merge_new_articles [old_row; other_row] [] = Ok [old_row; other_row] ∧
  main_merge [old_row; other_row] [] = Ok [old_row; other_row].
Proof.
  apply (merge_nothing_is_identity [old_row; other_row]).
  - repeat constructor; eexists; reflexivity.
  - apply (bool_decide_unpack _). vm_compute. reflexivity.
Defined.

(** *** Collisions *)

Lemma merge_fields_union (existing new_article : row) :
  merge_fields existing new_article = new_article ∪ existing.
Proof.
  unfold merge_fields, update. apply map_eq. intros field.
  destruct (new_article !! field) as [v|] eqn:Hfield.
  - by rewrite !(lookup_union_Some_l _ _ _ v).
  - rewrite !lookup_union_r by done.
    destruct (new_article !! "Journal") as [journal|] eqn:Hj; [|done].
    destruct (truthy journal); [|done].
    apply lookup_insert_ne. intros <-. congruence.
Qed.

Lemma merge_fields_lookup (existing new_article : row) (field : string) :
  merge_fields existing new_article !! field =
  match new_article !! field with
  | Some v => Some v
  | None => existing !! field
  end.
Proof.
  rewrite merge_fields_union.
  destruct (new_article !! field) as [v|] eqn:Hfield.
  - by apply lookup_union_Some_l.
  - by apply lookup_union_r.
Qed.

Lemma elem_of_od_set (m : odict) (k k' : string) (v v' : row) :
  (k', v') ∈ od_set m k v → (k', v') = (k, v) ∨ (k', v') ∈ m.
Proof.
  induction m as [|[k0 v0] m IH]; simpl.
  - rewrite list_elem_of_singleton. auto.
  - destruct (decide (k0 = k)) as [->|Hne]; rewrite !elem_of_cons; [tauto|].
    intros [?|Hin]; [tauto|]. destruct (IH Hin); tauto.
Qed.

Lemma keyed_od_set (m : odict) (k : string) (v : row) :
  keyed m → v !! "PMID" = Some k → keyed (od_set m k v).
Proof.
  intros [Hnd Hkeys] Hv. split; [by apply od_set_NoDup|].
  intros k' v' Hin. apply elem_of_od_set in Hin as [[= -> ->]|Hin]; auto.
Qed.

Lemma merge_one_spec (m : odict) (new_article : row) :
  has_pmid new_article → keyed m →
  ∃ m', merge_one m new_article = Ok m' ∧ keyed m' ∧
        ∀ k, od_get m' k = merge_value k (od_get m k) new_article.
Proof.
  intros Hpmid Hkeyed. pose proof Hpmid as [pmid Hlookup].
  unfold merge_one. rewrite getitem_pmid_of by done. simpl.
  rewrite (pmid_of_lookup _ _ Hlookup).
  destruct (od_get m pmid) as [existing|] eqn:Hget.
  - eexists. split; [reflexivity|]. split.
    + apply keyed_od_set; [done|]. by rewrite merge_fields_lookup, Hlookup.
    + intros k. unfold merge_value. rewrite (pmid_of_lookup _ _ Hlookup).
      destruct (decide (pmid = k)) as [<-|Hne].
      * by rewrite od_get_set_eq, Hget.
      * by rewrite od_get_set_ne.
  - eexists. split; [reflexivity|]. split.
    + by apply keyed_od_set.
    + intros k. unfold merge_value. rewrite (pmid_of_lookup _ _ Hlookup).
      destruct (decide (pmid = k)) as [<-|Hne].
      * by rewrite od_get_set_eq, Hget.
      * by rewrite od_get_set_ne.
Qed.

Lemma merge_loop_spec (new_articles : list row) (m : odict) :
  Forall has_pmid new_articles → keyed m →
  ∃ m', merge_loop new_articles m = Ok m' ∧ keyed m' ∧
        ∀ k, od_get m' k = foldl (merge_value k) (od_get m k) new_articles.
Proof.
  revert m. induction new_articles as [|nw rest IH]; intros m Hall Hkeyed.
  - by exists m.
  - apply Forall_cons in Hall as [Hnw Hall].
    destruct (merge_one_spec m nw Hnw Hkeyed) as (m1 & Hone & Hkeyed1 & Hget1).
    destruct (IH m1 Hall Hkeyed1) as (m' & Hloop & Hkeyed' & Hget').
    exists m'. simpl. rewrite Hone. simpl. split_and!; [done..|].
    intros k. by rewrite Hget', Hget1.
Qed.

Lemma foldl_merge_value_absent (k : string) (cur : option row) (l : list row) :
  k ∉ pmid_of <$> l → foldl (merge_value k) cur l = cur.
Proof.
  revert cur. induction l as [|x l IH]; intros cur Hnin; [done|].
  rewrite fmap_cons, not_elem_of_cons in Hnin. destruct Hnin as [Hne Hnin].
  simpl. unfold merge_value at 2. rewrite decide_False by done. by apply IH.
Qed.

Lemma foldl_merge_value_last (k : string) (cur : option row)
    (l : list row) (nw : row) :
  last_with k l nw →
  ∃ pre, foldl (merge_value k) cur l =
         merge_value k (foldl (merge_value k) cur pre) nw ∧
         ∀ r, r ∈ pre → r ∈ l.
Proof.
  intros (pre & post & -> & Hk & Hpost). exists pre. split.
  - rewrite foldl_app. simpl. by apply foldl_merge_value_absent.
  - intros r Hr. apply elem_of_app. by left.
Qed.

Lemma foldl_merge_value_Some (k : string) (l : list row) (e0 : row) :
  ∃ e, foldl (merge_value k) (Some e0) l = Some e.
Proof.
  revert e0. induction l as [|x l IH]; intros e0; [by exists e0|].
  simpl. unfold merge_value at 2. case_decide; apply IH.
Qed.

(** A field that none of the merged records holds keeps its value. *)
Lemma foldl_merge_value_keeps (k field : string) (l : list row) (e0 e : row) :
  foldl (merge_value k) (Some e0) l = Some e →
  (∀ r, r ∈ l → pmid_of r = k → r !! field = None) →
  e !! field = e0 !! field.
Proof.
  revert e0. induction l as [|x l IH]; intros e0 Hfold Hnone.
  - simpl in Hfold. congruence.
  - simpl in Hfold. unfold merge_value at 2 in Hfold.
    destruct (decide (pmid_of x = k)) as [Hx|Hx].
    + rewrite (IH _ Hfold) by (intros r Hr; apply Hnone; by right).
      rewrite merge_fields_lookup. by rewrite (Hnone x) by (done || left).
    + apply (IH _ Hfold). intros r Hr. apply Hnone. by right.
Qed.

Lemma foldl_index_value_absent (k : string) (cur : option row) (l : list row) :
  k ∉ pmid_of <$> l → foldl (index_value k) cur l = cur.
Proof.
  revert cur. induction l as [|x l IH]; intros cur Hnin; [done|].
  rewrite fmap_cons, not_elem_of_cons in Hnin. destruct Hnin as [Hne Hnin].
  simpl. unfold index_value at 2. rewrite decide_False by done. by apply IH.
Qed.

Lemma foldl_index_value_last (k : string) (cur : option row)
    (l : list row) (old : row) :
  last_with k l old → foldl (index_value k) cur l = Some old.
Proof.
  intros (pre & post & -> & Hk & Hpost).
  rewrite foldl_app. simpl. rewrite foldl_index_value_absent by done.
  unfold index_value. by rewrite decide_True.
Qed.

Lemma index_by_pmid_spec (articles : list row) (m : odict) :
  Forall has_pmid articles → keyed m →
  ∃ m', index_by_pmid articles m = Ok m' ∧ keyed m' ∧
        ∀ k, od_get m' k = foldl (index_value k) (od_get m k) articles.
Proof.
  revert m. induction articles as [|r articles IH]; intros m Hall Hkeyed.
  - by exists m.
  - apply Forall_cons in Hall as [Hr Hall]. pose proof Hr as [pmid Hpmid].
    destruct (IH (od_set m (pmid_of r) r) Hall) as (m' & Hindex & Hkeyed' & Hget).
    { apply keyed_od_set; [done|]. by rewrite (pmid_of_lookup _ _ Hpmid). }
    exists m'. simpl. rewrite getitem_pmid_of by done. simpl.
    split_and!; [done..|].
    intros k. rewrite Hget. f_equal. unfold index_value.
    case_decide as Hk.
    + subst k. apply od_get_set_eq.
    + by apply od_get_set_ne.
Qed.

Lemma keyed_nil : keyed [].
Proof. split; [constructor|]. intros k v Hin. by apply elem_of_nil in Hin. Qed.

Lemma last_with_unique (p : string) (l : list row) (r : row) :
  NoDup (pmid_of <$> l) → r ∈ l → pmid_of r = p → last_with p l r.
Proof.
  intros Hnd Hin Hp. apply list_elem_of_split in Hin as (pre & post & ->).
  exists pre, post. split_and!; [done..|].
  rewrite fmap_app, fmap_cons, Hp in Hnd.
  apply NoDup_app in Hnd as (_ & _ & Hnd). by apply NoDup_cons in Hnd as [? _].
Qed.

(** C1, as the code has it.  When an identifier is in both lists, the
    result holds one record with that identifier.  With [old] the last
    old record and [nw] the last new record that have it, the merged
    record has the value of [nw] for every field [nw] holds a non-empty
    value for -- a non-empty journal of the new data among them -- and
    for every field other than the journal that [nw] holds at all; it
    has the value of [old] for every field that no new record with the
    identifier holds. *)
Theorem merge_collision_takes_new_fields
    (existing_articles new_articles : list row) (old nw : row) (pmid : string) :
  Forall has_pmid existing_articles → Forall has_pmid new_articles →
  last_with pmid existing_articles old → last_with pmid new_articles nw →
  ∃ out merged,
    merge_new_articles existing_articles new_articles = Ok out ∧
    merged ∈ out ∧
    (∀ r, r ∈ out → r !! "PMID" = Some pmid → r = merged) ∧
    ∀ field,
      match nw !! field with
      | Some v => v ≠ "" ∨ field ≠ "Journal" → merged !! field = Some v
      | None =>
          (∀ r, r ∈ new_articles → pmid_of r = pmid → r !! field = None) →
          merged !! field = old !! field
      end.
Proof.
  intros Hex Hnew Hold Hnw.
  destruct (index_by_pmid_spec existing_articles [] Hex keyed_nil)
    as (m0 & Hindex & Hkeyed0 & Hget0).
  destruct (merge_loop_spec new_articles m0 Hnew Hkeyed0)
    as (m' & Hloop & [Hnd' Hkeys'] & Hget').
  assert (Hget_old : od_get m0 pmid = Some old).
  { rewrite Hget0. by apply foldl_index_value_last. }
  destruct (foldl_merge_value_last pmid (od_get m0 pmid) new_articles nw Hnw)
    as (pre & Hfold & Hpre).
  assert (Hnw_pmid : pmid_of nw = pmid) by (by destruct Hnw as (? & ? & _ & ? & _)).
  rewrite Hget_old in Hfold.
  destruct (foldl_merge_value_Some pmid pre old) as [e He].
  assert (Hmerged : od_get m' pmid = Some (merge_fields e nw)).
  { rewrite Hget', Hget_old, Hfold, He. unfold merge_value.
    by rewrite decide_True. }
  exists (od_values m'), (merge_fields e nw). split_and!.
  - unfold merge_new_articles. rewrite Hindex. simpl. by rewrite Hloop.
  - apply od_get_Some_elem in Hmerged. unfold od_values.
    apply list_elem_of_fmap. by eexists (_, _).
  - intros r Hr Hr_pmid. unfold od_values in Hr.
    apply list_elem_of_fmap in Hr as ([k v] & -> & Hin). simpl in *.
    pose proof (Hkeys' _ _ Hin) as Hk. rewrite Hr_pmid in Hk.
    injection Hk as <-. apply (od_get_elem _ _ _ Hnd') in Hin. congruence.
  - intros field. rewrite merge_fields_lookup.
    destruct (nw !! field) as [v|]; [done|].
    intros Hnone. apply (foldl_merge_value_keeps pmid field pre old e He).
    intros r Hr. apply Hnone. by apply Hpre.
Qed.

Lemma merge_collision_takes_new_fields_witness :
  ∃ out merged,
    merge_new_articles [old_row; other_row] [new_row] = Ok out ∧
    merged ∈ out ∧
    (∀ r, r ∈ out → r !! "PMID" = Some "123" → r = merged) ∧
    ∀ field,
      match new_row !! field with
      | Some v => v ≠ "" ∨ field ≠ "Journal" → merged !! field = Some v
      | None =>
          (∀ r, r ∈ [new_row] → pmid_of r = "123" → r !! field = None) →
          merged !! field = old_row !! field
      end.
Proof.
  apply (merge_collision_takes_new_fields
           [old_row; other_row] [new_row] old_row new_row "123").
  - repeat constructor; eexists; reflexivity.
  - repeat constructor; eexists; reflexivity.
  - exists [], [other_row]. split_and!; [reflexivity|reflexivity|].
    apply (bool_decide_unpack _). vm_compute. reflexivity.
  - exists [], []. split_and!; [reflexivity|reflexivity|].
    apply not_elem_of_nil.
Defined.

(** Against C1 as it is stated: the new record of the sample collision
    has an empty journal and an empty date, and the merged record has
    them empty too, where the old record had both. *)
Lemma merge_collision_overwrites_with_empty :
  merge_new_articles [old_row] [new_row] = Ok [new_row] ∧
  old_row !! "PMID" = new_row !! "PMID" ∧
  old_row !! "Journal" = Some "J Pediatr Surg" ∧
  new_row !! "Journal" = Some "" ∧
  ¬ prefers_non_empty old_row new_row new_row.
Proof.
  split_and!; try (vm_compute; reflexivity).
  intros Hclaim. specialize (Hclaim "Journal"). vm_compute in Hclaim.
  discriminate.
Qed.

End SnapshotFacts.

(* --------------------------------------------------------------------- *)
(** ** Calls to the model service *)
(* --------------------------------------------------------------------- *)

Module OracleFacts.
Import Oracle.

(** C4, as the code has it.  [are_authors_same] issues one request at
    most and never a second one: none when an affiliation is empty,
    which is judged "different" at once, and exactly one otherwise; when
    that one call fails -- an exception, a bad status, or a response
    without a verdict marker -- the judgment is "different", and no time
    is spent waiting. *)
Theorem are_authors_same_single_attempt
    (net : network) (affiliation1 affiliation2 : string) (w : world) :
  let '((is_same, _), w') := are_authors_same net affiliation1 affiliation2 w in
  slept w' = slept w ∧
  (affiliation1 = "" ∨ affiliation2 = "" → is_same = false ∧ w' = w) ∧
  (affiliation1 ≠ "" → affiliation2 ≠ "" →
   requests w' = S (requests w) ∧
   (judgment_failed (net (requests w)) = true → is_same = false)).
Proof.
  unfold are_authors_same.
  destruct (truthy affiliation1) eqn:H1; simpl.
  2:{ apply truthy_false in H1. split_and!; [done|done|congruence]. }
  destruct (truthy affiliation2) eqn:H2; simpl.
  2:{ apply truthy_false in H2. split_and!; [done|done|congruence]. }
  apply truthy_true in H1, H2.
  assert (Hnot : affiliation1 = "" ∨ affiliation2 = "" → False) by tauto.
  destruct (net (requests w)) as [|status_code body] eqn:Hreply; simpl.
  { split_and!; [done|tauto|done]. }
  destruct (status_code =? 200) eqn:Hstatus; simpl.
  2:{ split_and!; [done|tauto|done]. }
  destruct body as [|[response|]]; simpl.
  - split_and!; [done|tauto|done].
  - destruct (Text.contains verdict_same (Text.strip response)); simpl.
    { split_and!; [done|tauto|]. intros _ _. split; [done|discriminate]. }
    destruct (Text.contains verdict_different (Text.strip response)); simpl.
    { split_and!; [done|tauto|done]. }
    split_and!; [done|tauto|done].
  - split_and!; [done|tauto|done].
Qed.

Lemma are_authors_same_single_attempt_witness :
  let '((is_same, _), w') :=
    are_authors_same flaky_service "Hospital X, Boston" "Hospital Y, Boston" world0 in
  slept w' = slept world0 ∧
  requests w' = 1%nat ∧
  is_same = false.
Proof.
  pose proof (are_authors_same_single_attempt flaky_service
                "Hospital X, Boston" "Hospital Y, Boston" world0) as H.
  destruct (are_authors_same flaky_service "Hospital X, Boston"
              "Hospital Y, Boston" world0) as [[is_same why] w'].
  destruct H as (Hslept & _ & Hcall).
  destruct Hcall as [Hreq Hfail]; [discriminate|discriminate|].
  split_and!; [exact Hslept|exact Hreq|].
  apply Hfail. reflexivity.
Defined.

(** Against C4 as it is stated: the first reply of the sample service
    is a server error, the judgment is "different" after that single
    request, and the same call made again would have been answered
    "same". *)
Lemma are_authors_same_does_not_retry :
  judgment_failed (flaky_service 0%nat) = true ∧
  are_authors_same flaky_service "Hospital X, Boston" "Hospital Y, Boston" world0
    = ((false, BadStatus 500), {| requests := 1; slept := [] |}) ∧
  are_authors_same flaky_service "Hospital X, Boston" "Hospital Y, Boston"
    {| requests := 1; slept := [] |}
    = ((true, Thoughts "Same hospital. 判断结果：是"),
       {| requests := 2; slept := [] |}).
Proof. split_and!; vm_compute; reflexivity. Qed.

(** *** Enrichment calls *)

Lemma affiliation_attempts_all_fail (net : network) (remaining : nat) (w : world) :
  (∀ k, (k < remaining)%nat → affiliation_failed (net (requests w + k)%nat) = true) →
  affiliation_attempts net remaining w =
  ((unknown, unknown, unknown),
   {| requests := (requests w + remaining)%nat;
      slept := slept w ++ replicate remaining 2 |}).
Proof.
  revert w. induction remaining as [|remaining IH]; intros w Hfail.
  - simpl. rewrite Nat.add_0_r, app_nil_r. by destruct w.
  - pose proof (Hfail 0%nat ltac:(lia)) as H0. rewrite Nat.add_0_r in H0.
    assert (Hrest : affiliation_attempts net remaining
                      (sleep 2 {| requests := S (requests w); slept := slept w |})
                    = ((unknown, unknown, unknown),
                       {| requests := (requests w + S remaining)%nat;
                          slept := slept w ++ replicate (S remaining) 2 |})).
    { rewrite IH.
      - simpl. rewrite <- app_assoc. simpl. do 2 f_equal. lia.
      - intros k Hk. simpl.
        replace (S (requests w + k)) with (requests w + S k)%nat by lia.
        apply Hfail. lia. }
    cbn [affiliation_attempts post].
    destruct (net (requests w)) as [|status_code body]; [exact Hrest|].
    simpl in H0. destruct (status_code =? 200); [|exact Hrest].
    destruct body; [exact Hrest|discriminate].
Qed.

Lemma affiliation_attempts_bounded (net : network) (remaining : nat) (w : world) :
  let w' := (affiliation_attempts net remaining w).2 in
  (requests w ≤ requests w' ≤ requests w + remaining)%nat.
Proof.
  revert w. induction remaining as [|remaining IH]; intros w; simpl; [lia|].
  assert (Hrest : ∀ w1, requests w1 = S (requests w) →
            (requests w ≤ requests (affiliation_attempts net remaining w1).2
               ≤ requests w + S remaining)%nat).
  { intros w1 Hw1. specialize (IH w1). simpl in IH. lia. }
  destruct (net (requests w)) as [|status_code body]; [by apply Hrest|].
  destruct (status_code =? 200); [|by apply Hrest].
  destruct body; [by apply Hrest|simpl; lia].
Qed.

(** C5, as the code has it.  [extract_affiliation_info] makes
    [max_retries] attempts at most; when every attempt fails -- an
    exception, a bad status, a body that is not JSON -- it has waited two
    seconds after each and gives the placeholder for the three fields.
    [extract_keywords] makes one attempt, waits for nothing, and after a
    failed call gives five empty strings.  Both return in every case. *)
Theorem enrichment_calls_on_failure (net : network) (max_retries : nat) (w : world) :
  (let w' := (extract_affiliation_info net max_retries w).2 in
   (requests w' ≤ requests w + max_retries)%nat) ∧
  ((∀ k, (k < max_retries)%nat →
         affiliation_failed (net (requests w + k)%nat) = true) →
   extract_affiliation_info net max_retries w =
   ((unknown, unknown, unknown),
    {| requests := (requests w + max_retries)%nat;
       slept := slept w ++ replicate max_retries 2 |})) ∧
  (let w' := (extract_keywords net w).2 in
   requests w' = S (requests w) ∧ slept w' = slept w) ∧
  (keywords_failed (net (requests w)) = true →
   extract_keywords net w =
   (no_keywords, {| requests := S (requests w); slept := slept w |})).
Proof.
  split_and!.
  - apply affiliation_attempts_bounded.
  - apply affiliation_attempts_all_fail.
  - unfold extract_keywords. simpl.
    destruct (net (requests w)) as [|status_code body]; [done|].
    destruct (status_code =? 200); [|done].
    by destruct body as [|[?|]].
  - unfold extract_keywords. simpl.
    destruct (net (requests w)) as [|status_code body]; [done|].
    simpl. destruct (status_code =? 200); [|done].
    by destruct body as [|[?|]].
Qed.

Lemma enrichment_calls_on_failure_witness :
  extract_affiliation_info dead_service 3%nat world0 =
    ((unknown, unknown, unknown), {| requests := 3; slept := [2; 2; 2] |}) ∧
  extract_keywords dead_service world0 =
    (no_keywords, {| requests := 1; slept := [] |}).
Proof.
  destruct (enrichment_calls_on_failure dead_service 3%nat world0)
    as (_ & Haff & _ & Hkw).
  split.
  - apply Haff. intros k _. reflexivity.
  - apply Hkw. reflexivity.
Defined.

(** Against C5 as it is stated: with the service out of reach,
    [extract_keywords] gives up after one request, without a delay, and
    the field gets five empty strings and no placeholder. *)
Lemma extract_keywords_does_not_retry :
  keywords_failed (dead_service 0%nat) = true ∧
  extract_keywords dead_service world0 =
    (["" ; ""; ""; ""; ""], {| requests := 1; slept := [] |}) ∧
  unknown ∉ (extract_keywords dead_service world0).1.
Proof.
  split_and!; [reflexivity|reflexivity|].
  apply (bool_decide_unpack _). vm_compute. reflexivity.
Qed.

(** A reply that parses but is short is taken as it is, without a
    second attempt: the fields it does not reach get the placeholder. *)
Lemma extract_affiliation_info_short_reply :
  extract_affiliation_info
    (λ _, Response 200 (Json (Some "Boston"))) 3%nat world0 =
  ((unknown, unknown, "Boston"), {| requests := 1; slept := [] |}).
Proof. vm_compute. reflexivity. Qed.

End OracleFacts.

(* --------------------------------------------------------------------- *)
(** ** Keyword reconciliation *)
(* --------------------------------------------------------------------- *)

Module KeywordsFacts.
Import Keywords.

(** The keywords that are matched do not depend on the set of consumed
    vocabulary terms the loop starts from: the set is written and never
    read. *)
Lemma match_keywords_ignores_matched_clean (keywords mesh_terms : list string)
    (matched_keywords : list string) (consumed1 consumed2 : gset string) :
  match match_keywords keywords mesh_terms matched_keywords consumed1,
        match_keywords keywords mesh_terms matched_keywords consumed2 with
  | Ok (out1, _), Ok (out2, _) => out1 = out2
  | Raise e1, Raise e2 => e1 = e2
  | OutOfFuel, OutOfFuel => True
  | _, _ => False
  end.
Proof.
  revert matched_keywords consumed1 consumed2.
  induction keywords as [|kw rest IH]; intros acc c1 c2; simpl; [done|].
  destruct (excluded (clean_keyword kw)) as [[|]| |]; simpl; [apply IH| |done|done].
  destruct (first_match (clean_keyword kw) mesh_terms) as [[m|]| |]; simpl;
    [apply IH|apply IH|done|done].
Qed.

(** What is returned is made of keywords, in their order, and of five of
    them at most. *)
Lemma match_keywords_sublist (keywords mesh_terms : list string)
    (matched_keywords : list string) (consumed : gset string) out consumed' :
  match_keywords keywords mesh_terms matched_keywords consumed = Ok (out, consumed') →
  ∃ l, out = matched_keywords ++ l ∧ l `sublist_of` keywords.
Proof.
  revert matched_keywords consumed.
  induction keywords as [|kw rest IH]; intros acc c; simpl.
  - intros [= <- <-]. exists []. by rewrite app_nil_r.
  - destruct (excluded (clean_keyword kw)) as [[|]| |]; simpl; try done.
    + intros H. destruct (IH _ _ H) as (l & -> & Hl).
      exists l. split; [done|]. by constructor.
    + destruct (first_match (clean_keyword kw) mesh_terms) as [[m|]| |];
        simpl; try done.
      * intros H. destruct (IH _ _ H) as (l & -> & Hl).
        exists (kw :: l). rewrite <- app_assoc. split; [done|]. by constructor.
      * intros H. destruct (IH _ _ H) as (l & -> & Hl).
        exists l. split; [done|]. by constructor.
Qed.

Lemma process_paper_both_present (keywords mesh_terms out : list string) :
  keywords ≠ [] → mesh_terms ≠ [] →
  process_paper (Some keywords) (Some mesh_terms) = Ok out →
  out `sublist_of` keywords ∧ (length out ≤ MAX_KEYWORDS)%nat.
Proof.
  intros Hk Hm. unfold process_paper. simpl.
  destruct keywords as [|kw keywords]; [done|].
  destruct mesh_terms as [|mesh mesh_terms]; [done|].
  destruct (match_keywords (kw :: keywords) (mesh :: mesh_terms) [] ∅)
    as [[matched c]| |] eqn:Hmatch; simpl; try done.
  intros [= <-].
  apply match_keywords_sublist in Hmatch as (l & -> & Hl). simpl.
  split.
  - etrans; [apply sublist_take|done].
  - rewrite length_take. unfold MAX_KEYWORDS. lia.
Qed.

(** C2.  With the keywords "Laparoscopic Surgery" and "Laparoscopy" and
    the single vocabulary term "Laparoscopy", neither excluded, both
    keywords are matched by that one term and both are returned: a
    vocabulary term that has matched a keyword matches the next one
    again.  Read with consumed terms passed over, as the specification
    says, only the first keyword is returned. *)
Theorem process_paper_matches_vocabulary_term_twice :
  process_paper (Some ["Laparoscopic Surgery"; "Laparoscopy"])
                (Some ["Laparoscopy"])
    = Ok ["Laparoscopic Surgery"; "Laparoscopy"] ∧
  first_match (clean_keyword "Laparoscopic Surgery") ["Laparoscopy"]
    = Ok (Some "laparoscopy") ∧
  first_match (clean_keyword "Laparoscopy") ["Laparoscopy"]
    = Ok (Some "laparoscopy") ∧
  reconcile_both_spec ["Laparoscopic Surgery"; "Laparoscopy"] ["Laparoscopy"]
    = Ok ["Laparoscopic Surgery"].
Proof. split_and!; vm_compute; reflexivity. Qed.

(** The example of the specification, where no vocabulary term is
    matched twice, comes out as expected. *)
Lemma process_paper_spec_example :
  process_paper (Some ["Laparoscopic Surgery"; "Child"])
                (Some ["Laparoscopy"; "Pediatric Patients"])
    = Ok ["Laparoscopic Surgery"].
Proof. vm_compute. reflexivity. Qed.

End KeywordsFacts.

(* --------------------------------------------------------------------- *)
(** ** Author identity resolver *)
(* --------------------------------------------------------------------- *)

Module ResolverFacts.
Import Oracle Resolver.

(** *** Counting the nodes that are linked *)

Lemma nonroots_from_le_length (k : nat) (p : list nat) :
  (nonroots_from k p ≤ length p)%nat.
Proof.
  revert k. induction p as [|px p IH]; intros k; simpl; [lia|].
  specialize (IH (S k)). case_decide; lia.
Qed.

Lemma nonroots_from_insert_le (k i v : nat) (p : list nat) :
  v ≠ (k + i)%nat →
  (nonroots_from k p ≤ nonroots_from k (<[i := v]> p))%nat.
Proof.
  revert k i. induction p as [|px p IH]; intros k i Hv; [done|].
  destruct i as [|i]; simpl.
  - rewrite Nat.add_0_r in Hv. rewrite (decide_False (P := v = k)) by done.
    case_decide; lia.
  - specialize (IH (S k) i). apply Nat.add_le_mono_l, IH. lia.
Qed.

Lemma nonroots_from_insert_root (k i v : nat) (p : list nat) :
  p !! i = Some (k + i)%nat → v ≠ (k + i)%nat →
  nonroots_from k (<[i := v]> p) = S (nonroots_from k p).
Proof.
  revert k i. induction p as [|px p IH]; intros k i Hroot Hv; [done|].
  destruct i as [|i]; simpl in *.
  - rewrite Nat.add_0_r in *. injection Hroot as ->.
    repeat case_decide; (lia || congruence).
  - rewrite (IH (S k) i); [lia| |lia].
    rewrite Hroot. f_equal. lia.
Qed.

(** *** Roots *)

Lemma reaches_is_root (p : list nat) (x r : nat) : reaches p x r → p !! r = Some r.
Proof. induction 1; auto. Qed.

Lemma reaches_deterministic (p : list nat) (x r r' : nat) :
  reaches p x r → reaches p x r' → r = r'.
Proof.
  induction 1 as [x Hx|x px r Hx Hne _ IH]; inversion 1; subst; try congruence.
  apply IH. congruence.
Qed.

Lemma reaches_from_root (p : list nat) (r s : nat) :
  p !! r = Some r → reaches p r s → s = r.
Proof.
  intros Hr Hs. symmetry. eapply reaches_deterministic; [|exact Hs].
  by constructor.
Qed.

(** Path compression: pointing a node at its root changes no root. *)
Lemma reaches_compress (p : list nat) (x r : nat) :
  reaches p x r → x ≠ r → same_roots p (<[x := r]> p).
Proof.
  intros Hx Hne y s.
  assert (Hlen : (x < length p)%nat).
  { inversion Hx; subst; by eapply lookup_lt_Some. }
  pose proof (reaches_is_root _ _ _ Hx) as Hr.
  split.
  - induction 1 as [y Hy|y py s Hy Hpy _ IH].
    + destruct (decide (y = x)) as [->|Hyx].
      * rewrite list_lookup_insert_eq in Hy by done. congruence.
      * rewrite list_lookup_insert_ne in Hy by done. by constructor.
    + destruct (decide (y = x)) as [->|Hyx].
      * rewrite list_lookup_insert_eq in Hy by done. injection Hy as <-.
        by rewrite (reaches_from_root _ _ _ Hr IH).
      * rewrite list_lookup_insert_ne in Hy by done.
        by apply reaches_step with py.
  - induction 1 as [y Hy|y py s Hy Hpy Hs IH].
    + assert (y ≠ x).
      { intros ->. apply Hne.
        eapply reaches_deterministic; [by constructor|exact Hx]. }
      constructor. by rewrite list_lookup_insert_ne.
    + destruct (decide (y = x)) as [->|Hyx].
      * assert (s = r) as ->.
        { eapply reaches_deterministic; [|exact Hx]. by apply reaches_step with py. }
        apply reaches_step with r; [by rewrite list_lookup_insert_eq|done|].
        constructor. by rewrite list_lookup_insert_ne.
      * apply reaches_step with py; [by rewrite list_lookup_insert_ne|done|done].
Qed.

Lemma same_roots_refl (p : list nat) : same_roots p p.
Proof. by intros x r. Qed.

Lemma same_roots_trans (p1 p2 p3 : list nat) :
  same_roots p1 p2 → same_roots p2 p3 → same_roots p1 p3.
Proof. intros H12 H23 x r. etrans; [apply H23 | apply H12]. Qed.

Lemma rk_lookup (u : UnionFind) (x v : nat) : rank u !! x = Some v → rk u x = v.
Proof. intros H. unfold rk. by rewrite H. Qed.

Lemma reaches_rank (u : UnionFind) (x r : nat) :
  wf u → reaches (parent u) x r →
  (rk u x ≤ rk u r)%nat ∧ (x ≠ r → (rk u x < rk u r)%nat).
Proof.
  intros Hwf. induction 1 as [x Hx|x px r Hx Hne _ [IHle _]].
  - split; [lia|done].
  - pose proof (wf_rank u Hwf x px Hx Hne). split; intros; lia.
Qed.

(** *** [find] *)

Lemma getidx_Ok (l : list nat) (i v : nat) : l !! i = Some v → getidx l i = Ok v.
Proof. intros H. unfold getidx. by rewrite H. Qed.

Lemma setidx_Ok (l : list nat) (i v : nat) :
  (i < length l)%nat → setidx l i v = Ok (<[i := v]> l).
Proof. intros H. unfold setidx. by rewrite decide_True. Qed.

Lemma wf_rank_le_length (u : UnionFind) (x : nat) :
  wf u → (rk u x ≤ length (parent u))%nat.
Proof.
  intros Hwf. etrans; [apply (wf_bound u Hwf)|apply nonroots_from_le_length].
Qed.

Lemma wf_compress (u : UnionFind) (x r : nat) :
  wf u → reaches (parent u) x r → x ≠ r →
  wf {| parent := <[x := r]> (parent u); rank := rank u |}.
Proof.
  intros Hwf Hx Hne.
  assert (Hlen : (x < length (parent u))%nat).
  { inversion Hx; subst; by eapply lookup_lt_Some. }
  split; simpl.
  - rewrite length_insert. apply (wf_length u Hwf).
  - intros y py Hy. rewrite length_insert.
    destruct (decide (y = x)) as [->|Hyx].
    + rewrite list_lookup_insert_eq in Hy by done. injection Hy as <-.
      eapply lookup_lt_Some, reaches_is_root, Hx.
    + rewrite list_lookup_insert_ne in Hy by done. by eapply wf_range.
  - intros y py Hy Hpy. change (rk u y < rk u py)%nat.
    destruct (decide (y = x)) as [->|Hyx].
    + rewrite list_lookup_insert_eq in Hy by done. injection Hy as <-.
      by apply reaches_rank.
    + rewrite list_lookup_insert_ne in Hy by done. by eapply wf_rank.
  - intros y. change (rk u y ≤ nonroots (<[x := r]> (parent u)))%nat.
    etrans; [apply (wf_bound u Hwf)|].
    apply nonroots_from_insert_le. simpl. congruence.
Qed.

(** With more fuel than there are nodes, [find] returns the root of
    its argument and leaves every root as it was. *)
Lemma find_spec (fuel : nat) (u : UnionFind) (x : nat) :
  wf u → (x < length (parent u))%nat →
  (length (parent u) < fuel + rk u x)%nat →
  ∃ r u', find fuel u x = Ok (r, u') ∧
          wf u' ∧ length (parent u') = length (parent u) ∧
          reaches (parent u) x r ∧ same_roots (parent u) (parent u').
Proof.
  revert u x. induction fuel as [|fuel IH]; intros u x Hwf Hx Hfuel.
  - pose proof (wf_rank_le_length u x Hwf). lia.
  - destruct (parent u !! x) as [px|] eqn:Hpx.
    2:{ apply lookup_ge_None in Hpx. lia. }
    cbn [find]. rewrite (getidx_Ok _ _ _ Hpx). simpl.
    destruct (decide (px ≠ x)) as [Hne|Heq].
    + pose proof (wf_rank u Hwf x px Hpx Hne) as Hrank.
      destruct (IH u px Hwf) as (r & u1 & Hfind & Hwf1 & Hlen1 & Hreach & Hsame).
      { by eapply wf_range. }
      { lia. }
      rewrite Hfind. simpl.
      rewrite setidx_Ok by lia. simpl.
      rewrite (getidx_Ok _ _ r) by (apply list_lookup_insert_eq; lia). simpl.
      assert (Hxr : reaches (parent u) x r) by (by apply reaches_step with px).
      assert (Hne' : x ≠ r).
      { intros ->. destruct (reaches_rank u px r Hwf Hreach). lia. }
      eexists _, _. split; [reflexivity|]. split_and!.
      * apply wf_compress; [done| |done]. by apply Hsame.
      * simpl. rewrite length_insert. done.
      * done.
      * simpl. eapply same_roots_trans; [exact Hsame|].
        apply reaches_compress; [|done]. by apply Hsame.
    + assert (px = x) as -> by (destruct (decide (px = x)); tauto).
      rewrite ?(getidx_Ok _ _ _ Hpx). simpl.
      exists x, u.
      split_and!; first [done | by constructor | apply same_roots_refl].
Qed.

Lemma find_mono (fuel fuel' : nat) (u : UnionFind) (x : nat) res :
  (fuel ≤ fuel')%nat → find fuel u x = Ok res → find fuel' u x = Ok res.
Proof.
  revert fuel' u x res. induction fuel as [|fuel IH]; intros fuel' u x res Hle; [done|].
  destruct fuel' as [|fuel']; [lia|]. cbn [find].
  destruct (getidx (parent u) x) as [px| |]; simpl; [|done..].
  destruct (decide (px ≠ x)); [|done].
  destruct (find fuel u px) as [[r u1]| |] eqn:Hfind; simpl; [|done..].
  rewrite (IH fuel' u px (r, u1)) by (done || lia). done.
Qed.

(** *** [union] *)

Lemma getidx_rank (u : UnionFind) (r : nat) :
  wf u → (r < length (parent u))%nat → getidx (rank u) r = Ok (rk u r).
Proof.
  intros Hwf Hr. unfold getidx, rk.
  destruct (rank u !! r) eqn:Hlookup; [done|].
  apply lookup_ge_None in Hlookup. rewrite (wf_length u Hwf) in Hlookup. lia.
Qed.

Lemma wf_link (u : UnionFind) (a b : nat) :
  wf u → parent u !! a = Some a → parent u !! b = Some b →
  (rk u a < rk u b)%nat →
  wf {| parent := <[a := b]> (parent u); rank := rank u |}.
Proof.
  intros Hwf Ha Hb Hrank.
  assert (Hlen : (a < length (parent u))%nat) by (by eapply lookup_lt_Some).
  split; simpl.
  - rewrite length_insert. apply (wf_length u Hwf).
  - intros y py Hy. rewrite length_insert.
    destruct (decide (y = a)) as [->|Hya].
    + rewrite list_lookup_insert_eq in Hy by done. injection Hy as <-.
      by eapply lookup_lt_Some.
    + rewrite list_lookup_insert_ne in Hy by done. by eapply wf_range.
  - intros y py Hy Hpy. change (rk u y < rk u py)%nat.
    destruct (decide (y = a)) as [->|Hya].
    + rewrite list_lookup_insert_eq in Hy by done. by injection Hy as <-.
    + rewrite list_lookup_insert_ne in Hy by done. by eapply wf_rank.
  - intros y. change (rk u y ≤ nonroots (<[a := b]> (parent u)))%nat.
    etrans; [apply (wf_bound u Hwf)|].
    apply nonroots_from_insert_le. simpl. intros ->. lia.
Qed.

Lemma rk_insert (u : UnionFind) (p : list nat) (a v z : nat) :
  (a < length (rank u))%nat →
  rk {| parent := p; rank := <[a := v]> (rank u) |} z =
  if decide (z = a) then v else rk u z.
Proof.
  intros Ha. unfold rk. simpl. case_decide as Hz.
  - subst. by rewrite list_lookup_insert_eq.
  - by rewrite list_lookup_insert_ne.
Qed.

Lemma wf_link_equal (u : UnionFind) (a b : nat) :
  wf u → parent u !! a = Some a → parent u !! b = Some b → a ≠ b →
  rk u a = rk u b →
  wf {| parent := <[b := a]> (parent u);
        rank := <[a := (rk u a + 1)%nat]> (rank u) |}.
Proof.
  intros Hwf Ha Hb Hab Hrank.
  assert (Hlena : (a < length (parent u))%nat) by (by eapply lookup_lt_Some).
  assert (Hlenb : (b < length (parent u))%nat) by (by eapply lookup_lt_Some).
  assert (Hlenr : (a < length (rank u))%nat) by (by rewrite (wf_length u Hwf)).
  split.
  - simpl. rewrite !length_insert. apply (wf_length u Hwf).
  - simpl. intros y py Hy. rewrite length_insert.
    destruct (decide (y = b)) as [->|Hyb].
    + rewrite list_lookup_insert_eq in Hy by done. by injection Hy as <-.
    + rewrite list_lookup_insert_ne in Hy by done. by eapply wf_range.
  - intros y py Hy Hpy. rewrite !rk_insert by done. simpl in Hy.
    destruct (decide (y = b)) as [->|Hyb].
    + rewrite list_lookup_insert_eq in Hy by done. injection Hy as <-.
      rewrite decide_False by done. rewrite decide_True by done. lia.
    + rewrite list_lookup_insert_ne in Hy by done.
      assert (y ≠ a) by congruence.
      rewrite (decide_False (P := y = a)) by done.
      pose proof (wf_rank u Hwf y py Hy Hpy). case_decide; subst; lia.
  - intros y. rewrite rk_insert by done. simpl.
    unfold nonroots. rewrite nonroots_from_insert_root by (simpl; congruence).
    pose proof (wf_bound u Hwf y). pose proof (wf_bound u Hwf a).
    unfold nonroots in *. case_decide; lia.
Qed.

Lemma union_spec (fuel : nat) (u : UnionFind) (x y : nat) :
  wf u → (x < length (parent u))%nat → (y < length (parent u))%nat →
  (length (parent u) < fuel)%nat →
  ∃ u', union fuel u x y = Ok u' ∧ wf u' ∧
        length (parent u') = length (parent u).
Proof.
  intros Hwf Hx Hy Hfuel.
  destruct (find_spec fuel u x Hwf Hx ltac:(lia))
    as (rx & u1 & Hfind1 & Hwf1 & Hlen1 & Hreach1 & Hsame1).
  destruct (find_spec fuel u1 y Hwf1 ltac:(lia) ltac:(lia))
    as (ry & u2 & Hfind2 & Hwf2 & Hlen2 & Hreach2 & Hsame2).
  unfold union. rewrite Hfind1. simpl. rewrite Hfind2. simpl.
  destruct (decide (rx = ry)) as [Heq|Hne].
  { exists u2. split_and!; [done|done|lia]. }
  assert (Hrx : parent u2 !! rx = Some rx).
  { eapply reaches_is_root, Hsame2. constructor.
    eapply reaches_is_root, Hsame1, Hreach1. }
  assert (Hry : parent u2 !! ry = Some ry).
  { eapply reaches_is_root, Hsame2, Hreach2. }
  assert (Hlx : (rx < length (parent u2))%nat) by (by eapply lookup_lt_Some).
  assert (Hly : (ry < length (parent u2))%nat) by (by eapply lookup_lt_Some).
  rewrite !getidx_rank by done. simpl.
  destruct (Nat.ltb_spec (rk u2 rx) (rk u2 ry)) as [Hlt|Hge].
  { rewrite setidx_Ok by done. simpl. eexists. split; [reflexivity|].
    split; [by apply wf_link|]. simpl. rewrite length_insert. lia. }
  destruct (Nat.ltb_spec (rk u2 ry) (rk u2 rx)) as [Hlt|Hge'].
  { rewrite setidx_Ok by done. simpl. eexists. split; [reflexivity|].
    split; [by apply wf_link|]. simpl. rewrite length_insert. lia. }
  rewrite (setidx_Ok (parent u2)) by done. simpl.
  rewrite (setidx_Ok (rank u2)) by (by rewrite (wf_length u2 Hwf2)). simpl.
  eexists. split; [reflexivity|].
  split; [apply wf_link_equal; (done || lia)|].
  simpl. rewrite length_insert. lia.
Qed.

Lemma union_mono (fuel fuel' : nat) (u : UnionFind) (x y : nat) res :
  (fuel ≤ fuel')%nat → union fuel u x y = Ok res → union fuel' u x y = Ok res.
Proof.
  intros Hle. unfold union.
  destruct (find fuel u x) as [[rx u1]| |] eqn:H1; simpl; [|done..].
  rewrite (find_mono fuel fuel' u x _ Hle H1). simpl.
  destruct (find fuel u1 y) as [[ry u2]| |] eqn:H2; simpl; [|done..].
  rewrite (find_mono fuel fuel' u1 y _ Hle H2). done.
Qed.

(** *** The two passes *)

Lemma elem_of_pairs (n i j : nat) : (i, j) ∈ pairs n → (i < j < n)%nat.
Proof.
  unfold pairs. rewrite list_elem_of_bind. intros (i' & Hin & Hi').
  apply list_elem_of_fmap in Hin as (j' & [= -> ->] & Hj').
  apply elem_of_seq in Hi', Hj'. lia.
Qed.

Lemma wf_init (n : nat) : wf (init n) ∧ length (parent (init n)) = n.
Proof.
  split; [|simpl; apply length_seq].
  split; simpl.
  - by rewrite length_replicate, length_seq.
  - intros x px Hx. rewrite length_seq. apply lookup_seq in Hx. lia.
  - intros x px Hx Hne. apply lookup_seq in Hx. lia.
  - intros x. unfold rk. simpl.
    destruct (replicate n 0%nat !! x) as [v|] eqn:Hv; simpl; [|lia].
    apply lookup_replicate in Hv as [-> _]. lia.
Qed.

Lemma iloc_Ok (affiliations : list string) (i : nat) :
  (i < length affiliations)%nat → ∃ a, iloc affiliations i = Ok a.
Proof.
  intros Hi. unfold iloc.
  destruct (affiliations !! i) eqn:H; [eauto|].
  apply lookup_ge_None in H. lia.
Qed.

Lemma run_pass_spec (step : pass_state → nat * nat → result pass_state)
    (inv : pass_state → Prop) (todo : list (nat * nat)) (st : pass_state) :
  (∀ st ij, ij ∈ todo → inv st → ∃ st', step st ij = Ok st' ∧ inv st') →
  inv st → ∃ st', run_pass step todo st = Ok st' ∧ inv st'.
Proof.
  revert st. induction todo as [|ij todo IH]; intros st Hstep Hinv.
  - by exists st.
  - destruct (Hstep st ij) as (st1 & Hst1 & Hinv1); [left|done|].
    destruct (IH st1) as (st' & Hst' & Hinv'); [|done|].
    { intros st2 ij2 Hin. apply Hstep. by right. }
    exists st'. simpl. rewrite Hst1. simpl. done.
Qed.

Lemma run_pass_mono (step1 step2 : pass_state → nat * nat → result pass_state)
    (todo : list (nat * nat)) (st : pass_state) res :
  (∀ st ij res, step1 st ij = Ok res → step2 st ij = Ok res) →
  run_pass step1 todo st = Ok res → run_pass step2 todo st = Ok res.
Proof.
  intros Hstep. revert st. induction todo as [|ij todo IH]; intros st; [done|].
  simpl. destruct (step1 st ij) as [st1| |] eqn:H1; simpl; [|done..].
  rewrite (Hstep _ _ _ H1). simpl. apply IH.
Qed.

Lemma exact_step_spec (fuel : nat) (affiliations : list string)
    (st : pass_state) (i j : nat) :
  (length affiliations < fuel)%nat → (i < j < length affiliations)%nat →
  pass_ok (length affiliations) st →
  ∃ st', exact_step fuel affiliations st (i, j) = Ok st' ∧
         pass_ok (length affiliations) st' ∧ outside st' = outside st.
Proof.
  intros Hfuel Hij [Hwf Hlen]. unfold exact_step.
  destruct (iloc_Ok affiliations i) as [aff_i ->]; [lia|].
  destruct (iloc_Ok affiliations j) as [aff_j ->]; [lia|]. simpl.
  destruct (truthy aff_i && truthy aff_j
            && String.eqb (Text.lower aff_i) (Text.lower aff_j)).
  - destruct (union_spec fuel (uf st) i j) as (u' & -> & Hwf' & Hlen'); [done|lia..|].
    simpl. eexists. split; [reflexivity|]. split; [|done].
    split; simpl; [done|lia].
  - by exists st.
Qed.

Lemma exact_step_mono (fuel fuel' : nat) (affiliations : list string)
    (st : pass_state) (ij : nat * nat) res :
  (fuel ≤ fuel')%nat →
  exact_step fuel affiliations st ij = Ok res →
  exact_step fuel' affiliations st ij = Ok res.
Proof.
  intros Hle. destruct ij as [i j]. unfold exact_step.
  destruct (iloc affiliations i) as [aff_i| |]; simpl; [|done..].
  destruct (iloc affiliations j) as [aff_j| |]; simpl; [|done..].
  destruct (truthy aff_i && truthy aff_j
            && String.eqb (Text.lower aff_i) (Text.lower aff_j)); [|done].
  destruct (union fuel (uf st) i j) as [u'| |] eqn:Hu; simpl; [|done..].
  by rewrite (union_mono fuel fuel' _ _ _ _ Hle Hu).
Qed.

Lemma judge_step_spec (net : network) (fuel : nat) (affiliations : list string)
    (st : pass_state) (i j : nat) :
  (length affiliations < fuel)%nat → (i < j < length affiliations)%nat →
  pass_ok (length affiliations) st →
  ∃ st', judge_step net fuel affiliations st (i, j) = Ok st' ∧
         pass_ok (length affiliations) st'.
Proof.
  intros Hfuel Hij [Hwf Hlen]. unfold judge_step.
  case_bool_decide; [by exists st|].
  destruct (find_spec fuel (uf st) i Hwf ltac:(lia) ltac:(lia))
    as (ri & u1 & -> & Hwf1 & Hlen1 & _ & _). simpl.
  destruct (find_spec fuel u1 j Hwf1 ltac:(lia) ltac:(lia))
    as (rj & u2 & -> & Hwf2 & Hlen2 & _ & _). simpl.
  destruct (decide (ri = rj)).
  { eexists. split; [reflexivity|]. split; simpl; [done|lia]. }
  destruct (iloc_Ok affiliations i) as [aff_i ->]; [lia|].
  destruct (iloc_Ok affiliations j) as [aff_j ->]; [lia|]. simpl.
  destruct (are_authors_same net aff_i aff_j (outside st)) as [[is_same why] w'].
  destruct is_same.
  - destruct (union_spec fuel u2 i j) as (u' & -> & Hwf' & Hlen'); [done|lia..|].
    simpl. eexists. split; [reflexivity|]. split; simpl; [done|lia].
  - simpl. eexists. split; [reflexivity|]. split; simpl; [done|lia].
Qed.

Lemma judge_step_mono (net : network) (fuel fuel' : nat)
    (affiliations : list string) (st : pass_state) (ij : nat * nat) res :
  (fuel ≤ fuel')%nat →
  judge_step net fuel affiliations st ij = Ok res →
  judge_step net fuel' affiliations st ij = Ok res.
Proof.
  intros Hle. destruct ij as [i j]. unfold judge_step.
  case_bool_decide; [done|].
  destruct (find fuel (uf st) i) as [[ri u1]| |] eqn:H1; simpl; [|done..].
  rewrite (find_mono fuel fuel' _ _ _ Hle H1). simpl.
  destruct (find fuel u1 j) as [[rj u2]| |] eqn:H2; simpl; [|done..].
  rewrite (find_mono fuel fuel' _ _ _ Hle H2). simpl.
  destruct (decide (ri = rj)); [done|].
  destruct (iloc affiliations i) as [aff_i| |]; simpl; [|done..].
  destruct (iloc affiliations j) as [aff_j| |]; simpl; [|done..].
  destruct (are_authors_same net aff_i aff_j (outside st)) as [[is_same why] w'].
  destruct is_same; [|done].
  destruct (union fuel u2 i j) as [u'| |] eqn:Hu; simpl; [|done..].
  by rewrite (union_mono fuel fuel' _ _ _ _ Hle Hu).
Qed.

Lemma cluster_spec (net : network) (fuel : nat) (affiliations : list string)
    (w : world) :
  (length affiliations < fuel)%nat →
  ∃ st, cluster net fuel affiliations w = Ok st ∧
        pass_ok (length affiliations) st.
Proof.
  intros Hfuel. unfold cluster.
  destruct (run_pass_spec (exact_step fuel affiliations)
              (pass_ok (length affiliations)) (pairs (length affiliations))
              {| uf := init (length affiliations); checked_pairs := ∅;
                 outside := w |}) as (st1 & -> & Hok1).
  { intros st [i j] Hin Hok. apply elem_of_pairs in Hin.
    destruct (exact_step_spec fuel affiliations st i j) as (st' & ? & ? & _); eauto. }
  { apply wf_init. }
  simpl. apply run_pass_spec; [|done].
  intros st [i j] Hin Hok. apply elem_of_pairs in Hin.
  by apply judge_step_spec.
Qed.

Lemma cluster_mono (net : network) (fuel fuel' : nat)
    (affiliations : list string) (w : world) res :
  (fuel ≤ fuel')%nat →
  cluster net fuel affiliations w = Ok res →
  cluster net fuel' affiliations w = Ok res.
Proof.
  intros Hle. unfold cluster.
  destruct (run_pass (exact_step fuel affiliations) _ _) as [st1| |] eqn:H1;
    simpl; [|done..].
  rewrite (run_pass_mono _ (exact_step fuel' affiliations) _ _ _
             (λ st ij res, exact_step_mono fuel fuel' affiliations st ij res Hle) H1).
  simpl. apply run_pass_mono. intros st ij r. by apply judge_step_mono.
Qed.

(** *** Numbering the groups *)

Lemma first_seen_snoc_old (s : nat) (ids : list nat) (n a : nat) :
  first_seen s ids n → (a < n)%nat → first_seen s (ids ++ [a]) n.
Proof.
  induction 1 as [next|next id ids next' Hid _ IH|next ids next' _ IH]; intros Ha.
  - simpl. apply first_seen_old; [done|constructor].
  - simpl. apply first_seen_old; auto.
  - simpl. apply first_seen_new; auto.
Qed.

Lemma first_seen_snoc_new (s : nat) (ids : list nat) (n : nat) :
  first_seen s ids n → first_seen s (ids ++ [n]) (S n).
Proof.
  induction 1 as [next|next id ids next' Hid _ IH|next ids next' _ IH].
  - simpl. apply first_seen_new. constructor.
  - simpl. by apply first_seen_old.
  - simpl. by apply first_seen_new.
Qed.

Lemma first_seen_range (s : nat) (ids : list nat) (n : nat) :
  first_seen s ids n →
  (s ≤ n)%nat ∧
  (∀ id, id ∈ ids → (id < n)%nat) ∧
  (∀ id, (s ≤ id < n)%nat → id ∈ ids).
Proof.
  induction 1 as [next|next id ids next' Hid _ (IHle & IHin & IHall)
                 |next ids next' _ (IHle & IHin & IHall)].
  - split_and!; [lia| |lia]. intros id Hin. by apply elem_of_nil in Hin.
  - split_and!; [lia| |].
    + intros id' Hin. apply elem_of_cons in Hin as [->|Hin]; [lia|auto].
    + intros id' Hid'. right. auto.
  - split_and!; [lia| |].
    + intros id' Hin. apply elem_of_cons in Hin as [->|Hin]; [lia|auto].
    + intros id' Hid'. destruct (decide (id' = next)) as [->|Hne]; [left|].
      right. apply IHall. lia.
Qed.

Lemma first_seen_check_correct (s : nat) (ids : list nat) (n : nat) :
  first_seen_check s ids = Some n ↔ first_seen s ids n.
Proof.
  split.
  - revert s. induction ids as [|id ids IH]; intros s; simpl.
    + intros [= <-]. constructor.
    + destruct (Nat.ltb_spec id s) as [Hlt|Hge].
      * intros H. apply first_seen_old; auto.
      * destruct (Nat.eqb_spec id s) as [->|Hne]; [|done].
        intros H. apply first_seen_new; auto.
  - induction 1 as [next|next id ids next' Hid _ IH|next ids next' _ IH]; simpl.
    + done.
    + destruct (Nat.ltb_spec id next); [done|lia].
    + destruct (Nat.ltb_spec next next); [lia|].
      by rewrite Nat.eqb_refl.
Qed.

Lemma number_step_spec (fuel : nat) (affiliations : list string)
    (p0 : list nat) (st : numbering) (done ids : list nat) (i : nat) :
  (length affiliations < fuel)%nat → length p0 = length affiliations →
  (i < length affiliations)%nat →
  num_ok p0 st done ids →
  ∃ st' id, number_step fuel affiliations st i = Ok st' ∧
            num_ok p0 st' (done ++ [i]) (ids ++ [id]).
Proof.
  intros Hfuel Hp0 Hi (Hwf & Hlen & Hsame & Hlt & Hinj & Hids & Hseen).
  destruct (find_spec fuel (num_uf st) i Hwf ltac:(lia) ltac:(lia))
    as (r & u' & Hfind & Hwf' & Hlen' & Hreach & Hsame').
  assert (Hroot : reaches p0 i r) by (by apply Hsame).
  unfold number_step. rewrite Hfind. simpl.
  destruct (group_ids st !! r) as [a|] eqn:Hr.
  - exists {| num_uf := u'; group_ids := group_ids st; next_id := next_id st |}, a.
    split; [done|]. split_and!; simpl.
    + done.
    + lia.
    + by eapply same_roots_trans.
    + done.
    + done.
    + apply Forall2_app; [done|]. repeat constructor. by exists r.
    + apply first_seen_snoc_old; eauto.
  - destruct (iloc_Ok affiliations i Hi) as [aff ->]. simpl.
    eexists _, (next_id st). split; [reflexivity|]. split_and!; simpl.
    + done.
    + lia.
    + by eapply same_roots_trans.
    + intros r' a. rewrite lookup_insert. case_decide.
      * intros [= <-]. lia.
      * intros H'. apply Hlt in H'. lia.
    + intros r1 r2 a. rewrite !lookup_insert.
      repeat case_decide; subst; try done.
      * intros [= <-] H2. apply Hlt in H2. lia.
      * intros H1 [= <-]. apply Hlt in H1. lia.
      * apply Hinj.
    + apply Forall2_app.
      * eapply Forall2_impl; [exact Hids|].
        intros j a (r' & Hr' & Ha). exists r'. split; [done|].
        rewrite lookup_insert_ne; [done|]. intros <-. congruence.
      * repeat constructor. exists r. split; [done|].
        by rewrite lookup_insert_eq.
    + replace (next_id st + 1)%nat with (S (next_id st)) by lia.
      by apply first_seen_snoc_new.
Qed.

Lemma number_groups_spec (fuel : nat) (affiliations : list string)
    (p0 : list nat) (todo : list nat) (st : numbering) (done ids : list nat) :
  (length affiliations < fuel)%nat → length p0 = length affiliations →
  Forall (λ i, (i < length affiliations)%nat) todo →
  num_ok p0 st done ids →
  ∃ st' ids', number_groups fuel affiliations todo st = Ok st' ∧
              num_ok p0 st' (done ++ todo) (ids ++ ids').
Proof.
  intros Hfuel Hp0. revert st done ids.
  induction todo as [|i todo IH]; intros st done ids Hall Hok.
  - exists st, []. by rewrite !app_nil_r.
  - apply Forall_cons in Hall as [Hi Hall].
    destruct (number_step_spec fuel affiliations p0 st done ids i)
      as (st1 & id & Hstep & Hok1); [done..|].
    destruct (IH st1 (done ++ [i]) (ids ++ [id]) Hall Hok1)
      as (st' & ids' & Hrest & Hok').
    exists st', (id :: ids'). simpl. rewrite Hstep. simpl.
    split; [done|]. by rewrite <- !app_assoc in Hok'.
Qed.

Lemma collect_ids_spec (fuel : nat) (p0 : list nat) (G : gmap nat nat)
    (todo ids : list nat) (u : UnionFind) (acc : list nat) :
  (length p0 < fuel)%nat →
  wf u → length (parent u) = length p0 → same_roots p0 (parent u) →
  Forall (λ i, (i < length p0)%nat) todo →
  Forall2 (assigned p0 G) todo ids →
  ∃ u', collect_ids fuel G todo u acc = Ok (acc ++ ids, u').
Proof.
  intros Hfuel Hwf Hlen Hsame Hall Hids. revert u acc Hwf Hlen Hsame Hall.
  induction Hids as [|i id todo ids (r & Hr & Hid) _ IH];
    intros u acc Hwf Hlen Hsame Hall.
  - exists u. simpl. by rewrite app_nil_r.
  - apply Forall_cons in Hall as [Hi Hall].
    destruct (find_spec fuel u i Hwf ltac:(lia) ltac:(lia))
      as (r' & u' & Hfind & Hwf' & Hlen' & Hreach & Hsame').
    assert (r' = r) as ->.
    { eapply reaches_deterministic; [|exact Hr]. by apply Hsame. }
    simpl. rewrite Hfind. simpl. rewrite Hid.
    destruct (IH u' (acc ++ [id]) Hwf') as [u'' Hrest].
    + lia.
    + by eapply same_roots_trans.
    + done.
    + exists u''. by rewrite Hrest, <- app_assoc.
Qed.

Lemma number_groups_mono (fuel fuel' : nat) (affiliations : list string)
    (todo : list nat) (st : numbering) res :
  (fuel ≤ fuel')%nat →
  number_groups fuel affiliations todo st = Ok res →
  number_groups fuel' affiliations todo st = Ok res.
Proof.
  intros Hle. revert st. induction todo as [|i todo IH]; intros st; [done|].
  simpl.
  assert (Hstep : ∀ st1, number_step fuel affiliations st i = Ok st1 →
                         number_step fuel' affiliations st i = Ok st1).
  { intros st1. unfold number_step.
    destruct (find fuel (num_uf st) i) as [[r u1]| |] eqn:H1; simpl; [|done..].
    by rewrite (find_mono fuel fuel' _ _ _ Hle H1). }
  destruct (number_step fuel affiliations st i) as [st1| |]; simpl; [|done..].
  rewrite (Hstep st1) by done. simpl. apply IH.
Qed.

Lemma collect_ids_mono (fuel fuel' : nat) (G : gmap nat nat)
    (todo : list nat) (u : UnionFind) (acc : list nat) res :
  (fuel ≤ fuel')%nat →
  collect_ids fuel G todo u acc = Ok res →
  collect_ids fuel' G todo u acc = Ok res.
Proof.
  intros Hle. revert u acc. induction todo as [|i todo IH]; intros u acc; [done|].
  simpl.
  destruct (find fuel u i) as [[r u1]| |] eqn:H1; simpl; [|done..].
  rewrite (find_mono fuel fuel' _ _ _ Hle H1). simpl.
  destruct (G !! r); [apply IH|done].
Qed.

Lemma assign_ids_mono (fuel fuel' : nat) (affiliations : list string)
    (u : UnionFind) res :
  (fuel ≤ fuel')%nat →
  assign_ids fuel affiliations u = Ok res →
  assign_ids fuel' affiliations u = Ok res.
Proof.
  intros Hle. unfold assign_ids.
  destruct (number_groups fuel affiliations _ _) as [num| |] eqn:H1;
    simpl; [|done..].
  rewrite (number_groups_mono fuel fuel' _ _ _ _ Hle H1). simpl.
  destruct (collect_ids fuel _ _ _ _) as [[ids u']| |] eqn:H2; simpl; [|done..].
  by rewrite (collect_ids_mono fuel fuel' _ _ _ _ _ Hle H2).
Qed.

Lemma Forall_seq_lt (n : nat) : Forall (λ i, (i < n)%nat) (seq 0 n).
Proof. apply Forall_forall. intros i Hi. apply elem_of_seq in Hi. lia. Qed.

(** The identities given to the entries of a well-formed structure:
    numbered in first-seen order, and equal exactly for entries with the
    same root. *)
Lemma assign_ids_spec (fuel : nat) (affiliations : list string) (u : UnionFind) :
  (length affiliations < fuel)%nat →
  wf u → length (parent u) = length affiliations →
  ∃ ids groups,
    assign_ids fuel affiliations u = Ok ids ∧
    length ids = length affiliations ∧
    first_seen 0 ids groups ∧
    ∀ i j a b, ids !! i = Some a → ids !! j = Some b →
      (a = b ↔ ∃ r, reaches (parent u) i r ∧ reaches (parent u) j r).
Proof.
  intros Hfuel Hwf Hlen. set (n := length affiliations) in *.
  destruct (number_groups_spec fuel affiliations (parent u) (seq 0 n)
              {| num_uf := u; group_ids := ∅; next_id := 0 |} [] [])
    as (num & ids & Hnum & Hok); [done|done|apply Forall_seq_lt| |].
  { split_and!; simpl; first [done | apply same_roots_refl | constructor]. }
  simpl in Hok.
  destruct Hok as (Hwf' & Hlen' & Hsame' & Hlt & Hinj & Hids & Hseen).
  destruct (collect_ids_spec fuel (parent u) (group_ids num) (seq 0 n) ids
              (num_uf num) []) as [u' Hcollect]; [lia|done..| |done|].
  { rewrite Hlen. apply Forall_seq_lt. }
  exists ids, (next_id num). split_and!.
  - unfold assign_ids. fold n. rewrite Hnum. simpl. by rewrite Hcollect.
  - apply Forall2_length in Hids. rewrite length_seq in Hids. done.
  - done.
  - intros i j a b Ha Hb.
    assert (Hi : seq 0 n !! i = Some i).
    { apply lookup_seq. split; [done|].
      apply lookup_lt_Some in Ha. apply Forall2_length in Hids.
      rewrite length_seq in Hids. lia. }
    assert (Hj : seq 0 n !! j = Some j).
    { apply lookup_seq. split; [done|].
      apply lookup_lt_Some in Hb. apply Forall2_length in Hids.
      rewrite length_seq in Hids. lia. }
    destruct (Forall2_lookup_lr _ _ _ _ _ _ Hids Hi Ha) as (ri & Hri & Gi).
    destruct (Forall2_lookup_lr _ _ _ _ _ _ Hids Hj Hb) as (rj & Hrj & Gj).
    split.
    + intros <-. exists ri. split; [done|].
      by rewrite (Hinj ri rj a Gi Gj).
    + intros (r & Hir & Hjr).
      rewrite (reaches_deterministic _ _ _ _ Hri Hir) in Gi.
      rewrite (reaches_deterministic _ _ _ _ Hrj Hjr) in Gj. congruence.
Qed.

(** *** [process_author_group] *)

Lemma process_author_group_mono (net : network) (fuel fuel' : nat)
    (affiliations : list string) (w : world) res :
  (fuel ≤ fuel')%nat →
  process_author_group net fuel affiliations w = Ok res →
  process_author_group net fuel' affiliations w = Ok res.
Proof.
  intros Hle. unfold process_author_group.
  destruct (length affiliations =? 1)%nat; [done|].
  destruct (cluster net fuel affiliations w) as [st| |] eqn:H1; simpl; [|done..].
  rewrite (cluster_mono net fuel fuel' _ _ _ Hle H1). simpl.
  destruct (assign_ids fuel affiliations (uf st)) as [ids| |] eqn:H2;
    simpl; [|done..].
  by rewrite (assign_ids_mono fuel fuel' _ _ _ Hle H2).
Qed.

(** C7.  For the entries of one author name, [process_author_group]
    returns one identity for each entry, whatever the replies of the
    model.  The identities are the integers from 0 up to the number of
    groups, given out in first-seen order: scanning the entries in their
    order, each one has an identity given out before or the next unused
    integer.  Two entries have the same identity exactly when the
    clustering left them under the same root.  The result is a function
    of the entries and of the replies alone: every recursion depth that
    exceeds the number of entries gives it. *)
Theorem process_author_group_first_seen
    (net : network) (affiliations : list string) (w : world) :
  ∃ ids w' groups,
    (∀ fuel, (length affiliations < fuel)%nat →
       process_author_group net fuel affiliations w = Ok (ids, w')) ∧
    length ids = length affiliations ∧
    first_seen 0 ids groups ∧
    (∀ id, id ∈ ids ↔ (id < groups)%nat) ∧
    (length affiliations ≠ 1%nat →
     ∃ st,
       (∀ fuel, (length affiliations < fuel)%nat →
          cluster net fuel affiliations w = Ok st) ∧
       ∀ i j a b, ids !! i = Some a → ids !! j = Some b →
         (a = b ↔ ∃ r, reaches (parent (uf st)) i r ∧
                       reaches (parent (uf st)) j r)).
Proof.
  set (n := length affiliations).
  assert (Hrange : ∀ ids groups, first_seen 0 ids groups →
            ∀ id, id ∈ ids ↔ (id < groups)%nat).
  { intros ids groups Hseen id.
    destruct (first_seen_range _ _ _ Hseen) as (_ & Hin & Hall).
    split; [apply Hin|]. intros Hid. apply Hall. lia. }
  destruct (decide (n = 1%nat)) as [Hone|Hmany].
  - exists [0%nat], w, 1%nat.
    assert (Hseen : first_seen 0 [0%nat] 1) by (repeat constructor).
    split_and!; [|done|done|by apply Hrange|done].
    intros fuel _. unfold process_author_group. fold n. by rewrite Hone.
  - destruct (cluster_spec net (S n) affiliations w ltac:(lia))
      as (st & Hcluster & Hwf & Hlen).
    destruct (assign_ids_spec (S n) affiliations (uf st) ltac:(lia) Hwf Hlen)
      as (ids & groups & Hassign & Hlength & Hseen & Hsame).
    exists ids, (outside st), groups. split_and!; [|done|done|by apply Hrange|].
    + intros fuel Hfuel.
      apply (process_author_group_mono net (S n) fuel); [unfold n; lia|].
      unfold process_author_group. fold n.
      destruct (Nat.eqb_spec n 1) as [?|_]; [done|].
      rewrite Hcluster. simpl. by rewrite Hassign.
    + intros _. exists st. split; [|done].
      intros fuel Hfuel.
      apply (cluster_mono net (S n) fuel); [unfold n; lia|done].
Qed.

(** The example of the specification: A and B are of one hospital, the
    model tells C from A and from B; A and B get the identity 0 and C
    the identity 1, after two requests and a second of waiting after
    each. *)
Lemma process_author_group_smith :
  process_author_group says_different 4 smith_affiliations world0
    = Ok ([0; 0; 1]%nat, {| requests := 2; slept := [1; 1] |}).
Proof. vm_compute. reflexivity. Qed.

Lemma process_author_group_first_seen_witness :
  ∃ groups,
    process_author_group says_different 4 smith_affiliations world0
      = Ok ([0; 0; 1]%nat, {| requests := 2; slept := [1; 1] |}) ∧
    first_seen 0 [0; 0; 1]%nat groups.
Proof.
  destruct (process_author_group_first_seen says_different
              smith_affiliations world0)
    as (ids & w' & groups & Hrun & _ & Hseen & _).
  specialize (Hrun 4%nat ltac:(simpl; lia)).
  rewrite process_author_group_smith in Hrun.
  injection Hrun as <- _.
  exists groups. split; [reflexivity|exact Hseen].
Defined.

(** A single entry gets the identity 0 and no request is made. *)
Lemma process_author_group_single (net : network) (fuel : nat)
    (affiliation : string) (w : world) :
  process_author_group net fuel [affiliation] w = Ok ([0%nat], w).
Proof. reflexivity. Qed.

End ResolverFacts.

(* --------------------------------------------------------------------- *)
(** ** Snapshot store: further properties *)
(* --------------------------------------------------------------------- *)

Module SnapshotMore.
Import Snapshot SnapshotFacts.

(** *** What [merge_new_articles] returns *)

Lemma is_Some_foldl_index_value (k : string) (cur : option row) (l : list row) :
  is_Some (foldl (index_value k) cur l) ↔ is_Some cur ∨ k ∈ pmid_of <$> l.
Proof.
  revert cur. induction l as [|x l IH]; intros cur; simpl.
  - split; [by left|]. intros [?|H]; [done|]. by apply elem_of_nil in H.
  - rewrite IH, elem_of_cons. unfold index_value. case_decide as Hx.
    + split; [intros _; right; by left|]. intros _. left. by eexists.
    + split; [tauto|]. intros [?|[?|?]]; [tauto|congruence|tauto].
Qed.

Lemma is_Some_foldl_merge_value (k : string) (cur : option row) (l : list row) :
  is_Some (foldl (merge_value k) cur l) ↔ is_Some cur ∨ k ∈ pmid_of <$> l.
Proof.
  revert cur. induction l as [|x l IH]; intros cur; simpl.
  - split; [by left|]. intros [?|H]; [done|]. by apply elem_of_nil in H.
  - rewrite IH, elem_of_cons. unfold merge_value. case_decide as Hx.
    + split; [intros _; right; by left|]. intros _. left. by eexists.
    + split; [tauto|]. intros [?|[?|?]]; [tauto|congruence|tauto].
Qed.

Lemma od_get_is_Some (m : odict) (k : string) : is_Some (od_get m k) ↔ k ∈ m.*1.
Proof.
  rewrite <- not_eq_None_Some, od_get_None.
  destruct (decide (k ∈ m.*1)); tauto.
Qed.

Lemma keyed_values (m : odict) : keyed m → pmid_of <$> od_values m = m.*1.
Proof.
  intros [_ Hkeys]. unfold od_values.
  induction m as [|[k v] m IH]; [done|].
  rewrite !fmap_cons. simpl. f_equal.
  - apply pmid_of_lookup, Hkeys. left.
  - apply IH. intros k' v' Hin. apply Hkeys. by right.
Qed.

(** The dict after both loops, for lists whose records all have an
    identifier. *)
Lemma merge_dict (existing_articles new_articles : list row) :
  Forall has_pmid existing_articles → Forall has_pmid new_articles →
  ∃ m, merge_new_articles existing_articles new_articles = Ok (od_values m) ∧
       keyed m ∧
       ∀ k, k ∈ m.*1 ↔
            k ∈ pmid_of <$> existing_articles ∨ k ∈ pmid_of <$> new_articles.
Proof.
  intros Hex Hnew.
  destruct (index_by_pmid_spec existing_articles [] Hex keyed_nil)
    as (m0 & Hindex & Hkeyed0 & Hget0).
  destruct (merge_loop_spec new_articles m0 Hnew Hkeyed0)
    as (m' & Hloop & Hkeyed' & Hget').
  exists m'. split_and!; [|done|].
  - unfold merge_new_articles. rewrite Hindex. simpl. by rewrite Hloop.
  - intros k. rewrite <- od_get_is_Some, Hget', is_Some_foldl_merge_value.
    rewrite Hget0, is_Some_foldl_index_value. simpl.
    split; [intros [[H|?]|?]; [by destruct H|tauto..]|tauto].
Qed.

(** X1. Whatever the two lists hold, as long as every record has an
    identifier, the merged list holds every identifier of either list
    once and no other. *)
Theorem merge_new_articles_unique_ids (existing_articles new_articles : list row) :
  Forall has_pmid existing_articles → Forall has_pmid new_articles →
  ∃ out,
    merge_new_articles existing_articles new_articles = Ok out ∧
    NoDup (pmid_of <$> out) ∧
    ∀ p, p ∈ pmid_of <$> out ↔
         p ∈ pmid_of <$> existing_articles ∨ p ∈ pmid_of <$> new_articles.
Proof.
  intros Hex Hnew.
  destruct (merge_dict existing_articles new_articles Hex Hnew)
    as (m & Hmerge & Hkeyed & Hkeys).
  exists (od_values m). rewrite keyed_values by done.
  split_and!; [done| |done]. by destruct Hkeyed.
Qed.

Lemma merge_new_articles_unique_ids_witness :
  ∃ out,
    merge_new_articles rows_with_duplicates [new_row; other_row] = Ok out ∧
    NoDup (pmid_of <$> out) ∧
    ∀ p, p ∈ pmid_of <$> out ↔
         p ∈ pmid_of <$> rows_with_duplicates ∨
         p ∈ pmid_of <$> [new_row; other_row].
Proof.
  apply (merge_new_articles_unique_ids rows_with_duplicates [new_row; other_row]).
  - repeat constructor; eexists; reflexivity.
  - repeat constructor; eexists; reflexivity.
Defined.

(** *** A record without identifier *)

Lemma index_by_pmid_KeyError (articles : list row) (m : odict) :
  ¬ Forall has_pmid articles →
  index_by_pmid articles m = Raise (KeyError "PMID").
Proof.
  revert m. induction articles as [|r articles IH]; intros m Hnot.
  - destruct Hnot. constructor.
  - simpl. unfold getitem. destruct (r !! "PMID") as [pmid|] eqn:Hr; [|done].
    simpl. apply IH. intros Hall. apply Hnot. constructor; [by eexists|done].
Qed.

Lemma merge_loop_KeyError (new_articles : list row) (m : odict) :
  ¬ Forall has_pmid new_articles →
  merge_loop new_articles m = Raise (KeyError "PMID").
Proof.
  revert m. induction new_articles as [|r rest IH]; intros m Hnot.
  - destruct Hnot. constructor.
  - simpl. unfold merge_one, getitem.
    destruct (r !! "PMID") as [pmid|] eqn:Hr; [|done]. simpl.
    assert (Hrest : ¬ Forall has_pmid rest).
    { intros Hall. apply Hnot. constructor; [by eexists|done]. }
    destruct (od_get m pmid); simpl; by apply IH.
Qed.

(** X2. A record without a ['PMID'] key, in either list, makes the merge
    raise [KeyError]; nothing is returned. *)
Theorem merge_new_articles_missing_pmid (existing_articles new_articles : list row) :
  ¬ Forall has_pmid (existing_articles ++ new_articles) →
  merge_new_articles existing_articles new_articles = Raise (KeyError "PMID").
Proof.
  intros Hnot. unfold merge_new_articles.
  destruct (decide (Forall has_pmid existing_articles)) as [Hex|Hex].
  - destruct (index_by_pmid_spec existing_articles [] Hex keyed_nil)
      as (m0 & -> & _). simpl.
    rewrite merge_loop_KeyError; [done|].
    intros Hnew. apply Hnot. by apply Forall_app.
  - by rewrite index_by_pmid_KeyError.
Qed.

Lemma merge_new_articles_missing_pmid_witness :
  merge_new_articles [old_row] [{["Title" := "No identifier"]}]
    = Raise (KeyError "PMID").
Proof.
  apply (merge_new_articles_missing_pmid [old_row] [{["Title" := "No identifier"]}]).
  intros Hall. apply Forall_app in Hall as [_ Hnew].
  apply Forall_inv in Hnew. destruct Hnew as [v Hv]. discriminate.
Defined.

(** *** New records only *)

Lemma merge_loop_fresh (new_articles : list row) (m : odict) :
  Forall has_pmid new_articles →
  NoDup (m.*1 ++ (pmid_of <$> new_articles)) →
  merge_loop new_articles m = Ok (m ++ ((λ r, (pmid_of r, r)) <$> new_articles)).
Proof.
  revert m. induction new_articles as [|r rest IH]; intros m Hall Hnd; simpl.
  - by rewrite app_nil_r.
  - apply Forall_cons in Hall as [Hr Hall].
    assert (Hfresh : pmid_of r ∉ m.*1).
    { apply NoDup_app in Hnd as (_ & Hdisj & _).
      intros Hin. apply (Hdisj _ Hin). left. }
    unfold merge_one. rewrite getitem_pmid_of by done. simpl.
    rewrite (proj2 (od_get_None m (pmid_of r)) Hfresh). simpl.
    rewrite od_set_fresh by done.
    rewrite IH; [by rewrite <- app_assoc|done|].
    rewrite fmap_app. simpl. by rewrite <- app_assoc.
Qed.

(** X3. When the identifiers of the old and of the new records are pairwise
    distinct all together -- which is how [main] calls the merge, the
    crawl having dropped every known identifier -- the merged list is
    the old records, untouched, followed by the new ones in their
    order. *)
Theorem merge_new_articles_appends (existing_articles new_articles : list row) :
  Forall has_pmid existing_articles → Forall has_pmid new_articles →
  NoDup ((pmid_of <$> existing_articles) ++ (pmid_of <$> new_articles)) →
  merge_new_articles existing_articles new_articles
    = Ok (existing_articles ++ new_articles).
Proof.
  intros Hex Hnew Hnd. unfold merge_new_articles.
  rewrite index_by_pmid_distinct; [|done|].
  2:{ simpl. by apply NoDup_app in Hnd as (? & _ & _). }
  simpl. rewrite merge_loop_fresh; [|done|].
  2:{ rewrite <- list_fmap_compose. exact Hnd. }
  simpl. unfold od_values. rewrite <- fmap_app, <- list_fmap_compose.
  f_equal. apply list_fmap_id.
Qed.

Lemma merge_new_articles_appends_witness :
  merge_new_articles [old_row] [other_row] = Ok [old_row; other_row].
Proof.
  apply (merge_new_articles_appends [old_row] [other_row]).
  - repeat constructor; eexists; reflexivity.
  - repeat constructor; eexists; reflexivity.
  - apply (bool_decide_unpack _). vm_compute. reflexivity.
Defined.

(** *** De-duplication twice *)

Lemma kept_entries_clean (rows : list row) :
  NoDup (pmid_of <$> rows) → "" ∉ pmid_of <$> rows →
  kept_entries rows = rows ∧ removed_count rows = 0%nat.
Proof.
  induction rows as [|r pre IH] using rev_ind; intros Hnd Hne; [done|].
  rewrite fmap_app in Hnd, Hne. simpl in *.
  apply NoDup_app in Hnd as (Hnd & Hdisj & _).
  apply not_elem_of_app in Hne as [Hne Hr].
  destruct (IH Hnd Hne) as [Hkept Hcount].
  rewrite kept_entries_snoc, removed_count_snoc, Hkept, Hcount.
  assert (Hrem : removed_entry (pre ++ [r]) (length pre) = false).
  { apply removed_entry_last_false. split.
    - intros Heq. apply Hr. rewrite Heq. left.
    - intros Hin. apply (Hdisj _ Hin). left. }
  by rewrite Hrem.
Qed.

Lemma readable_sublist (l k : list row) :
  l `sublist_of` k → Forall readable k → Forall readable l.
Proof.
  intros Hsub Hall. apply Forall_forall. intros r Hr.
  rewrite Forall_forall in Hall. apply Hall.
  eapply elem_of_submseteq; [exact Hr|]. by apply sublist_submseteq.
Qed.

(** X4. A second de-duplication pass over the result of a first one finds
    nothing to remove and leaves the file as it is. *)
Theorem remove_duplicate_pmids_idempotent (rows : list row) :
  Forall readable rows →
  ∃ out removed,
    remove_duplicate_pmids rows = Ok (out, removed) ∧
    remove_duplicate_pmids out = Ok (out, 0%nat).
Proof.
  intros Hall.
  destruct (dedup_loop_spec rows Hall) as (st & Hloop & Huniq & Hcount & _).
  assert (Hfirst : remove_duplicate_pmids rows
                   = Ok (kept_entries rows, removed_count rows)).
  { unfold remove_duplicate_pmids. rewrite Hloop. simpl.
    rewrite Hcount, Huniq.
    destruct (Nat.eqb_spec (removed_count rows) 0) as [Hzero|_]; [|done].
    rewrite Hzero. do 2 f_equal. symmetry.
    apply sublist_same_length; [apply kept_entries_sublist|].
    pose proof (kept_entries_length rows). lia. }
  exists (kept_entries rows), (removed_count rows). split; [done|].
  assert (Hkept : Forall readable (kept_entries rows)).
  { eapply readable_sublist; [apply kept_entries_sublist|done]. }
  destruct (kept_entries_clean (kept_entries rows)) as [Hsame Hzero].
  { apply kept_entries_NoDup. }
  { intros Hin. apply kept_entries_pmids in Hin. tauto. }
  destruct (dedup_loop_spec (kept_entries rows) Hkept)
    as (st' & Hloop' & _ & Hcount' & _).
  unfold remove_duplicate_pmids. rewrite Hloop'. simpl.
  by rewrite Hcount', Hzero.
Qed.

Lemma remove_duplicate_pmids_idempotent_witness :
  ∃ out removed,
    remove_duplicate_pmids rows_with_duplicates = Ok (out, removed) ∧
    remove_duplicate_pmids out = Ok (out, 0%nat).
Proof.
  apply (remove_duplicate_pmids_idempotent rows_with_duplicates).
  repeat constructor; eexists; reflexivity.
Defined.

End SnapshotMore.

(* --------------------------------------------------------------------- *)
(** ** The store step of [main] *)
(* --------------------------------------------------------------------- *)

Module StoreFacts.
Import Snapshot SnapshotFacts SnapshotMore Store.

Lemma load_step_identified (acc : gset string * list row) (r : row) :
  load_step acc r =
  if decide (identified r) then ({[pmid_of r]} ∪ acc.1, acc.2 ++ [r]) else acc.
Proof.
  destruct acc as [pmids articles]. unfold load_step.
  case_decide as Hid; unfold identified, pmid_of in *;
    destruct (r !! "PMID") as [pmid|]; simpl in *; try done.
  - by rewrite Hid.
  - by destruct (truthy pmid).
Qed.

Lemma load_step_fold (rows : list row) (acc : gset string * list row) :
  foldl load_step acc rows =
  (list_to_set (pmid_of <$> filter identified rows) ∪ acc.1,
   acc.2 ++ filter identified rows).
Proof.
  revert acc. induction rows as [|r rows IH]; intros [pmids articles].
  - simpl. rewrite app_nil_r. f_equal. symmetry. apply (left_id_L ∅ (∪)).
  - change (foldl load_step (pmids, articles) (r :: rows))
      with (foldl load_step (load_step (pmids, articles) r) rows).
    rewrite IH, load_step_identified.
    destruct (decide (identified r)) as [Hid|Hid]; simpl.
    + rewrite filter_cons_True by done.
      rewrite fmap_cons, <- app_assoc. simpl. f_equal.
      rewrite (assoc_L (∪)). f_equal. apply (comm_L (∪)).
    + by rewrite filter_cons_False.
Qed.

Lemma load_existing_data_identifiers (file : option (list row)) :
  let '(existing_pmids, existing_articles) := load_existing_data file in
  (∀ p, p ∈ existing_pmids ↔ p ∈ pmid_of <$> existing_articles) ∧
  Forall (λ r, has_pmid r ∧ pmid_of r ≠ "") existing_articles.
Proof.
  destruct file as [rows|]; simpl.
  2:{ split; [|constructor].
      intros p. split; intros H; [by apply not_elem_of_empty in H|].
      by apply elem_of_nil in H. }
  rewrite load_step_fold. simpl. split.
  - intros p. rewrite elem_of_union, elem_of_list_to_set.
    split; [intros [?|H]; [done|by apply not_elem_of_empty in H]|by left].
  - apply Forall_forall. intros r Hr.
    apply list_elem_of_filter in Hr as [Hid _]. unfold identified in Hid.
    split.
    + unfold has_pmid. unfold pmid_of in Hid.
      destruct (r !! "PMID"); [by eexists|done].
    + by apply truthy_true.
Qed.

(** X5. [load_existing_data] keeps, in their order, the rows that have a
    non-empty identifier, and the set it returns with them is the set of
    their identifiers; a missing file gives the empty set and no row. *)
Theorem load_existing_data_consistent (file : option (list row)) :
  let '(existing_pmids, existing_articles) := load_existing_data file in
  existing_articles = filter identified (default [] file) ∧
  (∀ p, p ∈ existing_pmids ↔ p ∈ pmid_of <$> existing_articles) ∧
  Forall (λ r, has_pmid r ∧ pmid_of r ≠ "") existing_articles ∧
  (file = None → existing_pmids = ∅ ∧ existing_articles = []).
Proof.
  pose proof (load_existing_data_identifiers file) as Hids.
  destruct file as [rows|]; simpl in *.
  - rewrite load_step_fold in *. simpl in *.
    destruct Hids as [Hset Hall]. by split_and!.
  - destruct Hids as [Hset Hall]. by split_and!.
Qed.

(** *** From the loaded snapshot to the new file *)

Lemma main_merge_spec (existing_articles new_articles : list row) :
  Forall has_pmid existing_articles → Forall has_pmid new_articles →
  ∃ all_articles,
    main_merge existing_articles new_articles = Ok all_articles ∧
    Forall has_pmid all_articles ∧
    ∀ p, p ∈ pmid_of <$> all_articles ↔
         p ∈ pmid_of <$> existing_articles ∨ p ∈ pmid_of <$> new_articles.
Proof.
  intros Hex Hnew. destruct new_articles as [|nw rest].
  - exists existing_articles. split_and!; [done..|].
    intros p. split; [by left|]. intros [?|H]; [done|]. by apply elem_of_nil in H.
  - destruct (merge_dict existing_articles (nw :: rest) Hex Hnew)
      as (m & Hmerge & Hkeyed & Hkeys).
    exists (od_values m). split_and!; [done| |].
    + apply Forall_forall. intros r Hr. unfold od_values in Hr.
      apply list_elem_of_fmap in Hr as ([k v] & -> & Hin).
      destruct Hkeyed as [_ Hk]. exists k. by apply Hk.
    + intros p. by rewrite keyed_values.
Qed.

Lemma written_row_lookup (all_articles : list row) (article : row) (field : string) :
  field ∈ base_fields →
  (article ∪ gset_to_gmap "" (fieldnames all_articles)) !! field =
  Some (default "" (article !! field)).
Proof.
  intros Hfield. rewrite lookup_union.
  rewrite lookup_gset_to_gmap, option_guard_True.
  - by destruct (article !! field).
  - unfold fieldnames. apply elem_of_union_l. by apply elem_of_list_to_set.
Qed.

Lemma written_rows_readable (all_articles : list row) :
  Forall readable (written_rows all_articles).
Proof.
  apply Forall_forall. intros r Hr. unfold written_rows in Hr.
  apply list_elem_of_fmap in Hr as (article & -> & _).
  split; eexists; apply written_row_lookup; unfold base_fields;
    repeat first [left | right].
Qed.

Lemma written_rows_pmids (all_articles : list row) :
  pmid_of <$> written_rows all_articles = pmid_of <$> all_articles.
Proof.
  unfold written_rows. rewrite <- list_fmap_compose.
  apply list_fmap_ext. intros _ article _. simpl.
  unfold pmid_of at 1. rewrite written_row_lookup; [done|].
  unfold base_fields. do 2 right. left.
Qed.

Lemma remove_duplicate_pmids_kept (rows : list row) :
  Forall readable rows →
  remove_duplicate_pmids rows = Ok (kept_entries rows, removed_count rows).
Proof.
  intros Hall.
  destruct (dedup_loop_spec rows Hall) as (st & Hloop & Huniq & Hcount & _).
  unfold remove_duplicate_pmids. rewrite Hloop. simpl.
  rewrite Hcount, Huniq.
  destruct (Nat.eqb_spec (removed_count rows) 0) as [Hzero|_]; [|done].
  rewrite Hzero. do 2 f_equal. symmetry.
  apply sublist_same_length; [apply kept_entries_sublist|].
  pose proof (kept_entries_length rows). lia.
Qed.

Lemma pmid_of_article_row (a : Article) : pmid_of (article_row a) = PMID a.
Proof. unfold pmid_of, article_row. by simplify_map_eq. Qed.

Lemma has_pmid_article_row (a : Article) : has_pmid (article_row a).
Proof. exists (PMID a). unfold article_row. by simplify_map_eq. Qed.

(** X6. Whatever snapshot was loaded and whatever the crawl returned, the
    store step of [main] does not raise; it saves nothing only when
    there is no record at all, and otherwise the rows of the new file
    have pairwise distinct identifiers, which are the non-empty
    identifiers of the loaded rows and of the crawled articles. *)
Theorem main_store_unique_identifiers
    (latest_file : option (list row)) (new_articles : list Article) :
  ∃ saved,
    main_store latest_file new_articles = Ok saved ∧
    match saved with
    | None => (load_existing_data latest_file).2 = [] ∧ new_articles = []
    | Some rows =>
        NoDup (pmid_of <$> rows) ∧
        ∀ p, p ∈ pmid_of <$> rows ↔
             p ≠ "" ∧ (p ∈ (load_existing_data latest_file).1 ∨
                       p ∈ PMID <$> new_articles)
    end.
Proof.
  pose proof (load_existing_data_identifiers latest_file) as Hload.
  unfold main_store.
  destruct (load_existing_data latest_file) as [existing_pmids existing_articles].
  destruct Hload as (Hset & Hex). simpl.
  assert (Hex' : Forall has_pmid existing_articles).
  { eapply Forall_impl; [exact Hex|]. simpl. tauto. }
  assert (Hnew : Forall has_pmid (article_row <$> new_articles)).
  { apply Forall_fmap, Forall_forall. intros a _. apply has_pmid_article_row. }
  destruct (main_merge_spec _ _ Hex' Hnew) as (all_articles & -> & Hall & Hids).
  simpl.
  assert (Hnew_ids : pmid_of <$> (article_row <$> new_articles)
                     = PMID <$> new_articles).
  { rewrite <- list_fmap_compose. apply list_fmap_ext.
    intros _ a _. apply pmid_of_article_row. }
  rewrite Hnew_ids in Hids.
  destruct all_articles as [|first rest] eqn:Hwhat.
  - exists None. split; [done|]. split.
    + destruct existing_articles as [|r l]; [done|].
      exfalso. apply (not_elem_of_nil (pmid_of r)).
      apply (Hids (pmid_of r)). left. left.
    + destruct new_articles as [|a l]; [done|].
      exfalso. apply (not_elem_of_nil (PMID a)).
      apply (Hids (PMID a)). right. left.
  - rewrite <- Hwhat in *.
    rewrite remove_duplicate_pmids_kept by apply written_rows_readable.
    simpl. eexists. split; [reflexivity|]. split.
    + apply kept_entries_NoDup.
    + intros p. rewrite kept_entries_pmids, written_rows_pmids, Hids, Hset.
      done.
Qed.

End StoreFacts.

(* --------------------------------------------------------------------- *)
(** ** Interval crawl planner: further properties *)
(* --------------------------------------------------------------------- *)

Module PlannerMore.
Import Planner PlannerFacts.

Lemma page_step_app parse_page (existing_pmids : gset string)
    (articles : list Article) (page : Z) :
  page_step parse_page existing_pmids articles page =
  articles ++ filter (λ article, PMID article ∉ existing_pmids) (parse_page page).
Proof.
  unfold page_step. destruct (parse_page page) as [|a l]; [by rewrite app_nil_r|].
  destruct (filter _ (a :: l)); [by rewrite app_nil_r|done].
Qed.

Lemma foldl_page_step parse_page (existing_pmids : gset string)
    (pages : list Z) (articles : list Article) :
  foldl (page_step parse_page existing_pmids) articles pages =
  articles ++
  (pages ≫= λ page,
     filter (λ article, PMID article ∉ existing_pmids) (parse_page page)).
Proof.
  revert articles. induction pages as [|page pages IH]; intros articles.
  - simpl. by rewrite app_nil_r.
  - simpl foldl. rewrite IH, page_step_app, bind_cons. by rewrite app_assoc.
Qed.

(** X7. The articles [crawl_time_interval] collects are the articles with an
    unknown identifier of the result pages 1 to 50 that the count
    reaches, page [p] being reached when more than [200 * (p - 1)] hits
    are reported: no known identifier is collected, and no page beyond
    the fiftieth is read, whatever the count. *)
Theorem collect_pages_members parse_page (existing_pmids : gset string)
    (total_results : Z) (a : Article) :
  a ∈ collect_pages parse_page existing_pmids total_results ↔
  ((PMID a ∉ existing_pmids) ∧
   ∃ page, 1 ≤ page ≤ 50 ∧ 200 * (page - 1) < total_results ∧ a ∈ parse_page page).
Proof.
  unfold collect_pages. rewrite foldl_page_step. simpl.
  rewrite list_elem_of_bind.
  assert (Hreach : ∀ page, page < 1 + (total_results + 199) / 200 ↔
                           200 * (page - 1) < total_results).
  { intros page.
    pose proof (Z.div_mod (total_results + 199) 200 ltac:(lia)) as Hdm.
    pose proof (Z.mod_pos_bound (total_results + 199) 200 ltac:(lia)) as Hm.
    lia. }
  split.
  - intros (page & Hin & Hpage).
    apply list_elem_of_filter in Hin as [Hnew Hin].
    apply elem_of_seqZ in Hpage. split; [done|].
    exists page. split_and!; [lia|lia| |done]. apply Hreach. lia.
  - intros (Hnew & page & Hrange & Hreached & Hin).
    exists page. split; [by apply list_elem_of_filter|].
    apply elem_of_seqZ. apply Hreach in Hreached. lia.
Qed.

(** *** What a run of [process_time_interval] does to its state *)

Lemma grows_refl existing_pmids st : grows existing_pmids st st.
Proof. exists [], []. by rewrite !app_nil_r. Qed.

Lemma grows_trans existing_pmids st1 st2 st3 :
  grows existing_pmids st1 st2 → grows existing_pmids st2 st3 →
  grows existing_pmids st1 st3.
Proof.
  intros (a1 & e1 & Ha1 & He1 & H1) (a2 & e2 & Ha2 & He2 & H2).
  exists (a1 ++ a2), (e1 ++ e2). rewrite Ha2, He2, Ha1, He1, !app_assoc.
  split_and!; [done..|]. by apply Forall_app.
Qed.

Lemma grows_emit existing_pmids ev st : grows existing_pmids st (emit ev st).
Proof. exists [], [ev]. simpl. by rewrite app_nil_r. Qed.

Lemma collect_pages_unknown parse_page (existing_pmids : gset string)
    (total_results : Z) :
  Forall (λ a, PMID a ∉ existing_pmids)
    (collect_pages parse_page existing_pmids total_results).
Proof.
  unfold collect_pages. rewrite foldl_page_step. simpl.
  apply Forall_forall. intros a Ha.
  apply list_elem_of_bind in Ha as (page & Hin & _).
  by apply list_elem_of_filter in Hin as [? _].
Qed.

(** X8. However the search and the pages answer, a call of
    [process_time_interval] that returns does not raise: a failed count
    or a failed crawl is logged and the interval is left.  The articles
    collected before the call are still there, in their order; what was
    added after them has no known identifier; the log has only grown. *)
Theorem process_time_interval_only_appends
    (get_total_results : Z → Z → result Z)
    (parse_page : Z → Z → Z → list Article) (existing_pmids : gset string)
    (fuel : nat) (start_date end_date : Z) (st : state) (depth : nat) :
  match process_time_interval get_total_results parse_page existing_pmids
          fuel start_date end_date st depth with
  | Ok st' => grows existing_pmids st st'
  | Raise _ => False
  | OutOfFuel => True
  end.
Proof.
  revert start_date end_date st depth.
  induction fuel as [|fuel IH]; intros start_date end_date st depth; [done|].
  simpl.
  set (st0 := emit (Processing start_date end_date depth) st).
  assert (H0 : grows existing_pmids st st0) by apply grows_emit.
  destruct (get_total_results start_date end_date) as [total_results|e|]; [| |done].
  2:{ eapply grows_trans; [exact H0|].
      eapply grows_trans; apply grows_emit. }
  destruct (total_results =? 0).
  { eapply grows_trans; [exact H0|apply grows_emit]. }
  destruct (total_results <=? 10000).
  - rewrite crawl_time_interval_cases.
    pose proof (collect_pages_unknown (parse_page start_date end_date)
                  existing_pmids total_results) as Hnew.
    destruct (collect_pages _ _ _) as [|a l].
    + eapply grows_trans; [exact H0|].
      eapply grows_trans; apply grows_emit.
    + eapply grows_trans; [exact H0|].
      eapply grows_trans; [|apply grows_emit].
      exists (a :: l), []. simpl. by rewrite app_nil_r.
  - set (st1 := emit (Splitting total_results) st0).
    assert (H1 : grows existing_pmids st st1).
    { eapply grows_trans; [exact H0|apply grows_emit]. }
    pose proof (IH start_date (get_mid_date start_date end_date) st1 (S depth))
      as Ha.
    destruct (process_time_interval _ _ _ fuel start_date _ st1 _)
      as [st2| |]; [|done..].
    pose proof (IH (next_day (get_mid_date start_date end_date)) end_date
                  st2 (S depth)) as Hb.
    destruct (process_time_interval _ _ _ fuel _ end_date st2 _)
      as [st3| |]; [|done..].
    eapply grows_trans; [exact H1|].
    eapply grows_trans; [exact Ha|].
    eapply grows_trans; [exact Hb|apply grows_emit].
Qed.

Lemma process_time_interval_terminates_witness :
  ∃ st', process_time_interval small_search known_page {["123"]}
           11 737425 737435 state0 0 = Ok st'.
Proof.
  apply (process_time_interval_terminates small_search known_page {["123"]}).
  - intros start_date end_date. discriminate.
  - intros day total_results [= <-]. lia.
  - lia.
  - simpl. lia.
Defined.

End PlannerMore.

(* --------------------------------------------------------------------- *)
(** ** Fetching from the search site *)
(* --------------------------------------------------------------------- *)

Module FetchFacts.
Import Fetch.

Lemma total_of_reply_cases (r : reply (option string)) :
  (∃ total, total_of_reply r = Ok total) ∨ total_of_reply r = Raise RuntimeError.
Proof.
  destruct r as [| |[text|]]; simpl; try by right.
  destruct (isdigit _); [left; eauto|by right].
Qed.

Lemma total_attempts_success web (max_retries attempt remaining k : nat)
    (w : world) (total : Z) :
  (attempt + remaining = max_retries)%nat → (k < remaining)%nat →
  (∀ j, (j < k)%nat → total_of_reply (web (fetched w + j)%nat) = Raise RuntimeError) →
  total_of_reply (web (fetched w + k)%nat) = Ok total →
  total_attempts web max_retries attempt remaining w =
  (Ok total, {| fetched := (fetched w + k + 1)%nat; pauses := (pauses w + k)%nat |}).
Proof.
  revert attempt k w. induction remaining as [|remaining IH];
    intros attempt k w Hsum Hk Hfail Hgood; [lia|].
  cbn [total_attempts fetch].
  destruct k as [|k].
  - rewrite Nat.add_0_r in Hgood. rewrite Hgood.
    do 2 f_equal; lia.
  - pose proof (Hfail 0%nat ltac:(lia)) as H0. rewrite Nat.add_0_r in H0.
    rewrite H0.
    destruct (Nat.ltb_spec attempt (max_retries - 1)) as [_|Hlast]; [|lia].
    rewrite (IH (S attempt) k); simpl.
    + do 2 f_equal; lia.
    + lia.
    + lia.
    + intros j Hj. replace (S (fetched w + j)) with (fetched w + S j)%nat by lia.
      apply Hfail. lia.
    + replace (S (fetched w + k)) with (fetched w + S k)%nat by lia. done.
Qed.

Lemma total_attempts_failure web (max_retries attempt remaining : nat) (w : world) :
  (attempt + remaining = max_retries)%nat →
  (∀ j, (j < remaining)%nat →
        total_of_reply (web (fetched w + j)%nat) = Raise RuntimeError) →
  total_attempts web max_retries attempt remaining w =
  (Raise RuntimeError,
   {| fetched := (fetched w + remaining)%nat;
      pauses := (pauses w + (remaining - 1))%nat |}).
Proof.
  revert attempt w. induction remaining as [|remaining IH];
    intros attempt w Hsum Hfail.
  - simpl. destruct w. simpl. do 2 f_equal; lia.
  - cbn [total_attempts fetch].
    pose proof (Hfail 0%nat ltac:(lia)) as H0. rewrite Nat.add_0_r in H0.
    rewrite H0.
    rewrite (IH (S attempt)).
    + destruct (Nat.ltb_spec attempt (max_retries - 1)); simpl;
        do 2 f_equal; lia.
    + lia.
    + intros j Hj.
      assert (fetched (if (attempt <? max_retries - 1)%nat
                       then pause {| fetched := S (fetched w); pauses := pauses w |}
                       else {| fetched := S (fetched w); pauses := pauses w |})
              = S (fetched w)) as -> by (by destruct (attempt <? _)%nat).
      replace (S (fetched w) + j)%nat with (fetched w + S j)%nat by lia.
      apply Hfail. lia.
Qed.

(** X10. [get_total_results] makes three requests at most.  It returns the
    count of the first reply that holds one, having paused once before
    each further attempt; when the three replies fail -- an error, a
    CAPTCHA, no count element, a count that is not a number -- it raises
    [RuntimeError], after three requests and two pauses. *)
Theorem get_total_results_retries (web : nat → reply (option string)) (w : world) :
  (∀ k total, (k < 3)%nat →
     (∀ j, (j < k)%nat →
           total_of_reply (web (fetched w + j)%nat) = Raise RuntimeError) →
     total_of_reply (web (fetched w + k)%nat) = Ok total →
     get_total_results web w =
     (Ok total,
      {| fetched := (fetched w + k + 1)%nat; pauses := (pauses w + k)%nat |})) ∧
  ((∀ j, (j < 3)%nat →
         total_of_reply (web (fetched w + j)%nat) = Raise RuntimeError) →
   get_total_results web w =
   (Raise RuntimeError,
    {| fetched := (fetched w + 3)%nat; pauses := (pauses w + 2)%nat |})).
Proof.
  split.
  - intros k total Hk Hfail Hgood.
    by apply total_attempts_success.
  - intros Hfail. unfold get_total_results.
    by rewrite total_attempts_failure.
Qed.

Lemma get_total_results_retries_witness :
  get_total_results slow_site {| fetched := 0; pauses := 0 |} =
    (Ok 10001, {| fetched := 3; pauses := 2 |}) ∧
  get_total_results (λ _, Captcha) {| fetched := 0; pauses := 0 |} =
    (Raise RuntimeError, {| fetched := 3; pauses := 2 |}).
Proof.
  split.
  - destruct (get_total_results_retries slow_site {| fetched := 0; pauses := 0 |})
      as [Hgood _].
    apply (Hgood 2%nat 10001); [lia| |reflexivity].
    intros [|[|j]] Hj; [reflexivity|reflexivity|lia].
  - destruct (get_total_results_retries (λ _, Captcha) {| fetched := 0; pauses := 0 |})
      as [_ Hbad].
    apply Hbad. intros j _. reflexivity.
Defined.

(** *** [parse_page] *)

Lemma page_attempts_success (web : nat → reply (list (option Article)))
    (max_retries attempt remaining k : nat) (w : world) (articles : list Article) :
  (attempt + remaining = max_retries)%nat → (k < remaining)%nat →
  (∀ j, (j < k)%nat → articles_of_reply (web (fetched w + j)%nat) = None) →
  articles_of_reply (web (fetched w + k)%nat) = Some articles →
  page_attempts web max_retries attempt remaining w =
  (articles, {| fetched := (fetched w + k + 1)%nat; pauses := (pauses w + k)%nat |}).
Proof.
  revert attempt k w. induction remaining as [|remaining IH];
    intros attempt k w Hsum Hk Hfail Hgood; [lia|].
  cbn [page_attempts fetch].
  destruct k as [|k].
  - rewrite Nat.add_0_r in Hgood. rewrite Hgood.
    do 2 f_equal; lia.
  - pose proof (Hfail 0%nat ltac:(lia)) as H0. rewrite Nat.add_0_r in H0.
    rewrite H0.
    destruct (Nat.ltb_spec attempt (max_retries - 1)) as [_|Hlast]; [|lia].
    rewrite (IH (S attempt) k); simpl.
    + do 2 f_equal; lia.
    + lia.
    + lia.
    + intros j Hj. replace (S (fetched w + j)) with (fetched w + S j)%nat by lia.
      apply Hfail. lia.
    + replace (S (fetched w + k)) with (fetched w + S k)%nat by lia. done.
Qed.

Lemma page_attempts_failure (web : nat → reply (list (option Article)))
    (max_retries attempt remaining : nat) (w : world) :
  (attempt + remaining = max_retries)%nat →
  (∀ j, (j < remaining)%nat → articles_of_reply (web (fetched w + j)%nat) = None) →
  page_attempts web max_retries attempt remaining w =
  ([], {| fetched := (fetched w + remaining)%nat;
          pauses := (pauses w + (remaining - 1))%nat |}).
Proof.
  revert attempt w. induction remaining as [|remaining IH];
    intros attempt w Hsum Hfail.
  - simpl. destruct w. simpl. do 2 f_equal; lia.
  - cbn [page_attempts fetch].
    pose proof (Hfail 0%nat ltac:(lia)) as H0. rewrite Nat.add_0_r in H0.
    rewrite H0.
    rewrite (IH (S attempt)).
    + destruct (Nat.ltb_spec attempt (max_retries - 1)); simpl;
        do 2 f_equal; lia.
    + lia.
    + intros j Hj.
      assert (fetched (if (attempt <? max_retries - 1)%nat
                       then pause {| fetched := S (fetched w); pauses := pauses w |}
                       else {| fetched := S (fetched w); pauses := pauses w |})
              = S (fetched w)) as -> by (by destruct (attempt <? _)%nat).
      replace (S (fetched w) + j)%nat with (fetched w + S j)%nat by lia.
      apply Hfail. lia.
Qed.

(** X11. [parse_page] makes two requests at most and never raises.  It
    returns the entries of the first page it receives that could be
    parsed, in the order of the page, an entry that could not be parsed
    being left out; when both requests fail it returns the empty list,
    after one pause. *)
Theorem parse_page_retries (web : nat → reply (list (option Article))) (w : world) :
  (∀ k entries, (k < 2)%nat →
     (∀ j, (j < k)%nat → articles_of_reply (web (fetched w + j)%nat) = None) →
     web (fetched w + k)%nat = Html entries →
     parse_page web w =
     (omap id entries,
      {| fetched := (fetched w + k + 1)%nat; pauses := (pauses w + k)%nat |})) ∧
  ((∀ j, (j < 2)%nat → articles_of_reply (web (fetched w + j)%nat) = None) →
   parse_page web w =
   ([], {| fetched := (fetched w + 2)%nat; pauses := (pauses w + 1)%nat |})).
Proof.
  split.
  - intros k entries Hk Hfail Hgood.
    apply page_attempts_success; [done..|]. by rewrite Hgood.
  - intros Hfail. unfold parse_page. by rewrite page_attempts_failure.
Qed.

Lemma parse_page_retries_witness :
  parse_page (λ k, match k with
                   | O => HttpError
                   | _ => Html [Some Planner.known_article; None]
                   end) {| fetched := 0; pauses := 0 |} =
    ([Planner.known_article], {| fetched := 2; pauses := 1 |}) ∧
  parse_page (λ _, HttpError) {| fetched := 0; pauses := 0 |} =
    ([], {| fetched := 2; pauses := 1 |}).
Proof.
  split.
  - destruct (parse_page_retries
                (λ k, match k with
                      | O => HttpError
                      | _ => Html [Some Planner.known_article; None]
                      end) {| fetched := 0; pauses := 0 |}) as [Hgood _].
    apply (Hgood 1%nat [Some Planner.known_article; None]); [lia| |reflexivity].
    intros [|j] Hj; [reflexivity|lia].
  - destruct (parse_page_retries (λ _, HttpError) {| fetched := 0; pauses := 0 |})
      as [_ Hbad].
    apply Hbad. intros j _. reflexivity.
Defined.

End FetchFacts.

(* --------------------------------------------------------------------- *)
(** ** Keyword reconciliation: further properties *)
(* --------------------------------------------------------------------- *)

Module KeywordsMore.
Import Keywords KeywordsFacts.

(** *** The exclusion filter *)



(** *** Sorting by length *)







(** *** What [process_paper] returns *)





End KeywordsMore.

(* --------------------------------------------------------------------- *)
(** ** Text helpers *)
(* --------------------------------------------------------------------- *)

Module TextFacts.
Import Text Chars.

Lemma lstrip_length (s : string) : (String.length (lstrip s) ≤ String.length s)%nat.
Proof. induction s as [|c s IH]; simpl; [lia|]. destruct (is_space c); simpl; lia. Qed.

Lemma lstrip_fixed_head (c : ascii) (s : string) :
  lstrip (String c s) = String c s → is_space c = false.
Proof.
  simpl. destruct (is_space c); [|done].
  intros H. pose proof (lstrip_length s) as Hlen. rewrite H in Hlen.
  simpl in Hlen. lia.
Qed.

Lemma lstrip_idempotent (s : string) : lstrip (lstrip s) = lstrip s.
Proof.
  induction s as [|c s IH]; simpl; [done|].
  destruct (is_space c) eqn:Hc; [done|]. simpl. by rewrite Hc.
Qed.

Lemma rstrip_idempotent (s : string) : rstrip (rstrip s) = rstrip s.
Proof.
  induction s as [|c s IH]; simpl; [done|].
  destruct (rstrip s) as [|c' r] eqn:Hr.
  - destruct (is_space c) eqn:Hc; simpl; [done|]. by rewrite Hc.
  - simpl in *. by rewrite IH.
Qed.

Lemma lstrip_rstrip (s : string) : lstrip s = s → lstrip (rstrip s) = rstrip s.
Proof.
  destruct s as [|c s]; [done|]. intros H.
  apply lstrip_fixed_head in H. cbn [rstrip].
  destruct (rstrip s); rewrite ?H; cbn [lstrip]; by rewrite H.
Qed.

Lemma strip_idempotent (s : string) : strip (strip s) = strip s.
Proof.
  unfold strip.
  rewrite (lstrip_rstrip (lstrip s)) by apply lstrip_idempotent.
  apply rstrip_idempotent.
Qed.

Lemma rstrip_nonempty_head (c : ascii) (s : string) :
  is_space c = false → rstrip (String c s) ≠ "".
Proof. intros Hc. simpl. destruct (rstrip s); [by rewrite Hc|done]. Qed.

Lemma all_chars_lstrip (P : ascii → bool) (s : string) :
  all_chars P s = true → all_chars P (lstrip s) = true.
Proof.
  induction s as [|c s IH]; simpl; [done|].
  intros H. apply andb_true_iff in H as [Hc Hs].
  destruct (is_space c); [auto|]. simpl. by rewrite Hc, Hs.
Qed.

Lemma all_chars_rstrip (P : ascii → bool) (s : string) :
  all_chars P s = true → all_chars P (rstrip s) = true.
Proof.
  induction s as [|c s IH]; simpl; [done|].
  intros H. apply andb_true_iff in H as [Hc Hs]. specialize (IH Hs).
  destruct (rstrip s) as [|c' r].
  - destruct (is_space c); simpl; [done|]. by rewrite Hc.
  - simpl in *. by rewrite Hc, IH.
Qed.

Lemma all_chars_strip (P : ascii → bool) (s : string) :
  all_chars P s = true → all_chars P (strip s) = true.
Proof. intros H. by apply all_chars_rstrip, all_chars_lstrip. Qed.

Lemma lower_char_lower (c : ascii) : is_upper (lower_char c) = false.
Proof. destruct c as [[] [] [] [] [] [] [] []]; reflexivity. Qed.

Lemma lower_char_fixed (c : ascii) : is_upper c = false → lower_char c = c.
Proof. unfold lower_char. by intros ->. Qed.

Lemma all_chars_lower (s : string) :
  all_chars (λ c, negb (is_upper c)) (lower s) = true.
Proof.
  induction s as [|c s IH]; simpl; [done|].
  by rewrite lower_char_lower, IH.
Qed.

Lemma lower_fixed (s : string) :
  all_chars (λ c, negb (is_upper c)) s = true → lower s = s.
Proof.
  induction s as [|c s IH]; simpl; [done|].
  intros H. apply andb_true_iff in H as [Hc Hs].
  apply negb_true_iff in Hc. by rewrite lower_char_fixed, IH.
Qed.

End TextFacts.

(* --------------------------------------------------------------------- *)
(** ** Normal form of a term *)
(* --------------------------------------------------------------------- *)

Module KeywordsNormal.
Import Text Chars Keywords TextFacts.

Lemma is_word_or_space_lower_char (c : ascii) :
  is_word_or_space c = true → is_word_or_space (lower_char c) = true.
Proof. destruct c as [[] [] [] [] [] [] [] []]; vm_compute; done. Qed.

Lemma all_chars_remove_punctuation (s : string) :
  all_chars is_word_or_space (remove_punctuation s) = true.
Proof.
  induction s as [|c s IH]; simpl; [done|].
  destruct (is_word_or_space c) eqn:Hc; [|done]. simpl. by rewrite Hc, IH.
Qed.

Lemma remove_punctuation_fixed (s : string) :
  all_chars is_word_or_space s = true → remove_punctuation s = s.
Proof.
  induction s as [|c s IH]; simpl; [done|].
  intros H. apply andb_true_iff in H as [Hc Hs]. by rewrite Hc, IH.
Qed.

Lemma all_chars_word_lower (s : string) :
  all_chars is_word_or_space s = true →
  all_chars is_word_or_space (lower s) = true.
Proof.
  induction s as [|c s IH]; simpl; [done|].
  intros H. apply andb_true_iff in H as [Hc Hs].
  by rewrite is_word_or_space_lower_char, IH.
Qed.

(** X14. A cleaned term is a fixed point of the cleaning: it holds no
    punctuation, no capital letter and no blank at either end, so
    cleaning it again changes nothing. *)
Theorem clean_keyword_idempotent (kw : string) :
  clean_keyword (clean_keyword kw) = clean_keyword kw.
Proof.
  unfold clean_keyword.
  set (u := lower (remove_punctuation kw)).
  assert (Hw : all_chars is_word_or_space (strip u) = true).
  { apply all_chars_strip, all_chars_word_lower, all_chars_remove_punctuation. }
  assert (Hl : all_chars (λ c, negb (is_upper c)) (strip u) = true).
  { apply all_chars_strip, all_chars_lower. }
  rewrite (remove_punctuation_fixed _ Hw), (lower_fixed _ Hl).
  apply strip_idempotent.
Qed.

End KeywordsNormal.

(* --------------------------------------------------------------------- *)
(** ** The calls to the model, continued *)
(* --------------------------------------------------------------------- *)

Module OracleMore.
Import Text Oracle OracleSamples Enrichment TextFacts.

(** *** The pair judgment *)

Lemma are_authors_same_effect
    (net : network) (affiliation1 affiliation2 : string) (w : world) :
  let w' := (are_authors_same net affiliation1 affiliation2 w).2 in
  slept w' = slept w ∧ (requests w ≤ requests w' ≤ S (requests w))%nat.
Proof.
  unfold are_authors_same, post.
  destruct (negb (truthy affiliation1) || negb (truthy affiliation2));
    [(cbn; split; [done|lia])|].
  destruct (net (requests w)) as [|status body]; [(cbn; split; [done|lia])|].
  destruct (status =? 200); [|(cbn; split; [done|lia])].
  destruct body as [|[response|]]; [(cbn; split; [done|lia])| |(cbn; split; [done|lia])].
  destruct (contains verdict_same (strip response)); [(cbn; split; [done|lia])|].
  destruct (contains verdict_different (strip response)); (cbn; split; [done|lia]).
Qed.

(** X15. [are_authors_same] answers "same" in one case only: both
    affiliations are non-empty, the service answers the request with
    status 200 and a JSON body, and the response holds the marker of the
    verdict "same".  The marker of "same" wins when both are there. *)
Theorem are_authors_same_needs_verdict
    (net : network) (affiliation1 affiliation2 : string) (w : world) :
  (are_authors_same net affiliation1 affiliation2 w).1.1 = true ↔
  affiliation1 ≠ "" ∧ affiliation2 ≠ "" ∧
  ∃ response, net (requests w) = Response 200 (Json (Some response)) ∧
              contains verdict_same (strip response) = true.
Proof.
  unfold are_authors_same, post.
  destruct affiliation1 as [|c1 a1].
  { cbn. split; [done|]. by intros (? & _). }
  destruct affiliation2 as [|c2 a2].
  { cbn. split; [done|]. by intros (_ & ? & _). }
  cbn [truthy negb orb].
  destruct (net (requests w)) as [|status body] eqn:Hnet.
  { cbn. split; [done|]. by intros (_ & _ & r & ? & _). }
  destruct (Z.eqb_spec status 200) as [->|Hne].
  - destruct body as [|[response|]].
    + cbn. split; [done|]. by intros (_ & _ & r & ? & _).
    + destruct (contains verdict_same (strip response)) eqn:Hc.
      * cbn. split; [|done]. intros _. split_and!; [done|done|].
        by exists response.
      * split.
        -- destruct (contains verdict_different (strip response)); cbn; done.
        -- intros (_ & _ & r & [= <-] & Hr). congruence.
    + cbn. split; [done|]. by intros (_ & _ & r & ? & _).
  - cbn. split; [done|]. intros (_ & _ & r & [= Hs _] & _). done.
Qed.

(** *** The affiliation fields *)



Lemma output_lines_clean (output line : string) :
  line ∈ output_lines output → clean_line line.
Proof.
  unfold output_lines. intros H.
  apply list_elem_of_filter in H as [[Ht Hf] Hin].
  apply list_elem_of_fmap in Hin as (raw & -> & _).
  split_and!; [|done|apply strip_idempotent].
  intros Heq. by rewrite Heq in Ht.
Qed.






(** *** The keywords *)

Lemma last_n_length {A} (k : nat) (l : list A) : (length (last_n k l) ≤ k)%nat.
Proof. unfold last_n. rewrite length_drop. lia. Qed.


Lemma parse_keywords_last_lines (output : string) :
  parse_keywords output =
  pad5 (last_n 5 (output_lines output)).
Proof.
  unfold parse_keywords.
  assert (Hkw : match from_end (output_lines output) 1 with
                | Some last =>
                    if String.eqb last fence
                    then last_n 5 (take (length (output_lines output) - 1)%nat
                                        (output_lines output))
                    else last_n 5 (output_lines output)
                | None => last_n 5 (output_lines output)
                end = last_n 5 (output_lines output)).
  { destruct (from_end (output_lines output) 1) as [last|] eqn:Hlast; [|done].
    unfold from_end in Hlast. cbn in Hlast.
    apply list_elem_of_lookup_2, output_lines_clean in Hlast as (_ & Hf & _).
    destruct (String.eqb_spec last fence) as [->|_]; [|done].
    vm_compute in Hf. done. }
  cbv zeta. rewrite Hkw.
  apply take_ge. unfold pad5. rewrite length_app, length_replicate.
  pose proof (last_n_length 5 (output_lines output)). lia.
Qed.

Lemma extract_keywords_effect (net : network) (w : world) :
  length (extract_keywords net w).1 = 5%nat ∧
  (extract_keywords net w).2 =
    {| requests := S (requests w); slept := slept w |}.
Proof.
  unfold extract_keywords, post.
  destruct (net (requests w)) as [|status_code body]; [done|].
  destruct (status_code =? 200); [|done].
  destruct body as [|[response|]]; [done| |done].
  split; [|done]. cbn [fst].
  rewrite parse_keywords_last_lines.
  pose proof (last_n_length 5 (output_lines (strip response))) as Hle.
  unfold pad5. rewrite length_app, length_replicate. lia.
Qed.


End OracleMore.

(* --------------------------------------------------------------------- *)
(** ** Keyword extraction with resume *)
(* --------------------------------------------------------------------- *)

Module ExtractorFacts.
Import Text Oracle Extractor TextFacts OracleMore.

Lemma rstrip_app_nonspace (s : string) (c : ascii) :
  is_space c = false →
  rstrip (s ++ String c "") = (s ++ String c "")%string.
Proof.
  intros Hc. induction s as [|a s IH].
  - change ("" +:+ String c "") with (String c "").
    cbn [rstrip]. by rewrite Hc.
  - change (String a s +:+ String c "") with (String a (s +:+ String c "")).
    cbn [rstrip]. rewrite IH. by destruct s.
Qed.

Lemma concat_two_nonempty (sep x y : string) (l : list string) :
  sep ≠ "" → String.concat sep (x :: y :: l) ≠ "".
Proof.
  intros Hsep H. cbn [String.concat] in H.
  destruct x; [|done]. cbn in H. by destruct sep.
Qed.

(** [str] of a list of two strings or more is not an empty cell. *)
Lemma py_str_not_empty (repr : string → string) (keywords : list string) :
  (2 ≤ length keywords)%nat →
  is_keywords_empty (Some (py_str repr keywords)) = false.
Proof.
  intros Hlen. destruct keywords as [|k1 [|k2 rest]]; [simpl in Hlen; lia..|].
  unfold py_str, is_keywords_empty.
  set (x := String.concat ", " (repr <$> k1 :: k2 :: rest)).
  assert (Hx : x ≠ "").
  { unfold x. rewrite !fmap_cons. by apply concat_two_nonempty. }
  assert (Hs : strip ("[" ++ x ++ "]") = String "[" (x ++ "]")).
  { unfold strip.
    change ("[" +:+ x +:+ "]") with (String "[" (x +:+ "]")).
    cbn [lstrip]. change (is_space "[") with false. cbv iota.
    change (String "[" (x +:+ "]")) with (String "[" x +:+ String "]" "").
    by apply rstrip_app_nonspace. }
  rewrite Hs. destruct x as [|c x]; [done|].
  apply orb_false_iff; split; apply String.eqb_neq; [done|].
  change (String c x +:+ "]") with (String c (x +:+ "]")).
  intros [= _ H]. by destruct x.
Qed.

Section Run.
Variable repr : string → string.

Lemma count_status_pending (df : list frame_row) (processed no_abstract to_process : nat) :
  has_columns df →
  ∃ processed' no_abstract',
    count_status df processed no_abstract to_process =
    Ok (processed', no_abstract',
        (to_process + length (filter (λ row, pending row = true) df))%nat).
Proof.
  intros Hdf. revert processed no_abstract to_process.
  induction Hdf as [|row df [[a Ha] [k Hk]] _ IH]; intros processed no_abstract to_process.
  - eexists _, _. cbn. by rewrite Nat.add_0_r.
  - cbn [count_status]. unfold column. rewrite Ha, Hk. cbn [mbind result_bind].
    assert (Hp : pending row = is_abstract_valid a && is_keywords_empty k).
    { unfold pending. by rewrite Ha, Hk. }
    rewrite filter_cons, Hp.
    destruct (is_abstract_valid a), (is_keywords_empty k); cbn [negb andb].
    + destruct (IH processed no_abstract (to_process + 1)%nat)
        as (p' & n' & ->). eexists _, _. rewrite decide_True by done.
      cbn [length]. do 2 f_equal. lia.
    + destruct (IH (processed + 1)%nat no_abstract to_process)
        as (p' & n' & ->). eexists _, _. by rewrite decide_False by done.
    + destruct (IH processed (no_abstract + 1)%nat to_process)
        as (p' & n' & ->). eexists _, _. by rewrite decide_False by done.
    + destruct (IH processed (no_abstract + 1)%nat to_process)
        as (p' & n' & ->). eexists _, _. by rewrite decide_False by done.
Qed.

Variable net : network.

Lemma extract_loop_spec (df : list frame_row) (w : world) :
  has_columns df →
  ∃ df',
    extract_loop repr net df w =
      Ok (df', {| requests := (requests w
                               + length (filter (λ row, pending row = true) df))%nat;
                  slept := slept w |}) ∧
    Forall2 (row_done repr) df df'.
Proof.
  intros Hdf. revert w.
  induction Hdf as [|row df [[a Ha] [k Hk]] _ IH]; intros w.
  - exists []. split; [|constructor]. cbn. rewrite Nat.add_0_r. by destruct w.
  - cbn [extract_loop]. unfold column. rewrite Ha, Hk. cbn [mbind result_bind].
    assert (Hp : pending row = is_abstract_valid a && is_keywords_empty k).
    { unfold pending. by rewrite Ha, Hk. }
    rewrite filter_cons. unfold row_done at 1.
    destruct (is_abstract_valid a && is_keywords_empty k) eqn:Hb.
    + destruct (extract_keywords_effect net w) as [Hlen Hw].
      destruct (extract_keywords net w) as [keywords w1]. cbn [fst snd] in *.
      subst w1.
      destruct (IH {| requests := S (requests w); slept := slept w |})
        as (df' & -> & Hall).
      eexists. split.
      * cbn [mbind result_bind requests slept]. rewrite decide_True by done.
        cbn [length]. do 3 f_equal. lia.
      * constructor; [|done]. unfold row_done. rewrite Hp. by exists keywords.
    + destruct (IH w) as (df' & -> & Hall).
      eexists. split.
      * cbn [mbind result_bind]. rewrite decide_False by (rewrite Hp; done).
        done.
      * constructor; [|done]. unfold row_done. by rewrite Hp.
Qed.

Lemma row_done_settled (row row' : frame_row) :
  is_Some (row !! "Abstract") ∧ is_Some (row !! "Keywords") →
  row_done repr row row' →
  (is_Some (row' !! "Abstract") ∧ is_Some (row' !! "Keywords")) ∧
  pending row' = false.
Proof.
  intros [Ha Hk]. unfold row_done.
  destruct (pending row) eqn:Hp.
  - intros (keywords & Hlen & ->). split.
    + split; [by rewrite lookup_insert_ne|by rewrite lookup_insert_eq].
    + unfold pending. rewrite lookup_insert_eq, lookup_insert_ne by done.
      destruct (row !! "Abstract") as [a|]; [|done].
      rewrite py_str_not_empty by lia. apply andb_false_r.
  - by intros ->.
Qed.

Lemma count_status_has_columns (df : list frame_row)
    (processed no_abstract to_process : nat) res :
  count_status df processed no_abstract to_process = Ok res → has_columns df.
Proof.
  revert processed no_abstract to_process.
  induction df as [|row df IH]; intros processed no_abstract to_process H;
    [constructor|].
  cbn [count_status] in H. unfold column in H.
  destruct (row !! "Abstract") as [a|] eqn:Ha; [|done].
  destruct (row !! "Keywords") as [k|] eqn:Hk; [|done].
  cbn [mbind result_bind] in H.
  constructor; [by rewrite Ha, Hk|].
  destruct (is_abstract_valid a && negb (is_keywords_empty k));
    [by eapply IH|].
  destruct (negb (is_abstract_valid a)); by eapply IH.
Qed.

Lemma with_keywords_column_id (df : list frame_row) :
  has_columns df → with_keywords_column df = df.
Proof.
  intros Hdf. unfold with_keywords_column, has_column.
  destruct Hdf as [|row df [_ Hk] _]; [by case_bool_decide|].
  rewrite bool_decide_eq_true_2; [done|]. by constructor.
Qed.

Lemma with_keywords_column_has_columns (df : list frame_row) :
  Forall (λ row, is_Some (row !! "Abstract")) df →
  (∀ r1 r2, r1 ∈ df → r2 ∈ df → dom r1 = dom r2) →
  has_columns (with_keywords_column df).
Proof.
  intros Ha Hdom. unfold with_keywords_column, has_column.
  case_bool_decide as Hex.
  - apply Exists_exists in Hex as (r0 & Hr0 & Hk0).
    apply Forall_forall. intros row Hrow. split.
    + by eapply Forall_forall in Ha.
    + apply elem_of_dom. rewrite (Hdom row r0 Hrow Hr0). by apply elem_of_dom.
  - apply Forall_fmap, Forall_forall. intros row Hrow. cbn. split.
    + rewrite lookup_insert_ne by done. by eapply Forall_forall in Ha.
    + by rewrite lookup_insert_eq.
Qed.

(** X19. On a frame that has an [Abstract] column,
    [process_pubmed_data] does not raise, waits for nothing and makes one
    request for each record that has an abstract and no keywords.  When
    there is none it saves nothing; otherwise the saved frame has the
    rows of the loaded one in their order, the pending ones with the
    string of five keywords in [Keywords] and every other row as it
    was. *)
Theorem process_pubmed_data_processes_pending (df : list frame_row) (w : world) :
  Forall (λ row, is_Some (row !! "Abstract")) df →
  (∀ r1 r2, r1 ∈ df → r2 ∈ df → dom r1 = dom r2) →
  let df0 := with_keywords_column df in
  let n := length (filter (λ row, pending row = true) df0) in
  ∃ saved,
    process_pubmed_data repr net df w =
      Ok (saved, {| requests := (requests w + n)%nat; slept := slept w |}) ∧
    match saved with
    | None => n = 0%nat
    | Some df' => n ≠ 0%nat ∧ Forall2 (row_done repr) df0 df'
    end.
Proof.
  intros Ha Hdom df0 n.
  pose proof (with_keywords_column_has_columns df Ha Hdom) as Hcols.
  fold df0 in Hcols.
  unfold process_pubmed_data. fold df0.
  destruct (count_status_pending df0 0 0 0 Hcols) as (p' & n' & ->).
  cbn [mbind result_bind]. rewrite Nat.add_0_l. fold n.
  destruct (Nat.eqb_spec n 0) as [Hn|Hn].
  - exists None. split; [|done]. rewrite Hn, Nat.add_0_r. by destruct w.
  - destruct (extract_loop_spec df0 w Hcols) as (df' & -> & Hall).
    exists (Some df'). by split.
Qed.

(** X20. A second run finds nothing to do: the frame that
    [process_pubmed_data] has saved holds no record that is pending, so
    running the function on it makes no request and saves nothing,
    whatever the service answered in the first run.  A record of which
    the extraction failed keeps its five empty strings. *)
Theorem process_pubmed_data_resume
    (df df' : list frame_row) (w w' : world) (net2 : network) (w2 : world) :
  process_pubmed_data repr net df w = Ok (Some df', w') →
  process_pubmed_data repr net2 df' w2 = Ok (None, w2).
Proof.
  unfold process_pubmed_data at 1.
  set (df0 := with_keywords_column df).
  destruct (count_status df0 0 0 0) as [[[p0 n0] t0]| |] eqn:Hcount; [|done..].
  apply count_status_has_columns in Hcount as Hcols.
  cbn [mbind result_bind].
  destruct (t0 =? 0)%nat; [done|].
  destruct (extract_loop_spec df0 w Hcols) as (df1 & -> & Hall).
  cbn [mbind result_bind]. intros [= <- _].
  assert (Hsettled : has_columns df1 ∧ Forall (λ row, pending row = false) df1).
  { clear Hcount. induction Hall as [|row row' l l' Hrow _ IH].
    - split; constructor.
    - apply Forall_cons in Hcols as [Hc Hcols].
      destruct (row_done_settled row row' Hc Hrow) as [Hc' Hp'].
      destruct (IH Hcols) as [IH1 IH2]. split; by constructor. }
  destruct Hsettled as [Hcols1 Hnone].
  unfold process_pubmed_data. rewrite (with_keywords_column_id _ Hcols1).
  destruct (count_status_pending df1 0 0 0 Hcols1) as (p' & n' & ->).
  cbn [mbind result_bind].
  assert (Hf : filter (λ row, pending row = true) df1 = []).
  { clear -Hnone. induction Hnone as [|row l Hr _ IH]; [done|].
    rewrite filter_cons, decide_False by congruence. done. }
  by rewrite Hf.
Qed.

End Run.

Lemma sample_frame_readable :
  Forall (λ row : frame_row, is_Some (row !! "Abstract")) sample_frame ∧
  (∀ r1 r2, r1 ∈ sample_frame → r2 ∈ sample_frame → dom r1 = dom r2).
Proof.
  split.
  - repeat constructor; by eexists.
  - assert (H : ∀ r, r ∈ sample_frame → dom r = ({["Abstract"; "Keywords"]} : gset string)).
    { intros r Hr. unfold sample_frame in Hr.
      repeat (apply elem_of_cons in Hr as [->|Hr];
              [by rewrite dom_insert_L, dom_singleton_L|]).
      by apply elem_of_nil in Hr. }
    intros r1 r2 H1 H2. by rewrite (H r1 H1), (H r2 H2).
Qed.

Lemma process_pubmed_data_processes_pending_witness :
  let df0 := with_keywords_column sample_frame in
  let n := length (filter (λ row, pending row = true) df0) in
  ∃ saved,
    process_pubmed_data plain_repr dead_service sample_frame world0 =
      Ok (saved, {| requests := (requests world0 + n)%nat; slept := slept world0 |}) ∧
    match saved with
    | None => n = 0%nat
    | Some df' => n ≠ 0%nat ∧ Forall2 (row_done plain_repr) df0 df'
    end.
Proof.
  apply (process_pubmed_data_processes_pending plain_repr dead_service
           sample_frame world0);
    apply sample_frame_readable.
Defined.

Lemma process_pubmed_data_resume_witness :
  process_pubmed_data plain_repr flaky_service sample_saved world0 =
  Ok (None, world0).
Proof.
  apply (process_pubmed_data_resume plain_repr dead_service
           sample_frame sample_saved world0 {| requests := 1; slept := [] |}).
  vm_compute. reflexivity.
Defined.

End ExtractorFacts.

(* --------------------------------------------------------------------- *)
(** ** The groups that the two passes build *)
(* --------------------------------------------------------------------- *)

Module ResolverMore.
Import Text Oracle Resolver ResolverSpec ResolverFacts.

(** *** Groups and links *)

Lemma joined_sym (p : list nat) (a b : nat) : joined p a b → joined p b a.
Proof. intros (r & ? & ?). by exists r. Qed.

Lemma joined_same_roots (p p' : list nat) (a b : nat) :
  same_roots p p' → joined p' a b ↔ joined p a b.
Proof.
  intros Hsame. split; intros (r & Ha & Hb); exists r; split; by apply Hsame.
Qed.

Lemma joined_root (p : list nat) (a b ra rb : nat) :
  reaches p a ra → reaches p b rb → joined p a b → ra = rb.
Proof.
  intros Ha Hb (r & Ha' & Hb').
  rewrite (reaches_deterministic p a ra r Ha Ha').
  by rewrite (reaches_deterministic p b rb r Hb Hb').
Qed.

Lemma wf_has_root (u : UnionFind) (x : nat) :
  wf u → (x < length (parent u))%nat → ∃ r, reaches (parent u) x r.
Proof.
  intros Hwf Hx.
  destruct (find_spec (S (length (parent u))) u x Hwf Hx ltac:(lia))
    as (r & _ & _ & _ & _ & Hr & _).
  by exists r.
Qed.

Lemma reaches_lt (p : list nat) (x r : nat) : reaches p x r → (x < length p)%nat.
Proof. intros H. destruct H; by eapply lookup_lt_Some. Qed.

(** Putting the root [a] under the root [b] moves the entries of [a] to
    [b] and leaves every other entry where it is. *)
Lemma reaches_link (p : list nat) (a b x r : nat) :
  p !! a = Some a → p !! b = Some b → a ≠ b →
  reaches p x r →
  reaches (<[a := b]> p) x (if decide (r = a) then b else r).
Proof.
  intros Ha Hb Hab Hreach.
  assert (Hb' : reaches (<[a := b]> p) b b).
  { constructor. by rewrite list_lookup_insert_ne. }
  induction Hreach as [x Hx|x px r Hx Hne Hreach IH].
  - destruct (decide (x = a)) as [->|Hxa].
    + apply reaches_step with b; [|done|done].
      apply list_lookup_insert_eq. by eapply lookup_lt_Some.
    + constructor. by rewrite list_lookup_insert_ne.
  - assert (x ≠ a) by congruence.
    apply reaches_step with px; [|done|done].
    by rewrite list_lookup_insert_ne.
Qed.

Lemma link_joined (p : list nat) (a b : nat) :
  (∀ x, (x < length p)%nat → ∃ r, reaches p x r) →
  p !! a = Some a → p !! b = Some b → a ≠ b →
  (∀ c d, joined p c d → joined (<[a := b]> p) c d) ∧
  (∀ x y, reaches p x a → reaches p y b → joined (<[a := b]> p) x y) ∧
  (∀ c d, joined (<[a := b]> p) c d →
     joined p c d ∨
     (reaches p c a ∧ reaches p d b) ∨ (reaches p c b ∧ reaches p d a)).
Proof.
  intros Hroot Ha Hb Hab.
  pose proof (reaches_link p a b) as Hlink.
  split_and!.
  - intros c d (r & Hc & Hd). eexists. split; by apply Hlink.
  - intros x y Hx Hy. exists b. split.
    + pose proof (Hlink x a Ha Hb Hab Hx) as H. by rewrite decide_True in H.
    + pose proof (Hlink y b Ha Hb Hab Hy) as H. by rewrite decide_False in H.
  - intros c d (r & Hc & Hd).
    destruct (Hroot c) as [rc Hrc].
    { apply reaches_lt in Hc. by rewrite length_insert in Hc. }
    destruct (Hroot d) as [rd Hrd].
    { apply reaches_lt in Hd. by rewrite length_insert in Hd. }
    pose proof (Hlink c rc Ha Hb Hab Hrc) as Hc'.
    pose proof (Hlink d rd Ha Hb Hab Hrd) as Hd'.
    pose proof (reaches_deterministic _ _ _ _ Hc Hc') as Er.
    pose proof (reaches_deterministic _ _ _ _ Hd Hd') as Er'.
    rewrite Er in Er'. clear Hc Hd Hc' Hd' Er.
    destruct (decide (rc = a)) as [->|Hca], (decide (rd = a)) as [->|Hda].
    + left. by exists a.
    + subst rd. right. by left.
    + subst rc. right. by right.
    + subst rd. left. by exists rc.
Qed.

(** [union] joins the groups of [x] and [y] and nothing else. *)
Lemma union_joins (fuel : nat) (u : UnionFind) (x y : nat) :
  wf u → (x < length (parent u))%nat → (y < length (parent u))%nat →
  (length (parent u) < fuel)%nat →
  ∃ u', union fuel u x y = Ok u' ∧ wf u' ∧
        length (parent u') = length (parent u) ∧
        joined (parent u') x y ∧
        (∀ c d, joined (parent u) c d → joined (parent u') c d) ∧
        (∀ c d, joined (parent u') c d →
           joined (parent u) c d ∨
           (joined (parent u) c x ∧ joined (parent u) d y) ∨
           (joined (parent u) c y ∧ joined (parent u) d x)).
Proof.
  intros Hwf Hx Hy Hfuel.
  destruct (find_spec fuel u x Hwf Hx ltac:(lia))
    as (rx & u1 & Hfind1 & Hwf1 & Hlen1 & Hreach1 & Hsame1).
  destruct (find_spec fuel u1 y Hwf1 ltac:(lia) ltac:(lia))
    as (ry & u2 & Hfind2 & Hwf2 & Hlen2 & Hreach2 & Hsame2).
  assert (Hsame : same_roots (parent u) (parent u2))
    by (by eapply same_roots_trans).
  assert (Hx2 : reaches (parent u2) x rx) by (by apply Hsame).
  assert (Hy2 : reaches (parent u2) y ry) by (by apply Hsame2).
  assert (Hjoin : ∀ c d, joined (parent u2) c d ↔ joined (parent u) c d)
    by (intros; by apply joined_same_roots).
  unfold union. rewrite Hfind1. simpl. rewrite Hfind2. simpl.
  destruct (decide (rx = ry)) as [Heq|Hne].
  { exists u2. split_and!; [done|done|lia| | |].
    - exists rx. split; [done|]. by rewrite Heq.
    - intros c d. apply Hjoin.
    - intros c d Hcd. left. by apply Hjoin. }
  assert (Hrx : parent u2 !! rx = Some rx) by (by eapply reaches_is_root).
  assert (Hry : parent u2 !! ry = Some ry) by (by eapply reaches_is_root).
  assert (Hlx : (rx < length (parent u2))%nat) by (by eapply lookup_lt_Some).
  assert (Hly : (ry < length (parent u2))%nat) by (by eapply lookup_lt_Some).
  assert (Hroot : ∀ z, (z < length (parent u2))%nat →
                       ∃ r, reaches (parent u2) z r)
    by (intros; by apply wf_has_root).
  assert (Hback : ∀ c d a b,
            (a = rx ∧ b = ry ∨ a = ry ∧ b = rx) →
            joined (parent u2) c d ∨
            (reaches (parent u2) c a ∧ reaches (parent u2) d b) ∨
            (reaches (parent u2) c b ∧ reaches (parent u2) d a) →
            joined (parent u) c d ∨
            (joined (parent u) c x ∧ joined (parent u) d y) ∨
            (joined (parent u) c y ∧ joined (parent u) d x)).
  { intros c d a b Hab [Hcd|Hcd].
    - left. by apply Hjoin.
    - right.
      assert (Hto : ∀ z, reaches (parent u2) z rx → joined (parent u) z x).
      { intros z Hz. apply Hjoin. by exists rx. }
      assert (Hto' : ∀ z, reaches (parent u2) z ry → joined (parent u) z y).
      { intros z Hz. apply Hjoin. by exists ry. }
      destruct Hab as [[-> ->]|[-> ->]], Hcd as [[Hc Hd]|[Hc Hd]]; auto. }
  rewrite !getidx_rank by done. simpl.
  destruct (Nat.ltb_spec (rk u2 rx) (rk u2 ry)) as [Hlt|Hge].
  { rewrite setidx_Ok by done. simpl. eexists. split; [reflexivity|].
    destruct (link_joined (parent u2) rx ry Hroot Hrx Hry Hne)
      as (Hmono & Hlinked & Honly).
    split_and!; [by apply wf_link|simpl; rewrite length_insert; lia| | |].
    - by apply Hlinked.
    - intros c d Hcd. apply Hmono. by apply Hjoin.
    - intros c d Hcd. apply (Hback c d rx ry); [by left|]. by apply Honly. }
  assert (Hne' : ry ≠ rx) by done.
  destruct (link_joined (parent u2) ry rx Hroot Hry Hrx Hne')
    as (Hmono & Hlinked & Honly).
  destruct (Nat.ltb_spec (rk u2 ry) (rk u2 rx)) as [Hlt|Hge'].
  { rewrite setidx_Ok by done. simpl. eexists. split; [reflexivity|].
    split_and!; [by apply wf_link|simpl; rewrite length_insert; lia| | |].
    - apply joined_sym. by apply Hlinked.
    - intros c d Hcd. apply Hmono. by apply Hjoin.
    - intros c d Hcd. apply (Hback c d ry rx); [by right|]. by apply Honly. }
  rewrite (setidx_Ok (parent u2)) by done. simpl.
  rewrite (setidx_Ok (rank u2)) by (by rewrite (wf_length u2 Hwf2)). simpl.
  eexists. split; [reflexivity|].
  split_and!; [apply wf_link_equal; (done || lia)
              |simpl; rewrite length_insert; lia| | |]; simpl.
  - apply joined_sym. by apply Hlinked.
  - intros c d Hcd. apply Hmono. by apply Hjoin.
  - intros c d Hcd. apply (Hback c d ry rx); [by right|]. by apply Honly.
Qed.

(** *** The test of the first pass *)

Lemma truthy_ne (s : string) : truthy s = true ↔ s ≠ "".
Proof. destruct s; split; done. Qed.

Lemma exact_test (affiliations : list string) (i j : nat) (aff_i aff_j : string) :
  affiliations !! i = Some aff_i → affiliations !! j = Some aff_j →
  truthy aff_i && truthy aff_j && String.eqb (lower aff_i) (lower aff_j) = true
  ↔ exact_match affiliations i j.
Proof.
  intros Hi Hj. rewrite !andb_true_iff, !truthy_ne, String.eqb_eq. split.
  - intros [[? ?] ?]. by exists aff_i, aff_j.
  - intros (a & b & Ha & Hb & ? & ? & ?).
    rewrite Hi in Ha. rewrite Hj in Hb. by simplify_eq.
Qed.

Lemma exact_match_sym (affiliations : list string) (i j : nat) :
  exact_match affiliations i j → exact_match affiliations j i.
Proof. intros (a & b & ? & ? & ? & ? & ?). by exists b, a. Qed.

Lemma exact_match_trans (affiliations : list string) (i j k : nat) :
  exact_match affiliations i j → exact_match affiliations j k →
  exact_match affiliations i k.
Proof.
  intros (a & b & Ha & Hb & ? & ? & Hab) (b' & c & Hb' & Hc & ? & ? & Hbc).
  rewrite Hb in Hb'. simplify_eq. exists a, c. split_and!; try done.
  by rewrite Hab.
Qed.

Lemma grouped_by_match_union (affiliations : list string) (p p' : list nat)
    (x y : nat) :
  exact_match affiliations x y →
  grouped_by_match affiliations p →
  (∀ c d, joined p' c d →
     joined p c d ∨ (joined p c x ∧ joined p d y) ∨ (joined p c y ∧ joined p d x)) →
  grouped_by_match affiliations p'.
Proof.
  intros Hxy Hp Honly c d Hcd.
  assert (Hchain : ∀ c d x y, exact_match affiliations x y →
            joined p c x → joined p d y → c = d ∨ exact_match affiliations c d).
  { clear -Hp. intros c0 d0 x0 y0 Hxy0 Hc Hd.
    apply Hp in Hc as [->|Hc], Hd as [->|Hd].
    - by right.
    - right. eapply exact_match_trans; [done|]. by apply exact_match_sym.
    - right. by eapply exact_match_trans.
    - right. eapply exact_match_trans; [done|].
      eapply exact_match_trans; [done|]. by apply exact_match_sym. }
  destruct (Honly c d Hcd) as [H|[[Hc Hd]|[Hc Hd]]].
  - by apply Hp.
  - by eapply Hchain.
  - eapply Hchain; [|done..]. by apply exact_match_sym.
Qed.

(** *** The first pass *)

Lemma exact_step_joins (fuel : nat) (affiliations : list string)
    (st : pass_state) (i j : nat) :
  (length affiliations < fuel)%nat → (i < j < length affiliations)%nat →
  pass_ok (length affiliations) st →
  ∃ st', exact_step fuel affiliations st (i, j) = Ok st' ∧
         pass_ok (length affiliations) st' ∧ outside st' = outside st ∧
         (∀ c d, joined (parent (uf st)) c d → joined (parent (uf st')) c d) ∧
         (exact_match affiliations i j → joined (parent (uf st')) i j) ∧
         (grouped_by_match affiliations (parent (uf st)) →
          grouped_by_match affiliations (parent (uf st'))).
Proof.
  intros Hfuel Hij [Hwf Hlen]. unfold exact_step.
  destruct (lookup_lt_is_Some_2 affiliations i ltac:(lia)) as [aff_i Hi].
  destruct (lookup_lt_is_Some_2 affiliations j ltac:(lia)) as [aff_j Hj].
  unfold iloc. rewrite Hi, Hj. simpl.
  pose proof (exact_test affiliations i j aff_i aff_j Hi Hj) as Htest.
  destruct (truthy aff_i && truthy aff_j
            && String.eqb (lower aff_i) (lower aff_j)).
  - destruct (union_joins fuel (uf st) i j)
      as (u' & -> & Hwf' & Hlen' & Hjoined & Hmono & Honly); [done|lia..|].
    simpl. eexists. split; [reflexivity|].
    split_and!; simpl; [split; simpl; [done|lia]|done|done|done|].
    intros Hp. eapply grouped_by_match_union; [|done..]. by apply Htest.
  - exists st. split_and!; try done. intros H. apply Htest in H. done.
Qed.

Lemma exact_pass_joins (fuel : nat) (affiliations : list string)
    (todo : list (nat * nat)) (st : pass_state) :
  (length affiliations < fuel)%nat →
  Forall (λ ij, (ij.1 < ij.2 < length affiliations)%nat) todo →
  pass_ok (length affiliations) st →
  ∃ st', run_pass (exact_step fuel affiliations) todo st = Ok st' ∧
         pass_ok (length affiliations) st' ∧ outside st' = outside st ∧
         (∀ c d, joined (parent (uf st)) c d → joined (parent (uf st')) c d) ∧
         (∀ i j, (i, j) ∈ todo → exact_match affiliations i j →
                 joined (parent (uf st')) i j) ∧
         (grouped_by_match affiliations (parent (uf st)) →
          grouped_by_match affiliations (parent (uf st'))).
Proof.
  intros Hfuel Htodo. revert st.
  induction Htodo as [|[i j] todo Hij _ IH]; intros st Hok.
  - exists st. split_and!; try done. intros i j Hin. by apply elem_of_nil in Hin.
  - cbn [run_pass].
    destruct (exact_step_joins fuel affiliations st i j Hfuel Hij Hok)
      as (st1 & -> & Hok1 & Hout1 & Hmono1 & Hjoin1 & Hgrp1).
    cbn [mbind result_bind].
    destruct (IH st1 Hok1) as (st' & -> & Hok' & Hout' & Hmono' & Hjoin' & Hgrp').
    exists st'. split_and!; [done|done|congruence|auto| |auto].
    intros a b Hin Hab. apply elem_of_cons in Hin as [[= -> ->]|Hin]; auto.
Qed.

(** *** The second pass *)

Lemma judged_refl (w : world) : judged 0 w w.
Proof. exists 0%nat. split_and!; [lia|by rewrite app_nil_r|lia|lia]. Qed.

Lemma judged_trans (k1 k2 : nat) (w1 w2 w3 : world) :
  judged k1 w1 w2 → judged k2 w2 w3 → judged (k1 + k2) w1 w3.
Proof.
  intros (m1 & ? & Hs1 & ?) (m2 & ? & Hs2 & ?). exists (m1 + m2)%nat.
  split_and!; [lia| |lia|lia].
  by rewrite Hs2, Hs1, <- app_assoc, replicate_add.
Qed.

Lemma judged_le (k k' : nat) (w w' : world) :
  (k ≤ k')%nat → judged k w w' → judged k' w w'.
Proof. intros Hk (m & ? & ? & ?). exists m. split_and!; [lia|done|lia|lia]. Qed.

Lemma are_authors_same_never (net : network) (aff_i aff_j : string) (w : world) :
  never_same net → (are_authors_same net aff_i aff_j w).1.1 = false.
Proof.
  intros Hnever. unfold are_authors_same, post.
  destruct (negb (truthy aff_i) || negb (truthy aff_j)); [done|].
  destruct (net (requests w)) as [|status body] eqn:Hnet; [done|].
  destruct (Z.eqb_spec status 200) as [->|_]; [|done].
  destruct body as [|[response|]]; [done| |done].
  rewrite (Hnever _ _ Hnet).
  by destruct (contains verdict_different (strip response)).
Qed.

Lemma judge_step_joins (net : network) (fuel : nat) (affiliations : list string)
    (st : pass_state) (i j : nat) :
  (length affiliations < fuel)%nat → (i < j < length affiliations)%nat →
  pass_ok (length affiliations) st →
  ∃ st', judge_step net fuel affiliations st (i, j) = Ok st' ∧
         pass_ok (length affiliations) st' ∧
         (∀ c d, joined (parent (uf st)) c d → joined (parent (uf st')) c d) ∧
         judged 1 (outside st) (outside st') ∧
         (never_same net →
          ∀ c d, joined (parent (uf st')) c d → joined (parent (uf st)) c d).
Proof.
  intros Hfuel Hij [Hwf Hlen]. unfold judge_step.
  case_bool_decide.
  { exists st. split_and!; try done. apply (judged_le 0); [lia|apply judged_refl]. }
  destruct (find_spec fuel (uf st) i Hwf ltac:(lia) ltac:(lia))
    as (ri & u1 & -> & Hwf1 & Hlen1 & _ & Hsame1). simpl.
  destruct (find_spec fuel u1 j Hwf1 ltac:(lia) ltac:(lia))
    as (rj & u2 & -> & Hwf2 & Hlen2 & _ & Hsame2). simpl.
  assert (Hjoin : ∀ c d, joined (parent u2) c d ↔ joined (parent (uf st)) c d).
  { intros. apply joined_same_roots. by eapply same_roots_trans. }
  destruct (decide (ri = rj)).
  { eexists. split; [reflexivity|]. split_and!; simpl.
    - split; simpl; [done|lia].
    - intros c d. apply Hjoin.
    - apply (judged_le 0); [lia|apply judged_refl].
    - intros _ c d. apply Hjoin. }
  destruct (iloc_Ok affiliations i) as [aff_i ->]; [lia|].
  destruct (iloc_Ok affiliations j) as [aff_j ->]; [lia|]. simpl.
  pose proof (OracleMore.are_authors_same_effect net aff_i aff_j (outside st))
    as [Hslept Hreq].
  pose proof (are_authors_same_never net aff_i aff_j (outside st)) as Hnever.
  destruct (are_authors_same net aff_i aff_j (outside st)) as [[is_same why] w'].
  cbn [fst snd] in *.
  assert (Hjudged : judged 1 (outside st) (sleep 1 w')).
  { exists 1%nat. split_and!; simpl; [lia|by rewrite Hslept|lia|lia]. }
  destruct is_same.
  - destruct (union_joins fuel u2 i j)
      as (u' & -> & Hwf' & Hlen' & _ & Hmono & _); [done|lia..|].
    simpl. eexists. split; [reflexivity|]. split_and!; simpl.
    + split; simpl; [done|lia].
    + intros c d Hcd. apply Hmono. by apply Hjoin.
    + done.
    + intros Hn. by specialize (Hnever Hn).
  - simpl. eexists. split; [reflexivity|]. split_and!; simpl.
    + split; simpl; [done|lia].
    + intros c d. apply Hjoin.
    + done.
    + intros _ c d. apply Hjoin.
Qed.

Lemma judge_pass_joins (net : network) (fuel : nat) (affiliations : list string)
    (todo : list (nat * nat)) (st : pass_state) :
  (length affiliations < fuel)%nat →
  Forall (λ ij, (ij.1 < ij.2 < length affiliations)%nat) todo →
  pass_ok (length affiliations) st →
  ∃ st', run_pass (judge_step net fuel affiliations) todo st = Ok st' ∧
         pass_ok (length affiliations) st' ∧
         (∀ c d, joined (parent (uf st)) c d → joined (parent (uf st')) c d) ∧
         judged (length todo) (outside st) (outside st') ∧
         (never_same net →
          ∀ c d, joined (parent (uf st')) c d → joined (parent (uf st)) c d).
Proof.
  intros Hfuel Htodo. revert st.
  induction Htodo as [|[i j] todo Hij _ IH]; intros st Hok.
  - exists st. split_and!; try done. apply judged_refl.
  - cbn [run_pass].
    destruct (judge_step_joins net fuel affiliations st i j Hfuel Hij Hok)
      as (st1 & -> & Hok1 & Hmono1 & Hcost1 & Hback1).
    cbn [mbind result_bind].
    destruct (IH st1 Hok1) as (st' & -> & Hok' & Hmono' & Hcost' & Hback').
    exists st'. split_and!; [done|done|auto| |auto].
    apply (judged_trans 1 (length todo) _ _ _ Hcost1 Hcost').
Qed.

(** *** The pairs *)

Lemma elem_of_pairs_2 (n i j : nat) : (i < j < n)%nat → (i, j) ∈ pairs n.
Proof.
  intros Hij. unfold pairs. apply list_elem_of_bind. exists i. split.
  - apply list_elem_of_fmap. exists j. split; [done|]. apply elem_of_seq. lia.
  - apply elem_of_seq. lia.
Qed.

Lemma pairs_in_range (n : nat) :
  Forall (λ ij : nat * nat, (ij.1 < ij.2 < n)%nat) (pairs n).
Proof. apply Forall_forall. intros [i j] Hin. by apply elem_of_pairs. Qed.

Lemma length_pairs_from (n k m : nat) :
  (k + m = n)%nat →
  (2 * length (i ← seq k m; (λ j, (i, j)) <$> seq (S i) (n - S i)) =
   m * (m - 1))%nat.
Proof.
  revert k. induction m as [|m IH]; intros k Hk; [done|].
  cbn [seq]. rewrite bind_cons, length_app, length_fmap, length_seq.
  specialize (IH (S k) ltac:(lia)). nia.
Qed.

Lemma length_pairs (n : nat) : (2 * length (pairs n) = n * (n - 1))%nat.
Proof. unfold pairs. by apply length_pairs_from. Qed.

(** *** The clustering *)

Lemma grouped_by_match_init (affiliations : list string) (n : nat) :
  grouped_by_match affiliations (parent (init n)).
Proof.
  intros a b (r & Ha & Hb). left. simpl in *.
  assert (Hroot : ∀ x, reaches (seq 0 n) x r → r = x).
  { intros x Hx. apply (reaches_from_root (seq 0 n) x r); [|done].
    apply reaches_lt in Hx as Hlt. rewrite length_seq in Hlt.
    by rewrite lookup_seq_lt. }
  by rewrite <- (Hroot a Ha), <- (Hroot b Hb).
Qed.

Lemma cluster_joins (net : network) (fuel : nat) (affiliations : list string)
    (w : world) :
  (length affiliations < fuel)%nat →
  ∃ st, cluster net fuel affiliations w = Ok st ∧
        pass_ok (length affiliations) st ∧
        judged (length (pairs (length affiliations))) w (outside st) ∧
        (∀ i j, (i < j < length affiliations)%nat →
                exact_match affiliations i j → joined (parent (uf st)) i j) ∧
        (never_same net → grouped_by_match affiliations (parent (uf st))).
Proof.
  intros Hfuel. unfold cluster.
  set (n := length affiliations).
  destruct (exact_pass_joins fuel affiliations (pairs n)
              {| uf := init n; checked_pairs := ∅; outside := w |}
              Hfuel (pairs_in_range n) (wf_init n))
    as (st1 & -> & Hok1 & Hout1 & _ & Hjoin1 & Hgrp1).
  cbn [mbind result_bind].
  destruct (judge_pass_joins net fuel affiliations (pairs n) st1
              Hfuel (pairs_in_range n) Hok1)
    as (st2 & -> & Hok2 & Hmono2 & Hcost2 & Hback2).
  exists st2. split_and!; [done|done| | |].
  - simpl in Hout1. by rewrite Hout1 in Hcost2.
  - intros i j Hij Hmatch. apply Hmono2, Hjoin1; [|done].
    by apply elem_of_pairs_2.
  - intros Hnever a b Hab. apply Hgrp1; [apply grouped_by_match_init|].
    by apply Hback2.
Qed.

(** The identities after the clustering, for two entries or more. *)
Lemma process_author_group_groups (net : network) (affiliations : list string)
    (w : world) :
  length affiliations ≠ 1%nat →
  ∃ ids st,
    (∀ fuel, (length affiliations < fuel)%nat →
       process_author_group net fuel affiliations w = Ok (ids, outside st)) ∧
    length ids = length affiliations ∧
    judged (length (pairs (length affiliations))) w (outside st) ∧
    (∀ i j a b, ids !! i = Some a → ids !! j = Some b →
       (a = b ↔ joined (parent (uf st)) i j)) ∧
    (∀ i j, (i < j < length affiliations)%nat →
            exact_match affiliations i j → joined (parent (uf st)) i j) ∧
    (never_same net → grouped_by_match affiliations (parent (uf st))).
Proof.
  intros Hmany. set (n := length affiliations).
  destruct (cluster_joins net (S n) affiliations w ltac:(lia))
    as (st & Hcluster & [Hwf Hlen] & Hcost & Hjoin & Hgrp).
  destruct (assign_ids_spec (S n) affiliations (uf st) ltac:(lia) Hwf Hlen)
    as (ids & groups & Hassign & Hlength & _ & Hsame).
  exists ids, st. split_and!; try done.
  intros fuel Hfuel.
  apply (process_author_group_mono net (S n) fuel); [unfold n; lia|].
  unfold process_author_group. fold n.
  destruct (Nat.eqb_spec n 1) as [?|_]; [done|].
  rewrite Hcluster. simpl. by rewrite Hassign.
Qed.

(** X21. Two entries whose affiliations are non-empty and equal up to
    the case of their letters get the same [AuthorID], whatever the
    service answers for this pair or for any other. *)
Theorem process_author_group_joins_equal_affiliations
    (net : network) (affiliations : list string) (w : world) (i j : nat) :
  exact_match affiliations i j →
  ∃ ids w' id,
    (∀ fuel, (length affiliations < fuel)%nat →
       process_author_group net fuel affiliations w = Ok (ids, w')) ∧
    ids !! i = Some id ∧ ids !! j = Some id.
Proof.
  intros Hmatch.
  assert (Hi : (i < length affiliations)%nat).
  { destruct Hmatch as (? & ? & Hi & _). by eapply lookup_lt_Some. }
  assert (Hj : (j < length affiliations)%nat).
  { destruct Hmatch as (? & ? & _ & Hj & _). by eapply lookup_lt_Some. }
  destruct (decide (length affiliations = 1%nat)) as [Hone|Hmany].
  - exists [0%nat], w, 0%nat. split_and!.
    + intros fuel _. unfold process_author_group. by rewrite Hone.
    + by replace i with 0%nat by lia.
    + by replace j with 0%nat by lia.
  - destruct (process_author_group_groups net affiliations w Hmany)
      as (ids & st & Hrun & Hlen & _ & Hsame & Hjoin & _).
    destruct (lookup_lt_is_Some_2 ids i ltac:(lia)) as [a Ha].
    destruct (lookup_lt_is_Some_2 ids j ltac:(lia)) as [b Hb].
    exists ids, (outside st), a. split_and!; [done|done|].
    rewrite Hb. f_equal. symmetry. apply (Hsame i j a b Ha Hb).
    destruct (Nat.lt_total i j) as [Hlt|[->|Hgt]].
    + by apply Hjoin.
    + apply (Hsame j j a a Ha Ha). done.
    + apply joined_sym, Hjoin; [lia|]. by apply exact_match_sym.
Qed.

(** X22. When no answer of the service holds the verdict "same", the
    entries are grouped by their affiliations alone: two entries get the
    same [AuthorID] exactly when they are the same entry or their
    affiliations are non-empty and equal up to case.  An entry with an
    empty affiliation stays alone. *)
Theorem process_author_group_without_verdict
    (net : network) (affiliations : list string) (w : world) :
  never_same net →
  ∃ ids w',
    (∀ fuel, (length affiliations < fuel)%nat →
       process_author_group net fuel affiliations w = Ok (ids, w')) ∧
    length ids = length affiliations ∧
    ∀ i j a b, ids !! i = Some a → ids !! j = Some b →
      (a = b ↔ i = j ∨ exact_match affiliations i j).
Proof.
  intros Hnever.
  destruct (decide (length affiliations = 1%nat)) as [Hone|Hmany].
  - exists [0%nat], w. split_and!.
    + intros fuel _. unfold process_author_group. by rewrite Hone.
    + done.
    + intros i j a b Ha Hb.
      apply list_lookup_singleton_Some in Ha as [-> <-].
      apply list_lookup_singleton_Some in Hb as [-> <-].
      split; [by left|done].
  - destruct (process_author_group_groups net affiliations w Hmany)
      as (ids & st & Hrun & Hlen & _ & Hsame & Hjoin & Hgrp).
    exists ids, (outside st). split_and!; [done|done|].
    intros i j a b Ha Hb.
    assert (Hi : (i < length affiliations)%nat).
    { rewrite <- Hlen. by eapply lookup_lt_Some. }
    assert (Hj : (j < length affiliations)%nat).
    { rewrite <- Hlen. by eapply lookup_lt_Some. }
    rewrite (Hsame i j a b Ha Hb). split.
    + by apply Hgrp.
    + intros [->|Hmatch].
      * apply (Hsame j j a a Ha Ha). done.
      * destruct (Nat.lt_total i j) as [Hlt|[->|Hgt]].
        -- by apply Hjoin.
        -- apply (Hsame j j a a Ha Ha). done.
        -- apply joined_sym, Hjoin; [lia|]. by apply exact_match_sym.
Qed.

(** X23. A group of [n] entries costs [n (n - 1) / 2] judgments at
    most: the function pauses one second after each judgment and for
    nothing else, and it makes no more requests than it makes pauses. *)
Theorem process_author_group_cost
    (net : network) (affiliations : list string) (w : world) :
  ∃ ids w' k,
    (∀ fuel, (length affiliations < fuel)%nat →
       process_author_group net fuel affiliations w = Ok (ids, w')) ∧
    (2 * k ≤ length affiliations * (length affiliations - 1))%nat ∧
    slept w' = slept w ++ replicate k 1 ∧
    (requests w ≤ requests w' ≤ requests w + k)%nat.
Proof.
  destruct (decide (length affiliations = 1%nat)) as [Hone|Hmany].
  - exists [0%nat], w, 0%nat. split_and!; [|lia|by rewrite app_nil_r|lia|lia].
    intros fuel _. unfold process_author_group. by rewrite Hone.
  - destruct (process_author_group_groups net affiliations w Hmany)
      as (ids & st & Hrun & _ & (k & Hk & Hslept & Hreq) & _).
    exists ids, (outside st), k. split_and!; [done| |done|lia|lia].
    pose proof (length_pairs (length affiliations)). lia.
Qed.

Lemma process_author_group_joins_equal_affiliations_witness :
  ∃ ids w' id,
    process_author_group says_different 4 mixed_case_affiliations world0
      = Ok (ids, w') ∧
    ids !! 0%nat = Some id ∧ ids !! 2%nat = Some id.
Proof.
  destruct (process_author_group_joins_equal_affiliations
              says_different mixed_case_affiliations world0 0 2)
    as (ids & w' & id & Hrun & H0 & H2).
  - exists "Hosp X", "hosp x". by split_and!.
  - exists ids, w', id. split_and!; [|done|done]. apply Hrun. simpl. lia.
Defined.

Lemma says_different_never_same : never_same says_different.
Proof. intros k response [= <-]. vm_compute. reflexivity. Qed.

Lemma process_author_group_without_verdict_witness :
  ∃ ids w',
    process_author_group says_different 4 mixed_case_affiliations world0
      = Ok (ids, w') ∧
    length ids = 3%nat ∧
    ∀ i j a b, ids !! i = Some a → ids !! j = Some b →
      (a = b ↔ i = j ∨ exact_match mixed_case_affiliations i j).
Proof.
  destruct (process_author_group_without_verdict
              says_different mixed_case_affiliations world0
              says_different_never_same)
    as (ids & w' & Hrun & Hlen & Hids).
  exists ids, w'. split_and!; [|done|done]. apply Hrun. simpl. lia.
Defined.

Lemma process_author_group_mixed_case :
  process_author_group says_different 4 mixed_case_affiliations world0
    = Ok ([0; 1; 0]%nat, {| requests := 2; slept := [1; 1] |}).
Proof. vm_compute. reflexivity. Qed.

End ResolverMore.

(* --------------------------------------------------------------------- *)
(** ** The matcher returns *)
(* --------------------------------------------------------------------- *)

Module MatcherFacts.
Import Keywords MatcherSpec.

Section Bounds.
Variables a b : list ascii.

Lemma elem_of_places (i blo bhi j : nat) :
  j ∈ places a b i blo bhi → (blo ≤ j < bhi)%nat.
Proof.
  unfold places. intros H. apply list_elem_of_filter in H as [_ H].
  apply elem_of_seq in H. lia.
Qed.

Lemma longest_inner_bounds (alo ahi blo bhi i : nat)
    (j2len newj2len : gmap nat nat) (best : nat * nat * nat) (j : nat) :
  (alo ≤ i < ahi)%nat → (blo ≤ j < bhi)%nat →
  lengths_ok (i - alo) blo j2len →
  lengths_ok (S i - alo) blo newj2len → block_ok alo ahi blo bhi best →
  lengths_ok (S i - alo) blo (longest_inner j2len i (newj2len, best) j).1 ∧
  block_ok alo ahi blo bhi (longest_inner j2len i (newj2len, best) j).2.
Proof.
  intros Hi Hj Hold Hnew Hbest. destruct best as [[besti bestj] bestsize].
  assert (Hk : (j2len_get j2len j ≤ i - alo ∧ j2len_get j2len j ≤ j - blo)%nat).
  { destruct j as [|j]; simpl; [lia|].
    destruct (j2len !! j) as [v|] eqn:Hv; simpl; [|lia].
    destruct (Hold j v Hv). lia. }
  unfold longest_inner. cbn [fst snd]. split.
  - intros j' v. destruct (decide (j' = j)) as [->|Hne].
    + rewrite lookup_insert_eq. intros [= <-]. lia.
    + rewrite lookup_insert_ne by done. apply Hnew.
  - destruct (bestsize <? j2len_get j2len j + 1)%nat; [|done].
    unfold block_ok. lia.
Qed.

Lemma longest_outer_bounds (alo ahi blo bhi i : nat)
    (acc : gmap nat nat * (nat * nat * nat)) :
  (alo ≤ i < ahi)%nat →
  lengths_ok (i - alo) blo acc.1 → block_ok alo ahi blo bhi acc.2 →
  lengths_ok (S i - alo) blo (longest_outer a b blo bhi acc i).1 ∧
  block_ok alo ahi blo bhi (longest_outer a b blo bhi acc i).2.
Proof.
  intros Hi Hold Hbest. destruct acc as [j2len best]. cbn [fst snd] in *.
  unfold longest_outer.
  assert (Hfold : ∀ l new_best,
            Forall (λ j, (blo ≤ j < bhi)%nat) l →
            lengths_ok (S i - alo) blo new_best.1 →
            block_ok alo ahi blo bhi new_best.2 →
            lengths_ok (S i - alo) blo
              (foldl (longest_inner j2len i) new_best l).1 ∧
            block_ok alo ahi blo bhi
              (foldl (longest_inner j2len i) new_best l).2).
  { induction l as [|j l IH]; intros [new best'] Hl Hnew Hb; [done|].
    apply Forall_cons in Hl as [Hj Hl].
    cbn [foldl]. cbn [fst snd] in *.
    destruct (longest_inner_bounds alo ahi blo bhi i j2len new best' j)
      as [H1 H2]; [done..|].
    apply IH; done. }
  apply Hfold; [| |done].
  - apply Forall_forall. intros j. apply elem_of_places.
  - intros j v Hv. cbn [fst] in Hv. by rewrite lookup_empty in Hv.
Qed.

Lemma foldl_longest_outer_bounds (alo ahi blo bhi len s : nat)
    (acc : gmap nat nat * (nat * nat * nat)) :
  (alo ≤ s)%nat → (s + len ≤ ahi)%nat →
  lengths_ok (s - alo) blo acc.1 → block_ok alo ahi blo bhi acc.2 →
  block_ok alo ahi blo bhi
    (foldl (longest_outer a b blo bhi) acc (seq s len)).2.
Proof.
  revert s acc. induction len as [|len IH]; intros s acc Hs Hlen Hold Hbest;
    [done|].
  cbn [seq foldl].
  destruct (longest_outer_bounds alo ahi blo bhi s acc) as [H1 H2];
    [lia|done|done|].
  apply IH; [lia|lia|done|done].
Qed.

Lemma extend_left_bounds (steps alo ahi blo bhi besti bestj bestsize : nat) :
  block_ok alo ahi blo bhi (besti, bestj, bestsize) →
  block_ok alo ahi blo bhi
    (extend_left a b steps alo blo besti bestj bestsize).
Proof.
  revert besti bestj bestsize.
  induction steps as [|steps IH]; intros besti bestj bestsize Hok; [done|].
  cbn [extend_left].
  destruct (Nat.ltb_spec alo besti) as [Hlt|_]; [|done]. cbn [andb].
  destruct (Nat.ltb_spec blo bestj) as [Hlt'|_]; [|done]. cbn [andb].
  destruct (bool_decide (a !! (besti - 1)%nat = b !! (bestj - 1)%nat));
    [|done].
  apply IH. unfold block_ok in *. lia.
Qed.

Lemma extend_right_bounds (steps alo ahi blo bhi besti bestj bestsize : nat) :
  block_ok alo ahi blo bhi (besti, bestj, bestsize) →
  block_ok alo ahi blo bhi
    (extend_right a b steps ahi bhi besti bestj bestsize).
Proof.
  revert bestsize.
  induction steps as [|steps IH]; intros bestsize Hok; [done|].
  cbn [extend_right].
  destruct (Nat.ltb_spec (besti + bestsize) ahi) as [Hlt|_]; [|done].
  cbn [andb].
  destruct (Nat.ltb_spec (bestj + bestsize) bhi) as [Hlt'|_]; [|done].
  cbn [andb].
  destruct (bool_decide (a !! (besti + bestsize)%nat
                         = b !! (bestj + bestsize)%nat));
    [|done].
  apply IH. unfold block_ok in *. lia.
Qed.

Lemma find_longest_match_bounds (alo ahi blo bhi : nat) :
  (alo ≤ ahi)%nat → (blo ≤ bhi)%nat →
  block_ok alo ahi blo bhi (find_longest_match a b alo ahi blo bhi).
Proof.
  intros Hle Hle'. unfold find_longest_match.
  pose proof (foldl_longest_outer_bounds alo ahi blo bhi (ahi - alo) alo
                (∅, (alo, blo, 0%nat))) as Hfold.
  destruct (foldl (longest_outer a b blo bhi) (∅, (alo, blo, 0%nat))
              (seq alo (ahi - alo))) as [j2len [[besti bestj] bestsize]].
  cbn [fst snd] in Hfold.
  assert (Hbest : block_ok alo ahi blo bhi (besti, bestj, bestsize)).
  { apply Hfold; [lia|lia| |unfold block_ok; lia].
    intros j v Hv. by rewrite lookup_empty in Hv. }
  pose proof (extend_left_bounds besti alo ahi blo bhi besti bestj bestsize
                Hbest) as Hleft.
  destruct (extend_left a b besti alo blo besti bestj bestsize)
    as [[besti' bestj'] bestsize'].
  by apply extend_right_bounds.
Qed.

Lemma matched_snoc (blocks : list (nat * nat * nat)) (i j k : nat) :
  matched (blocks ++ [(i, j, k)]) = (matched blocks + k)%nat.
Proof.
  unfold matched. rewrite fmap_app, sum_list_with_app. cbn. lia.
Qed.

(** The queue loop ends within its bound, and what it matches fits
    into what the queue still covered of either sequence. *)
Lemma matching_loop_returns (fuel : nat) (queue : list (nat * nat * nat * nat))
    (matching_blocks : list (nat * nat * nat)) :
  Forall queue_ok queue →
  (sum_list_with queue_weight queue < fuel)%nat →
  ∃ blocks,
    matching_loop a b fuel queue matching_blocks = Ok blocks ∧
    (matched blocks ≤ matched matching_blocks + sum_list_with a_span queue)%nat ∧
    (matched blocks ≤ matched matching_blocks + sum_list_with b_span queue)%nat.
Proof.
  revert queue matching_blocks.
  induction fuel as [|fuel IH]; intros queue matching_blocks Hok Hfuel; [lia|].
  cbn [matching_loop].
  destruct (reverse queue) as [|[[[alo ahi] blo] bhi] rest] eqn:Hrev.
  { eexists. split; [done|]. lia. }
  assert (Hqueue : queue = reverse rest ++ [(alo, ahi, blo, bhi)]).
  { by rewrite <- (reverse_involutive queue), Hrev, reverse_cons. }
  subst queue. clear Hrev.
  apply Forall_app in Hok as [Hrest Hitem].
  rewrite Forall_singleton in Hitem. cbn in Hitem. destruct Hitem as [Ha Hb].
  rewrite !sum_list_with_app in *. cbn in Hfuel. cbn [sum_list_with a_span b_span].
  pose proof (find_longest_match_bounds alo ahi blo bhi Ha Hb) as Hblock.
  destruct (find_longest_match a b alo ahi blo bhi) as [[i j] k].
  cbn in Hblock.
  destruct (Nat.eqb_spec k 0) as [->|Hk].
  { destruct (IH (reverse rest) matching_blocks Hrest ltac:(lia))
      as (blocks & -> & H1 & H2).
    eexists. split; [done|]. lia. }
  set (queue' := (if (i + k <? ahi)%nat && (j + k <? bhi)%nat
                  then (if (alo <? i)%nat && (blo <? j)%nat
                        then reverse rest ++ [(alo, i, blo, j)]
                        else reverse rest)
                       ++ [((i + k)%nat, ahi, (j + k)%nat, bhi)]
                  else (if (alo <? i)%nat && (blo <? j)%nat
                        then reverse rest ++ [(alo, i, blo, j)]
                        else reverse rest))).
  assert (Hq : Forall queue_ok queue' ∧
               (sum_list_with queue_weight queue'
                ≤ sum_list_with queue_weight (reverse rest) + 2 * (ahi - alo))%nat ∧
               (sum_list_with a_span queue' + k
                ≤ sum_list_with a_span (reverse rest) + (ahi - alo))%nat ∧
               (sum_list_with b_span queue' + k
                ≤ sum_list_with b_span (reverse rest) + (bhi - blo))%nat).
  { unfold queue'.
    destruct (Nat.ltb_spec alo i), (Nat.ltb_spec blo j),
             (Nat.ltb_spec (i + k) ahi), (Nat.ltb_spec (j + k) bhi);
      cbn [andb]; rewrite ?sum_list_with_app; cbn;
      (split; [repeat (apply Forall_app; split); try done;
               apply Forall_singleton; cbn; lia | lia]). }
  destruct Hq as (Hok' & Hw & Hsa & Hsb).
  destruct (IH queue' (matching_blocks ++ [(i, j, k)]) Hok' ltac:(lia))
    as (blocks & -> & H1 & H2).
  rewrite matched_snoc in H1, H2.
  eexists. split; [done|]. lia.
Qed.

Lemma calculate_ratio_bounds (matches length : nat) :
  (2 * matches ≤ length)%nat →
  (0 <= calculate_ratio matches length)%Q ∧ (calculate_ratio matches length <= 1)%Q.
Proof.
  intros Hle. unfold calculate_ratio.
  destruct (Nat.eqb_spec length 0) as [_|Hne]; [done|].
  unfold Qle. cbn [Qnum Qden].
  assert (Hpos : Z.pos (Pos.of_nat length) = Z.of_nat length).
  { by rewrite <- positive_nat_Z, Nat2Pos.id. }
  rewrite Hpos. lia.
Qed.

Lemma ratio_returns :
  ∃ q, ratio a b = Ok q ∧ (0 <= q)%Q ∧ (q <= 1)%Q.
Proof.
  unfold ratio, get_matching_blocks.
  destruct (matching_loop_returns (2 * length a + 2)
              [(0%nat, length a, 0%nat, length b)] [])
    as (blocks & -> & H1 & H2).
  - apply Forall_singleton. cbn. lia.
  - cbn. lia.
  - cbn in H1, H2. eexists. split; [done|].
    apply calculate_ratio_bounds. fold (matched blocks). lia.
Qed.

End Bounds.








(** X25. The similarity that the exclusion test and the matching compare
    with the threshold is defined for every two strings and lies between
    0 and 1: the blocks that the matcher finds fit into either string. *)
Theorem similarity_in_unit_interval (s t : string) :
  ∃ q, similarity s t = Ok q ∧ (0 <= q)%Q ∧ (q <= 1)%Q.
Proof. unfold similarity. apply ratio_returns. Qed.

End MatcherFacts.
